(** * vscode-forester: the query runner, the command executor, the context
    matcher and the completion synthesizer

    A shallow embedding of [src/server.ts], of [getRoot] from [src/utils.ts]
    and of the completion provider of [src/extension.ts], with the
    properties the specification states about them.

    Strings are [string]: a character is one 8-bit code unit.  Effects on
    the editor and on the child process are kept in a log ([effect]), in the
    order the code performs them.  What the host makes of a child process
    is an input: whether [spawn] throws, and otherwise the list of the events
    that the process and the timer deliver, in order.  The parser of the
    host, [JSON.parse], is a parameter of the query runner. *)

From Stdlib Require Import String Ascii List ZArith Lia Bool Arith.
From Stdlib Require Import DecimalString.
Import ListNotations.
Open Scope string_scope.

(* ================================================================== *)
(** * Regular expressions, as the completion provider uses them *)
(* ================================================================== *)

Module Regex.

(** The constructs that occur in the pattern of [provideCompletionItems]:
    literal text, a negated one-character class [[^c]], the greedy star,
    concatenation, alternation, capturing groups and the end anchor [$]
    (no [m] flag: end of input only). *)
Inductive regex : Type :=
| Lit (s : string)
| NotChr (c : ascii)
| Star (r : regex)
| Cat (r1 r2 : regex)
| Alt (r1 r2 : regex)
| Grp (n : nat) (r : regex)
| Eoi.

Definition span : Type := (nat * nat)%type.
Definition captures : Type := list (option span).

(** A match state: the index reached, the input from that index on, and
    the groups captured so far (slot [n] for group [n]; slot 0 is the whole
    match and is filled by [exec]). *)
Record mstate : Type := MState {
  endIndex : nat;
  rest : string;
  caps : captures
}.

Fixpoint set_cap (n : nat) (v : span) (cs : captures) : captures :=
  match n, cs with
  | 0, _ :: cs' => Some v :: cs'
  | S n', c :: cs' => c :: set_cap n' v cs'
  | _, [] => []
  end.

(** [strip l s]: [s] without the literal [l] at its front, when it is there. *)
Fixpoint strip (l s : string) : option string :=
  match l, s with
  | EmptyString, _ => Some s
  | String a l', String b s' => if Ascii.eqb a b then strip l' s' else None
  | String _ _, EmptyString => None
  end.

(** The backtracking matcher, in continuation-passing style as in the
    language definition: [m r x k] runs [r] from the state [x] and hands
    every way of matching to [k], longest repetition first, left alternative
    first; the first success is the answer.  An iteration of a star that
    consumes nothing is refused. *)
Fixpoint m (r : regex) (x : mstate) (k : mstate -> option mstate)
  {struct r} : option mstate :=
  match r with
  | Lit l =>
      match strip l (rest x) with
      | Some s' => k (MState (endIndex x + String.length l) s' (caps x))
      | None => None
      end
  | NotChr c =>
      match rest x with
      | String a s' =>
          if Ascii.eqb a c then None
          else k (MState (S (endIndex x)) s' (caps x))
      | EmptyString => None
      end
  | Star r' =>
      (fix loop (fuel : nat) (x : mstate) {struct fuel} : option mstate :=
         match fuel with
         | 0 => k x
         | S fuel' =>
             match m r' x (fun y => if Nat.eqb (endIndex y) (endIndex x) then None
                                    else loop fuel' y) with
             | Some z => Some z
             | None => k x
             end
         end) (String.length (rest x)) x
  | Cat r1 r2 => m r1 x (fun y => m r2 y k)
  | Alt r1 r2 =>
      match m r1 x k with
      | Some z => Some z
      | None => m r2 x k
      end
  | Grp n r' =>
      m r' x (fun y => k (MState (endIndex y) (rest y)
                                 (set_cap n (endIndex x, endIndex y) (caps y))))
  | Eoi =>
      match rest x with
      | EmptyString => k x
      | String _ _ => None
      end
  end.

(** The result of [exec] for a pattern with the [d] flag: where the match
    starts, and the index pairs of the whole match and of each group. *)
Record exec_array : Type := ExecArray {
  index : nat;
  indices : captures
}.

(** [exec] without the [g] and [y] flags: try every start index from 0 up,
    the end of the input included; the leftmost start that matches wins. *)
Fixpoint exec_from (r : regex) (ngroups : nat) (i : nat) (s : string)
  : option exec_array :=
  match m r (MState i s (repeat None (S ngroups))) Some with
  | Some y => Some (ExecArray i (set_cap 0 (i, endIndex y) (caps y)))
  | None =>
      match s with
      | String _ s' => exec_from r ngroups (S i) s'
      | EmptyString => None
      end
  end.

Definition exec (r : regex) (ngroups : nat) (text : string)
  : option exec_array :=
  exec_from r ngroups 0 text.

(** [match.indices[n]?.[0]] *)
Definition group_start (a : exec_array) (n : nat) : option nat :=
  match nth n (indices a) None with
  | Some (s, _) => Some s
  | None => None
  end.

End Regex.

Import Regex.

(** [tagPattern] of [provideCompletionItems], flag [d]:
      (?:\\transclude{|\\import{|\\export{|\\ref{) G1 $
    | \[ [^\[]* \] \( G2 $
    | \[\[ G3 $
    where the capturing groups are G1 = [^}]*, G2 = [^\)]* and G3 = [^\]]*.
    One constructor per construct of the pattern, the three alternatives
    in the order they are written. *)
Definition command_alternative : regex :=
  Cat (Alt (Lit "\transclude{")
      (Alt (Lit "\import{")
      (Alt (Lit "\export{")
           (Lit "\ref{"))))
 (Cat (Grp 1 (Star (NotChr "}")))
      Eoi).

Definition markdown_alternative : regex :=
  Cat (Lit "[")
 (Cat (Star (NotChr "["))
 (Cat (Lit "](")
 (Cat (Grp 2 (Star (NotChr ")")))
      Eoi))).

Definition wiki_alternative : regex :=
  Cat (Lit "[[")
 (Cat (Grp 3 (Star (NotChr "]")))
      Eoi).

Definition tagPattern : regex :=
  Alt command_alternative (Alt markdown_alternative wiki_alternative).

Definition tagPattern_groups : nat := 3.


(* ================================================================== *)
(** * The editor's data: positions, ranges, documents, configuration *)
(* ================================================================== *)

Record Position : Type := { line : nat; character : nat }.

Record Range : Type := { range_start : Position; range_end : Position }.

(** A document is its lines. *)
Definition TextDocument : Type := list string.

(** [doc.getText(new Range(new Position(pos.line, 0), pos))]: the text of
    the line of [pos] up to [pos]; a column beyond the end of the line is
    brought back to it. *)
Definition getText_to (doc : TextDocument) (pos : Position) : string :=
  substring 0 (character pos) (nth (line pos) doc "").

(** The settings of the section [forester] that the code reads; [None] is
    a setting that is not there. *)
Record Configuration : Type := {
  cfg_path : option string;
  cfg_config : option string;
  cfg_completion_showID : option bool;
  cfg_create_random : option bool
}.

(** What the code does to its surroundings.  [Uncaught]: an exception
    that nothing catches. *)
Inductive effect : Type :=
| ShowWarningMessage (text : string)
| ShowErrorMessage (text : string)
| ConsoleLog (text : string)
| ConsoleLogArray (items : list string)
| Spawn (path : string) (args : list string) (cwd : string)
| SetTimeout (ms : Z)
| ClearTimeout
| Kill
| ExecFile (path : string) (args : list string) (cwd : string)
| ShowTextDocument (path : string)
| Uncaught (message : string).

(** How a call ends: with a value, with an exception, or never (a promise
    that no event settles). *)
Inductive completion (A : Type) : Type :=
| Returned (a : A)
| Threw (error : string)
| Pending.
Arguments Returned {A} a.
Arguments Threw {A} error.
Arguments Pending {A}.

(** A call: how it ends and what it did on the way. *)
Record run (A : Type) : Type := Run {
  outcome : completion A;
  log : list effect
}.
Arguments Run {A} outcome log.
Arguments outcome {A} r.
Arguments log {A} r.

(** A string is truthy when it is not empty. *)
Definition truthy (s : string) : bool :=
  match s with
  | EmptyString => false
  | String _ _ => true
  end.

Definition newline : string := String "010"%char "".

(** [x ? '\n\n' + x : ''] *)
Definition paragraph (x : string) : string :=
  if truthy x then newline ++ newline ++ x else "".

(* ================================================================== *)
(** * utils.ts *)
(* ================================================================== *)

(** [getRoot]: the first workspace folder, with a warning when there are
    several; an exception when there is none ([workspaceFolders] undefined
    or empty). *)
Definition several_folders_warning (others : list string) : list effect :=
  match others with
  | [] => []
  | _ :: _ =>
      [ShowWarningMessage
         "vscode-forester only supports opening one workspace folder."]
  end.

Definition getRoot (workspaceFolders : list string) : run string :=
  match workspaceFolders with
  | root :: others => Run (Returned root) (several_folders_warning others)
  | [] =>
      Run (Threw "vscode-forester doesn't support opening a single file.") []
  end.

(* ================================================================== *)
(** * Values of the host language, as JSON.parse returns them *)
(* ================================================================== *)

(** A number keeps its lexeme: no property here computes with it.  An
    object is its own enumerable properties in enumeration order. *)
#[warnings="-register-all"]
Inductive js_value : Type :=
| JNull
| JBool (b : bool)
| JNum (lexeme : string)
| JStr (s : string)
| JArr (items : list js_value)
| JObj (props : list (string * js_value)).

Definition string_of_nat (n : nat) : string :=
  NilEmpty.string_of_uint (Nat.to_uint n).

(** [`${z}`] for an integer. *)
Definition string_of_Z (z : Z) : string :=
  NilEmpty.string_of_int (Z.to_int z).

Definition is_digit (c : ascii) : bool :=
  let n := nat_of_ascii c in (48 <=? n)%nat && (n <=? 57)%nat.

Fixpoint all_digits (s : string) : bool :=
  match s with
  | EmptyString => true
  | String c s' => is_digit c && all_digits s'
  end.

Fixpoint digits_value (acc : N) (s : string) : N :=
  match s with
  | EmptyString => acc
  | String c s' => digits_value (acc * 10 + N_of_ascii c - 48)%N s'
  end.

(** A property key is an array index when it is the decimal writing,
    without a leading zero, of an integer below 2^32 - 1. *)
Definition array_index (key : string) : option N :=
  match key with
  | EmptyString => None
  | String c key' =>
      if all_digits key
         && (negb (Ascii.eqb c "0") || negb (truthy key'))
         && (String.length key <=? 10)%nat
         && (digits_value 0 key <? 4294967295)%N
      then Some (digits_value 0 key)
      else None
  end.

(** Where a new key goes among the properties: array indices first, in
    ascending order, then the other keys in the order they were created. *)
Fixpoint insert_prop (key : string) (v : js_value)
  (props : list (string * js_value)) : list (string * js_value) :=
  match props with
  | [] => [(key, v)]
  | (key', v') :: props' =>
      match array_index key, array_index key' with
      | Some i, Some i' =>
          if (i <? i')%N then (key, v) :: props
          else (key', v') :: insert_prop key v props'
      | Some _, None => (key, v) :: props
      | None, _ => (key', v') :: insert_prop key v props'
      end
  end.

Fixpoint has_prop (key : string) (props : list (string * js_value)) : bool :=
  match props with
  | [] => false
  | (key', _) :: props' => String.eqb key key' || has_prop key props'
  end.

Fixpoint replace_prop (key : string) (v : js_value)
  (props : list (string * js_value)) : list (string * js_value) :=
  match props with
  | [] => []
  | (key', v') :: props' =>
      if String.eqb key key' then (key, v) :: props'
      else (key', v') :: replace_prop key v props'
  end.

(** Defining a data property: an existing key keeps its place and takes
    the new value, a new key is inserted. *)
Definition define_prop (key : string) (v : js_value)
  (props : list (string * js_value)) : list (string * js_value) :=
  if has_prop key props then replace_prop key v props
  else insert_prop key v props.

Fixpoint get_prop (key : string) (props : list (string * js_value))
  : option js_value :=
  match props with
  | [] => None
  | (key', v) :: props' =>
      if String.eqb key key' then Some v else get_prop key props'
  end.

(** [obj.key] on a value: [None] is undefined. *)
Definition field (key : string) (v : js_value) : option js_value :=
  match v with
  | JObj props => get_prop key props
  | _ => None
  end.

Fixpoint indexed {A : Type} (i : nat) (l : list A) : list (string * A) :=
  match l with
  | [] => []
  | a :: l' => (string_of_nat i, a) :: indexed (S i) l'
  end.

Fixpoint string_units (s : string) : list js_value :=
  match s with
  | EmptyString => []
  | String c s' => JStr (String c "") :: string_units s'
  end.

(** The own enumerable string-keyed properties of a value, as the spread
    [...v] copies them: an object has its properties, an array and a string
    have their indices, anything else has none. *)
Definition own_props (v : js_value) : list (string * js_value) :=
  match v with
  | JObj props => props
  | JArr items => indexed 0 items
  | JStr s => indexed 0 (string_units s)
  | JNull | JBool _ | JNum _ => []
  end.

(** [Object.entries(v)]: a TypeError on null ([None]). *)
Definition Object_entries (v : js_value) : option (list (string * js_value)) :=
  match v with
  | JNull => None
  | _ => Some (own_props v)
  end.

(** [{ uri: id, ...entry }]: the property [uri] is created first, then
    every property of [entry] is defined on the new object in turn. *)
Definition with_uri (id : string) (entry : js_value) : js_value :=
  JObj (fold_left (fun o kv => define_prop (fst kv) (snd kv) o)
                  (own_props entry) [("uri", JStr id)]).

(* ================================================================== *)
(** * The child process, as the host gives it *)
(* ================================================================== *)

(** An exception of the host.  [err_key] is set on the errors that the
    host makes itself (lib/internal/errors.js): their [toString] shows the
    key after the name.  A property that is not set is [None]. *)
Record js_error : Type := JsError {
  err_name : string;
  err_key : option string;
  err_message : string;
  err_stdout : option string;
  err_stderr : option string
}.

(** [e.toString()] *)
Definition Error_toString (e : js_error) : string :=
  match err_key e with
  | Some key => err_name e ++ " [" ++ key ++ "]: " ++ err_message e
  | None =>
      if negb (truthy (err_name e)) then err_message e
      else if negb (truthy (err_message e)) then err_name e
      else err_name e ++ ": " ++ err_message e
  end.

(** What the child process and the timer deliver to the handlers that are
    installed on them.  The chunk of a [data] event is the text that the
    handler adds to its variable: the chunk as the host decodes it. *)
Inductive proc_event : Type :=
| StdoutData (chunk : string)
| StderrData (chunk : string)
| TimerFired
| ErrorEvent (message : string)
| CloseEvent (code : option Z) (signal : option string).

(** What a call of [child_process.spawn] comes to: it throws, or it returns
    the child process, which is here the events that the process and the
    timer will deliver, in their order.  The call throws when the host
    refuses one of its arguments and when the system fails in a way that the
    host does not report by an [error] event.  (For [queryForest] a child
    that comes without its pipes is as good as refused: the line that
    installs the first [data] handler throws on it.) *)
Inductive spawned : Type :=
| Refused (e : js_error)
| Child (events : list proc_event).

(** The exception for a file name that is empty. *)
Definition empty_file_error : js_error :=
  JsError "TypeError" (Some "ERR_INVALID_ARG_VALUE")
          "The argument 'file' cannot be empty. Received ''" None None.

(** [child_process.spawn(file, ...)].  One refusal is the same on every
    host: a file name that is empty is refused, whatever the system would
    have done with it.  The other refusals depend on the version of the
    host and on the system (a null byte in an argument, a file that the
    system will not run); they are the host's to make, by [Refused]. *)
Definition spawn (file : string) (host : spawned) : spawned :=
  if truthy file then host else Refused empty_file_error.

(* ================================================================== *)
(** * server.ts: queryForest *)
(* ================================================================== *)

(** The pair the promise resolves to: [[true, result]] or
    [[false, message]]. *)
Inductive settlement : Type :=
| Succeeded (result : js_value)
| Failed (message : string).

(** The variables the handlers share, and the effects so far. *)
Record qstate : Type := QState {
  q_stdout : string;
  q_stderr : string;
  q_log : list effect
}.

(** [`${code}`] and [`${signal}`]: null is written null. *)
Definition show_code (code : option Z) : string :=
  match code with
  | Some z => string_of_Z z
  | None => "null"
  end.

Definition show_signal (signal : option string) : string :=
  match signal with
  | Some s => s
  | None => "null"
  end.

(** [signal !== null || code !== 0] *)
Definition abnormal_exit (code : option Z) (signal : option string) : bool :=
  match signal, code with
  | None, Some 0%Z => false
  | _, _ => true
  end.

Definition timeout_message : string := "Forester timed out after 30s".

Definition exit_message (code : option Z) (signal : option string) : string :=
  "Forester: process exited with code " ++ show_code code
  ++ " and signal " ++ show_signal signal ++ ".".

Definition invalid_json_message (stdout : string) : string :=
  "Forester didn't return a valid JSON response:" ++ newline ++ stdout.

(** The two shapes of a response: an array is the forest as it is; of
    anything else the entries are taken, the key of each becoming the
    [uri] of its value.  [None]: [Object.entries] throws. *)
Definition normalize (data : js_value) : option (list js_value) :=
  match data with
  | JArr items => Some items
  | _ =>
      match Object_entries data with
      | Some entries =>
          Some (map (fun kv => with_uri (fst kv) (snd kv)) entries)
      | None => None
      end
  end.

(** The promise, settled: the variables and the log at that moment, the
    pair it was resolved with, the event whose handler resolved it, and the
    events that are still to come. *)
Record settled : Type := Settled {
  s_state : qstate;
  s_value : settlement;
  s_event : proc_event;
  s_rest : list proc_event
}.

Definition is_error (ev : proc_event) : bool :=
  match ev with
  | ErrorEvent _ => true
  | _ => false
  end.

(** The handlers stay installed when the promise is settled; a second
    [resolve] does nothing, the chunks still go to the two variables, the
    timer is cleared or has fired.  What is left to see is the warning of
    the [error] handler.  That handler is installed with [once]: when it has
    run, an [error] event finds no listener and the emitter throws the
    error, which nothing catches.  [error_listener]: the handler has not
    run yet. *)
Fixpoint late_effects (error_listener : bool) (events : list proc_event)
  : list effect :=
  match events with
  | [] => []
  | ErrorEvent message :: events' =>
      (if error_listener
       then ShowWarningMessage ("Forester: Critical error - " ++ message)
       else Uncaught message) :: late_effects false events'
  | _ :: events' => late_effects error_listener events'
  end.

Section Host.

(** [JSON.parse] of the host: [None] when it throws. *)
Variable JSON_parse : string -> option js_value.

(** One event, handled: the two [data] handlers, the timer callback, and
    the [error] and [close] handlers.  The second component is the call of
    [resolve], when the handler makes one. *)
Definition on_event (st : qstate) (ev : proc_event)
  : qstate * option settlement :=
  match ev with
  | StdoutData chunk =>
      (QState (q_stdout st ++ chunk) (q_stderr st) (q_log st), None)
  | StderrData chunk =>
      (QState (q_stdout st) (q_stderr st ++ chunk) (q_log st), None)
  | TimerFired =>
      (QState (q_stdout st) (q_stderr st) (q_log st ++ [Kill])%list,
       Some (Failed timeout_message))
  | ErrorEvent message =>
      (QState (q_stdout st) (q_stderr st)
              (q_log st ++ [ShowWarningMessage
                              ("Forester: Critical error - " ++ message)])%list,
       Some (Failed message))
  | CloseEvent code signal =>
      (st,
       Some (if abnormal_exit code signal
             then Failed (exit_message code signal)
             else match JSON_parse (q_stdout st) with
                  | Some result => Succeeded result
                  | None => Failed (invalid_json_message (q_stdout st))
                  end))
  end.

(** The [await]: events are handled in the order they arrive until one
    resolves the promise; the events after it are kept.  [None]: the events
    run out first. *)
Fixpoint await_settlement (st : qstate) (events : list proc_event)
  : option settled :=
  match events with
  | [] => None
  | ev :: events' =>
      match on_event st ev with
      | (st', Some s) => Some (Settled st' s ev events')
      | (st', None) => await_settlement st' events'
      end
  end.

(** The part of [queryForest] after the [await]. *)
Definition after_await (st : qstate) (s : settlement)
  : run (list js_value) :=
  let log1 := (q_log st ++ [ClearTimeout])%list in
  match s with
  | Succeeded data =>
      match normalize data with
      | Some forest => Run (Returned forest) log1
      | None =>
          Run (Threw "TypeError: Cannot convert undefined or null to object")
              log1
      end
  | Failed message =>
      let errorMessage :=
        message ++ paragraph (q_stdout st) ++ paragraph (q_stderr st) in
      Run (Returned [])
          (log1 ++ [ConsoleLog errorMessage;
                    ShowErrorMessage ("Forester query failed: " ++ errorMessage)])%list
  end.

(** [config.get('path') as string ?? 'forester'] *)
Definition forester_path (config : Configuration) : string :=
  match cfg_path config with
  | Some p => p
  | None => "forester"
  end.

(** [configfile ? [configfile] : []] *)
Definition configfile_args (config : Configuration) : list string :=
  match cfg_config config with
  | Some f => if truthy f then [f] else []
  | None => []
  end.

(** [queryForest], on what the host makes of the call of [spawn].  No
    [try] surrounds that call: when it throws, [queryForest] is over with
    that exception, before the timer is set.  Otherwise the events decide;
    when none of them settles the promise the call stays pending.  The
    entries are the values of the host as they were parsed ([as Forest]
    checks nothing).  The log is what the call itself does, up to its end;
    what the handlers do with the events after the one that settles the
    promise is [afterwards]. *)
Definition queryForest (workspaceFolders : list string)
  (config : Configuration) (host : spawned)
  : run (list js_value) :=
  let root := getRoot workspaceFolders in
  match outcome root with
  | Threw e => Run (Threw e) (log root)
  | Pending => Run Pending (log root)
  | Returned cwd =>
      let args := (["query"; "all"] ++ configfile_args config)%list in
      match spawn (forester_path config) host with
      | Refused e =>
          Run (Threw (Error_toString e))
              (log root ++ [Spawn (forester_path config) args cwd])%list
      | Child events =>
          let st0 := QState "" ""
                       (log root ++ [Spawn (forester_path config) args cwd;
                                     SetTimeout 30000])%list in
          match await_settlement st0 events with
          | None =>
              Run Pending
                  (q_log (fold_left (fun st ev => fst (on_event st ev))
                                    events st0))
          | Some r => after_await (s_state r) (s_value r)
          end
      end
  end.

(** What the handlers of [queryForest] still do once the promise is
    settled, on the events that follow.  An [error] that [kill] emits comes
    from inside the timer callback, before the call goes on after the
    [await]; the other events come when the call is over. *)
Definition afterwards (events : list proc_event) : list effect :=
  match await_settlement (QState "" "" []) events with
  | Some r => late_effects (negb (is_error (s_event r))) (s_rest r)
  | None => []
  end.

(** The outcome of the process runner, as the specification reads it: on
    failure, the message the promise was resolved with and the two outputs
    as [queryForest] has them when it builds its error message. *)
Inductive QueryOutcome : Type :=
| Success (data : js_value)
| Failure (message rawStdout rawStderr : string).

Definition query_outcome (st : qstate) (s : settlement) : QueryOutcome :=
  match s with
  | Succeeded result => Success result
  | Failed message => Failure message (q_stdout st) (q_stderr st)
  end.

Definition runner_outcome (events : list proc_event) : option QueryOutcome :=
  match await_settlement (QState "" "" []) events with
  | Some r => Some (query_outcome (s_state r) (s_value r))
  | None => None
  end.

(** The ways a query fails, on the event that settles it; [stdout] is the
    output captured before that event. *)
Inductive query_failure (stdout : string) : proc_event -> Prop :=
| SpawnError (message : string) :
    query_failure stdout (ErrorEvent message)
| TimedOut :
    query_failure stdout TimerFired
| NonZeroExit (code : option Z) (signal : option string) :
    code <> Some 0%Z -> query_failure stdout (CloseEvent code signal)
| SignalTermination (code : option Z) (signal : string) :
    query_failure stdout (CloseEvent code (Some signal))
| ParseFailure :
    JSON_parse stdout = None ->
    query_failure stdout (CloseEvent (Some 0%Z) None).

End Host.

(** The chunks of output: the events before the one that settles the
    promise are of this kind. *)
Definition is_data (ev : proc_event) : bool :=
  match ev with
  | StdoutData _ | StderrData _ => true
  | _ => false
  end.

Fixpoint captured_stdout (events : list proc_event) : string :=
  match events with
  | [] => ""
  | StdoutData chunk :: events' => chunk ++ captured_stdout events'
  | _ :: events' => captured_stdout events'
  end.

(** The messages of the [error] events, in their order. *)
Fixpoint error_messages (events : list proc_event) : list string :=
  match events with
  | [] => []
  | ErrorEvent message :: events' => message :: error_messages events'
  | _ :: events' => error_messages events'
  end.

Fixpoint captured_stderr (events : list proc_event) : string :=
  match events with
  | [] => ""
  | StderrData chunk :: events' => chunk ++ captured_stderr events'
  | _ :: events' => captured_stderr events'
  end.

(* ================================================================== *)
(** * The host's execFile *)
(* ================================================================== *)

(** The default of the option [maxBuffer]: 1024 * 1024 bytes, on each of
    the two outputs. *)
Definition MAX_BUFFER : N := 1048576.

(** [Buffer.byteLength(chunk, 'utf8')]: a code unit below 128 is one
    byte, each other of the 8-bit code units is two. *)
Fixpoint byteLength (s : string) : N :=
  match s with
  | EmptyString => 0
  | String c s' =>
      ((if (nat_of_ascii c <? 128)%nat then 1 else 2) + byteLength s')%N
  end.

(** The variables of [execFile]: the two outputs as they are kept, the
    bytes counted on each, and the exception, once an output is too long.
    The two streams are destroyed when the exception is set. *)
Record xstate : Type := XState {
  x_stdout : string;
  x_stderr : string;
  x_stdoutLen : N;
  x_stderrLen : N;
  x_ex : option js_error
}.

Inductive exec_settlement : Type :=
| Fulfilled (stdout stderr : string)
| Rejected (e : js_error).

Definition command_line (file : string) (args : list string) : string :=
  match args with
  | [] => file
  | _ :: _ => file ++ " " ++ String.concat " " args
  end.

Definition maxBuffer_error (stream : string) : js_error :=
  JsError "RangeError" (Some "ERR_CHILD_PROCESS_STDIO_MAXBUFFER")
          (stream ++ " maxBuffer length exceeded") None None.

(** The promise of the promisified [execFile] sets both outputs on the
    exception it rejects with. *)
Definition with_outputs (e : js_error) (stdout stderr : string) : js_error :=
  JsError (err_name e) (err_key e) (err_message e) (Some stdout) (Some stderr).

(** [exithandler]: the callback gets both outputs when there is no
    exception, the code is 0 and there is no signal; otherwise it gets the
    exception that is set, or one that names the command line. *)
Definition exithandler (file : string) (args : list string) (st : xstate)
  (code : option Z) (signal : option string) : exec_settlement :=
  match x_ex st with
  | Some ex => Rejected (with_outputs ex (x_stdout st) (x_stderr st))
  | None =>
      if abnormal_exit code signal
      then Rejected (JsError "Error" None
                       ("Command failed: " ++ command_line file args
                        ++ newline ++ x_stderr st)
                       (Some (x_stdout st)) (Some (x_stderr st)))
      else Fulfilled (x_stdout st) (x_stderr st)
  end.

(** One event, as [execFile] handles it.  A chunk is counted in bytes; the
    chunk that brings the count above [maxBuffer] is kept up to the room
    that was left, the exception is set and the child is killed.  An
    [error] event makes its error the exception and ends the wait, as a
    [close] event does.  There is no timer: no [timeout] is given. *)
Definition exec_event (file : string) (args : list string) (st : xstate)
  (ev : proc_event) : xstate * option exec_settlement :=
  match ev with
  | StdoutData chunk =>
      match x_ex st with
      | Some _ => (st, None)
      | None =>
          let len := (x_stdoutLen st + byteLength chunk)%N in
          if (MAX_BUFFER <? len)%N
          then (XState (x_stdout st
                        ++ substring 0 (N.to_nat (MAX_BUFFER - x_stdoutLen st))
                                     chunk)
                       (x_stderr st) len (x_stderrLen st)
                       (Some (maxBuffer_error "stdout")), None)
          else (XState (x_stdout st ++ chunk) (x_stderr st)
                       len (x_stderrLen st) None, None)
      end
  | StderrData chunk =>
      match x_ex st with
      | Some _ => (st, None)
      | None =>
          let len := (x_stderrLen st + byteLength chunk)%N in
          if (MAX_BUFFER <? len)%N
          then (XState (x_stdout st)
                       (x_stderr st
                        ++ substring 0 (N.to_nat (MAX_BUFFER - x_stderrLen st))
                                     chunk)
                       (x_stdoutLen st) len
                       (Some (maxBuffer_error "stderr")), None)
          else (XState (x_stdout st) (x_stderr st ++ chunk)
                       (x_stdoutLen st) len None, None)
      end
  | TimerFired => (st, None)
  | ErrorEvent message =>
      (st, Some (Rejected (JsError "Error" None message
                             (Some (x_stdout st)) (Some (x_stderr st)))))
  | CloseEvent code signal =>
      (st, Some (exithandler file args st code signal))
  end.

Fixpoint exec_settlement_of (file : string) (args : list string)
  (st : xstate) (events : list proc_event) : option exec_settlement :=
  match events with
  | [] => None
  | ev :: events' =>
      match exec_event file args st ev with
      | (_, Some s) => Some s
      | (st', None) => exec_settlement_of file args st' events'
      end
  end.

(** [util.promisify(child_process.execFile)], for the [try] of [command]:
    the promise is fulfilled with both outputs, or the caller gets an
    exception, which the call throws ([spawn] refuses) or the promise is
    rejected with.  [None]: the child never ends.  Once the promise is
    settled the handlers of [execFile] do nothing that can be seen. *)
Definition execFile (file : string) (args : list string) (host : spawned)
  : option exec_settlement :=
  match spawn file host with
  | Refused e => Some (Rejected e)
  | Child events =>
      exec_settlement_of file args (XState "" "" 0 0 None) events
  end.

(* ================================================================== *)
(** * server.ts: command *)
(* ================================================================== *)

(** [e.x ? '\n\n' + e.x : ''] *)
Definition paragraph_of (x : option string) : string :=
  match x with
  | Some s => paragraph s
  | None => ""
  end.

(** [configfile ? [...command, configfile] : command] *)
Definition command_args (config : Configuration) (cmd : list string)
  : list string :=
  match cfg_config config with
  | Some f => if truthy f then (cmd ++ [f])%list else cmd
  | None => cmd
  end.

(** [command]: the result is the standard output, or undefined ([None])
    when the [catch] clause has run.  [host] is what the host makes of the
    child process. *)
Definition command (workspaceFolders : list string) (config : Configuration)
  (host : spawned) (cmd : list string) : run (option string) :=
  let root := getRoot workspaceFolders in
  match outcome root with
  | Threw e => Run (Threw e) (log root)
  | Pending => Run Pending (log root)
  | Returned cwd =>
      let args := command_args config cmd in
      let log1 := (log root ++ [ConsoleLogArray cmd;
                                ExecFile (forester_path config) args cwd])%list in
      match execFile (forester_path config) args host with
      | None => Run Pending log1
      | Some (Fulfilled stdout stderr) =>
          Run (Returned (Some stdout))
              (log1 ++ (if truthy stderr then [ShowErrorMessage stderr]
                        else []))%list
      | Some (Rejected e) =>
          let errorMessage :=
            Error_toString e ++ paragraph_of (err_stdout e)
            ++ paragraph_of (err_stderr e) in
          Run (Returned None) (log1 ++ [ShowErrorMessage errorMessage])%list
      end
  end.

(* ================================================================== *)
(** * extension.ts: the command forester.new *)
(* ================================================================== *)

(** White space of [String.prototype.trim] among the 8-bit code units:
    tab, line feed, vertical tab, form feed, carriage return, space and
    no-break space. *)
Definition is_space (c : ascii) : bool :=
  let n := nat_of_ascii c in
  ((9 <=? n)%nat && (n <=? 13)%nat) || (n =? 32)%nat || (n =? 160)%nat.

Fixpoint trimStart (s : string) : string :=
  match s with
  | EmptyString => ""
  | String c s' => if is_space c then trimStart s' else s
  end.

Fixpoint trimEnd (s : string) : string :=
  match s with
  | EmptyString => ""
  | String c s' =>
      let t := trimEnd s' in
      if is_space c && negb (truthy t) then "" else String c t
  end.

Definition trim (s : string) : string := trimEnd (trimStart s).

(** The arguments of the call of [command] in the handler of
    [forester.new]. *)
Definition new_tree_args (config : Configuration) (folder prefix : string)
  (template : option string) : list string :=
  let random := match cfg_create_random config with
                | Some b => b
                | None => false
                end in
  (["new"; "--dest"; folder; "--prefix"; prefix]
   ++ (match template with
       | Some t => if truthy t then [("--template=" ++ t)%string] else []
       | None => []
       end)
   ++ (if random then ["--random"] else []))%list.

(** [(await command([...]))?.trim()] *)
Definition new_tree_result (workspaceFolders : list string)
  (config : Configuration) (host : spawned)
  (folder prefix : string) (template : option string) : run (option string) :=
  let r := command workspaceFolders config host
             (new_tree_args config folder prefix template) in
  match outcome r with
  | Returned result => Run (Returned (option_map trim result)) (log r)
  | Threw e => Run (Threw e) (log r)
  | Pending => Run Pending (log r)
  end.

(** The handler of [forester.new] from the point where the folder, the
    prefix and the template are known: the file that was created is opened
    when the result is a string that is not empty. *)
Definition forester_new (workspaceFolders : list string)
  (config : Configuration) (host : spawned)
  (folder prefix : string) (template : option string) : run unit :=
  let r := new_tree_result workspaceFolders config host folder prefix template in
  match outcome r with
  | Returned (Some result) =>
      Run (Returned tt)
          (log r ++ (if truthy result then [ShowTextDocument result] else []))%list
  | Returned None => Run (Returned tt) (log r)
  | Threw e => Run (Threw e) (log r)
  | Pending => Run Pending (log r)
  end.

(* ================================================================== *)
(** * extension.ts: suggest and the completion provider *)
(* ================================================================== *)

(** [ForesterTree] of server.ts; [None] is null. *)
Record ForesterTree : Type := {
  title : option string;
  taxon : option string;
  tags : list string;
  route : string;
  metas : list (string * string);
  sourcePath : string;
  uri : string
}.

Definition Forest : Type := list ForesterTree.

Record CompletionItemLabel : Type := {
  label : string;
  description : string
}.

Inductive CompletionItemKind : Type := Value.

Record CompletionItem : Type := {
  item_label : CompletionItemLabel;
  item_kind : CompletionItemKind;
  item_range : Range;
  insertText : string;
  filterText : string;
  detail : string;
  documentation : option string
}.

(** [x ?? d] *)
Definition orElse {A : Type} (x : option A) (d : A) : A :=
  match x with
  | Some a => a
  | None => d
  end.

(** The body of the loop of [suggest]: the item built for one entry. *)
Definition suggestion (showID : bool) (range : Range) (entry : ForesterTree)
  : CompletionItem :=
  let id := uri entry in
  {| item_label :=
       {| label := match title entry with
                   | None => "[" ++ id ++ "]"
                   | Some t => if showID then "[" ++ id ++ "] " ++ t else t
                   end;
          description := orElse (taxon entry) "" |};
     item_kind := Value;
     item_range := range;
     insertText := id;
     filterText := id ++ " " ++ orElse (title entry) "" ++ " "
                   ++ orElse (taxon entry) "";
     detail := orElse (taxon entry) "Tree" ++ " [" ++ id ++ "]";
     documentation := title entry |}.

(** [suggest]: the items are pushed in the order of the entries. *)
Definition suggest (config : Configuration) (trees : Forest) (range : Range)
  : list CompletionItem :=
  let showID := orElse (cfg_completion_showID config) false in
  fold_left (fun results entry => (results ++ [suggestion showID range entry])%list)
            trees [].

(** An asynchronous computation that may ask the forest cache for the
    forest ([getForest], of a module that is not part of these sources) and
    goes on with the answer. *)
Inductive task (A : Type) : Type :=
| Done (a : A)
| AwaitForest (fastReturnStale : bool) (k : Forest -> task A).
Arguments Done {A} a.
Arguments AwaitForest {A} fastReturnStale k.

(** The number of requests a task makes when the cache answers with
    [getForest]. *)
Fixpoint forest_requests {A : Type} (getForest : bool -> Forest) (t : task A)
  : nat :=
  match t with
  | Done _ => 0
  | AwaitForest opt k => S (forest_requests getForest (k (getForest opt)))
  end.

Fixpoint result_of {A : Type} (getForest : bool -> Forest) (t : task A) : A :=
  match t with
  | Done a => a
  | AwaitForest opt k => result_of getForest (k (getForest opt))
  end.

(** The start of the replacement range, when the pattern matches:
    [match.indices[1]?.[0] ?? match.indices[2]?.[0] ?? match.indices[3]?.[0]
     ?? pos.character].  With the flag [d] the indices are always there. *)
Definition completion_start (text : string) (character : nat) : option nat :=
  match exec tagPattern tagPattern_groups text with
  | None => None
  | Some mt =>
      Some (orElse (group_start mt 1)
           (orElse (group_start mt 2)
           (orElse (group_start mt 3) character)))
  end.

(** [provideCompletionItems] *)
Definition provideCompletionItems (config : Configuration)
  (doc : TextDocument) (pos : Position) : task (list CompletionItem) :=
  let text := getText_to doc pos in
  match completion_start text (character pos) with
  | None => Done []
  | Some ix =>
      let range := {| range_start := {| line := line pos; character := ix |};
                      range_end := pos |} in
      AwaitForest true (fun forest => Done (suggest config forest range))
  end.

(** The matching step of [provideCompletionItems] on a prefix text with the
    cursor at column [character], as the specification reads it: where the
    replacement starts, where it ends, and the text in between. *)
Inductive MatchResult : Type :=
| NoMatch
| Match (startOffset endOffset : nat) (partialText : string).

Definition context_match (text : string) (character : nat) : MatchResult :=
  match completion_start text character with
  | None => NoMatch
  | Some ix => Match ix character (substring ix (character - ix) text)
  end.

(* ================================================================== *)
(** * A reference JSON.parse *)
(* ================================================================== *)

(** The theorems below hold for every [JSON_parse].  To run the model on
    the output of a process, this module gives one: the JSON grammar on
    8-bit text (an escape above code 255 is outside this alphabet and is
    declined).  Members are defined on the object in the order they are
    read, so a repeated key keeps its first place and its last value. *)
Module ReferenceJSON.

Definition is_ws (c : ascii) : bool :=
  let n := nat_of_ascii c in
  (n =? 32)%nat || (n =? 9)%nat || (n =? 10)%nat || (n =? 13)%nat.

Fixpoint skip_ws (s : string) : string :=
  match s with
  | EmptyString => ""
  | String c s' => if is_ws c then skip_ws s' else s
  end.

Definition hex_value (c : ascii) : option nat :=
  let n := nat_of_ascii c in
  if (48 <=? n)%nat && (n <=? 57)%nat then Some (n - 48)
  else if (65 <=? n)%nat && (n <=? 70)%nat then Some (n - 55)
  else if (97 <=? n)%nat && (n <=? 102)%nat then Some (n - 87)
  else None.

Definition hex4 (a b c d : ascii) : option nat :=
  match hex_value a, hex_value b, hex_value c, hex_value d with
  | Some x, Some y, Some z, Some w => Some (((x * 16 + y) * 16 + z) * 16 + w)
  | _, _, _, _ => None
  end.

(** What a simple escape stands for. *)
Definition escape (e : ascii) : option ascii :=
  let n := nat_of_ascii e in
  if (n =? 34)%nat then Some "034"%char
  else if (n =? 92)%nat then Some "\"%char
  else if (n =? 47)%nat then Some "/"%char
  else if (n =? 98)%nat then Some "008"%char
  else if (n =? 102)%nat then Some "012"%char
  else if (n =? 110)%nat then Some "010"%char
  else if (n =? 114)%nat then Some "013"%char
  else if (n =? 116)%nat then Some "009"%char
  else None.

Definition cons_to (c : ascii) (r : option (string * string))
  : option (string * string) :=
  match r with
  | Some (body, after) => Some (String c body, after)
  | None => None
  end.

(** The characters of a string literal after its opening quote: the
    string, and the text after the closing quote. *)
Fixpoint string_body (s : string) : option (string * string) :=
  match s with
  | EmptyString => None
  | String c s' =>
      if (nat_of_ascii c =? 34)%nat then Some ("", s')
      else if (nat_of_ascii c =? 92)%nat then
        match s' with
        | String e s'' =>
            if (nat_of_ascii e =? 117)%nat then
              match s'' with
              | String h1 (String h2 (String h3 (String h4 s5))) =>
                  match hex4 h1 h2 h3 h4 with
                  | Some n =>
                      if (n <? 256)%nat
                      then cons_to (ascii_of_nat n) (string_body s5)
                      else None
                  | None => None
                  end
              | _ => None
              end
            else
              match escape e with
              | Some c' => cons_to c' (string_body s'')
              | None => None
              end
        | EmptyString => None
        end
      else if (nat_of_ascii c <? 32)%nat then None
      else cons_to c (string_body s')
  end.

Fixpoint take_digits (s : string) : string * string :=
  match s with
  | String c s' =>
      if is_digit c then let (ds, r) := take_digits s' in (String c ds, r)
      else ("", s)
  | EmptyString => ("", "")
  end.

(** A number: an optional minus sign; 0, or a digit from 1 to 9 and more
    digits; optionally a point and digits; optionally e or E, a sign and
    digits. *)
Definition number (s : string) : option (string * string) :=
  let (sign, s1) := match s with
                    | String "-"%char s' => ("-", s')
                    | _ => ("", s)
                    end in
  let int_part :=
    match s1 with
    | String c s2 =>
        if Ascii.eqb c "0" then Some ("0", s2)
        else if is_digit c then Some (take_digits s1)
        else None
    | EmptyString => None
    end in
  match int_part with
  | None => None
  | Some (i, s3) =>
      let frac_part :=
        match s3 with
        | String "."%char s4 =>
            let (ds, r) := take_digits s4 in
            if truthy ds then Some ("." ++ ds, r) else None
        | _ => Some ("", s3)
        end in
      match frac_part with
      | None => None
      | Some (f, s5) =>
          let exp_part :=
            match s5 with
            | String e s6 =>
                if Ascii.eqb e "e" || Ascii.eqb e "E" then
                  let (sg, s7) := match s6 with
                                  | String "+"%char r => ("+", r)
                                  | String "-"%char r => ("-", r)
                                  | _ => ("", s6)
                                  end in
                  let (ds, r) := take_digits s7 in
                  if truthy ds then Some (String e (sg ++ ds), r) else None
                else Some ("", s5)
            | EmptyString => Some ("", s5)
            end in
          match exp_part with
          | None => None
          | Some (x, s8) => Some (sign ++ i ++ f ++ x, s8)
          end
      end
  end.

Definition object_of (members : list (string * js_value)) : js_value :=
  JObj (fold_left (fun o kv => define_prop (fst kv) (snd kv) o) members []).

(** A value, the elements of an array after its bracket, and the members
    of an object after its brace; each with the text that follows. *)
Fixpoint value (fuel : nat) (s : string) : option (js_value * string) :=
  match fuel with
  | 0 => None
  | S fuel' =>
      match skip_ws s with
      | String "n" (String "u" (String "l" (String "l" r))) => Some (JNull, r)
      | String "t" (String "r" (String "u" (String "e" r))) =>
          Some (JBool true, r)
      | String "f" (String "a" (String "l" (String "s" (String "e" r)))) =>
          Some (JBool false, r)
      | String "034" r =>
          match string_body r with
          | Some (str, r') => Some (JStr str, r')
          | None => None
          end
      | String "[" r =>
          match skip_ws r with
          | String "]" r' => Some (JArr [], r')
          | _ =>
              match elements fuel' r with
              | Some (items, r') => Some (JArr items, r')
              | None => None
              end
          end
      | String "{" r =>
          match skip_ws r with
          | String "}" r' => Some (JObj [], r')
          | _ =>
              match members fuel' r with
              | Some (ms, r') => Some (object_of ms, r')
              | None => None
              end
          end
      | t =>
          match number t with
          | Some (lexeme, r) => Some (JNum lexeme, r)
          | None => None
          end
      end
  end
with elements (fuel : nat) (s : string) : option (list js_value * string) :=
  match fuel with
  | 0 => None
  | S fuel' =>
      match value fuel' s with
      | Some (v, r) =>
          match skip_ws r with
          | String "," r' =>
              match elements fuel' r' with
              | Some (vs, r'') => Some (v :: vs, r'')
              | None => None
              end
          | String "]" r' => Some ([v], r')
          | _ => None
          end
      | None => None
      end
  end
with members (fuel : nat) (s : string)
  : option (list (string * js_value) * string) :=
  match fuel with
  | 0 => None
  | S fuel' =>
      match skip_ws s with
      | String "034" r =>
          match string_body r with
          | Some (key, r1) =>
              match skip_ws r1 with
              | String ":" r2 =>
                  match value fuel' r2 with
                  | Some (v, r3) =>
                      match skip_ws r3 with
                      | String "," r4 =>
                          match members fuel' r4 with
                          | Some (ms, r5) => Some ((key, v) :: ms, r5)
                          | None => None
                          end
                      | String "}" r4 => Some ([(key, v)], r4)
                      | _ => None
                      end
                  | None => None
                  end
              | _ => None
              end
          | None => None
          end
      | _ => None
      end
  end.

(** The whole text is one value, white space around it allowed.  The fuel
    is twice the length of the text and two more: an array or an object
    spends two steps on its opening character. *)
Definition parse (text : string) : option js_value :=
  match value (2 * String.length text + 2) text with
  | Some (v, r) => if truthy (skip_ws r) then None else Some v
  | None => None
  end.

End ReferenceJSON.

(** The log of a query that fails with [message] after the chunks [pre]:
    [handler] is what the handler of the settling event did. *)
Definition failure_log (root : string) (others : list string)
  (config : Configuration) (handler : list effect) (message : string)
  (pre : list proc_event) : list effect :=
  let errorMessage :=
    message ++ paragraph (captured_stdout pre)
    ++ paragraph (captured_stderr pre) in
  (several_folders_warning others
   ++ [Spawn (forester_path config)
         (["query"; "all"] ++ configfile_args config) root;
       SetTimeout 30000]
   ++ handler
   ++ [ClearTimeout; ConsoleLog errorMessage;
       ShowErrorMessage ("Forester query failed: " ++ errorMessage)])%list.

(* ================================================================== *)
(** * The words of the specification *)
(* ================================================================== *)

Fixpoint has_char (c : ascii) (s : string) : bool :=
  match s with
  | EmptyString => false
  | String a s' => Ascii.eqb a c || has_char c s'
  end.

(** The four command names of the first trigger syntax. *)
Definition command_names : list string :=
  ["\transclude"; "\import"; "\export"; "\ref"].

(** A trigger syntax opens at the start of [s] and is still open at its
    end: a command name, a brace and no closing brace; a bracketed link
    text without an inner opening bracket, a parenthesis and no closing
    parenthesis; or two opening brackets and no closing bracket. *)
Definition command_trigger (s : string) : Prop :=
  exists cmd partial,
    In cmd command_names /\ s = cmd ++ "{" ++ partial
    /\ has_char "}" partial = false.

Definition markdown_trigger (s : string) : Prop :=
  exists linktext partial,
    s = "[" ++ linktext ++ "](" ++ partial
    /\ has_char "[" linktext = false /\ has_char ")" partial = false.

Definition wiki_trigger (s : string) : Prop :=
  exists partial, s = "[[" ++ partial /\ has_char "]" partial = false.

Definition trigger_here (s : string) : Prop :=
  command_trigger s \/ markdown_trigger s \/ wiki_trigger s.

(** No trigger syntax opens in [text] before the offset [n]. *)
Definition no_trigger_before (n : nat) (text : string) : Prop :=
  forall before after,
    text = before ++ after -> String.length before < n -> ~ trigger_here after.

(** No trigger syntax is open at the end of [text]. *)
Definition no_trigger (text : string) : Prop :=
  forall before after, text = before ++ after -> ~ trigger_here after.

(** The starts before [n] where the pattern matches nothing, by running
    it: a check for [no_trigger_before]. *)
Fixpoint no_match_before (n i : nat) (s : string) : bool :=
  match n with
  | 0 => true
  | S n' =>
      match m tagPattern (MState i s (repeat None (S tagPattern_groups))) Some with
      | Some _ => false
      | None =>
          match s with
          | String _ s' => no_match_before n' (S i) s'
          | EmptyString => true
          end
      end
  end.

(** The filter text as the specification words it: the identifier, the
    title if present and the taxon if present, separated by spaces. *)
Definition present (x : option string) : list string :=
  match x with
  | Some s => [s]
  | None => []
  end.

Definition spec_filterText (entry : ForesterTree) : string :=
  String.concat " " (uri entry :: present (title entry) ++ present (taxon entry))%list.

(** [t] occurs in [s]. *)
Definition occurs_in (t s : string) : Prop :=
  exists before after, s = before ++ t ++ after.

(** A response of the keyed format that is valid: each value is an entry
    without its [uri], as the type of the code declares it
    ([Omit<ForesterTree, 'uri'>]). *)
Definition valid_keyed_response (props : list (string * js_value)) : Prop :=
  Forall (fun kv => get_prop "uri" (own_props (snd kv)) = None) props.


(** An output as a message carries it: nothing when it is empty, else a
    blank line and the output. *)
Definition appended (x : string) : string :=
  match x with
  | EmptyString => ""
  | String _ _ => newline ++ newline ++ x
  end.

(** The white space that trimming removes, among the 8-bit code units:
    tab, line feed, vertical tab, form feed, carriage return, space and
    no-break space. *)
Definition white_space : list ascii :=
  ["009"; "010"; "011"; "012"; "013"; " "; "160"]%char.

Definition blank (s : string) : Prop :=
  Forall (fun c => In c white_space) (list_ascii_of_string s).

Definition first_char (s : string) : option ascii :=
  match s with
  | String c _ => Some c
  | EmptyString => None
  end.

Fixpoint last_char (s : string) : option ascii :=
  match s with
  | EmptyString => None
  | String c s' =>
      match s' with
      | EmptyString => Some c
      | String _ _ => last_char s'
      end
  end.

(** [p] is [s] without the white space at its two ends. *)
Definition trimmed_of (s p : string) : Prop :=
  exists l r,
    s = l ++ p ++ r /\ blank l /\ blank r
    /\ (forall c, first_char p = Some c -> ~ In c white_space)
    /\ (forall c, last_char p = Some c -> ~ In c white_space).

(** The events that end the wait of [execFile]. *)
Definition is_exit (ev : proc_event) : bool :=
  match ev with
  | ErrorEvent _ | CloseEvent _ _ => true
  | _ => false
  end.

(** Neither output, taken whole, is longer than [maxBuffer] allows. *)
Definition within_maxBuffer (events : list proc_event) : bool :=
  ((byteLength (captured_stdout events) <=? MAX_BUFFER)
   && (byteLength (captured_stderr events) <=? MAX_BUFFER))%N.

(** [s], doubled [n] times. *)
Fixpoint doubled (n : nat) (s : string) : string :=
  match n with
  | 0 => s
  | S n' => doubled n' (s ++ s)
  end.

(* ================================================================== *)
(** * Sample data *)
(* ================================================================== *)

Definition dq : string := String "034"%char "".

Definition sample_range : Range :=
  {| range_start := {| line := 0; character := 9 |};
     range_end := {| line := 0; character := 11 |} |}.

(** An entry with a title and no taxon. *)
Definition sample_entry : ForesterTree :=
  {| title := Some "Hello"; taxon := None; tags := []; route := "abc.xml";
     metas := []; sourcePath := "trees/abc.tree"; uri := "abc" |}.

Definition sample_config : Configuration :=
  {| cfg_path := None; cfg_config := None;
     cfg_completion_showID := None; cfg_create_random := None |}.

(** A response in the keyed format: an object with the key a, whose value
    has a null title, and the key b, whose value is the empty object. *)
Definition sample_object_response : string :=
  "{" ++ dq ++ "a" ++ dq ++ ":{" ++ dq ++ "title" ++ dq ++ ":null},"
  ++ dq ++ "b" ++ dq ++ ":{}}".

(** A response in the keyed format whose only value has a property uri
    of its own: the key is a, the uri of the value is b. *)
Definition uri_in_value_response : string :=
  "{" ++ dq ++ "a" ++ dq ++ ":{" ++ dq ++ "uri" ++ dq ++ ":" ++ dq ++ "b"
  ++ dq ++ "}}".

(** The log of [command] up to the [await]. *)
Definition exec_log (root : string) (others : list string)
  (config : Configuration) (cmd : list string) : list effect :=
  (several_folders_warning others
   ++ [ConsoleLogArray cmd;
       ExecFile (forester_path config) (command_args config cmd) root])%list.

(** The log of [queryForest] up to the [await]. *)
Definition spawn_log (root : string) (others : list string)
  (config : Configuration) : list effect :=
  (several_folders_warning others
   ++ [Spawn (forester_path config)
         (["query"; "all"] ++ configfile_args config) root;
       SetTimeout 30000])%list.

(* ================================================================== *)
(** * Sessions: calls that read files and ask the user *)
(* ================================================================== *)

(** The settings of the section [forester] that the functions of utils.ts
    and the commands read and write, beside those of [Configuration]. *)
Record Settings : Type := {
  settings : Configuration;
  defaultPrefix : option string;
  defaultTemplate : option string
}.

(** [ForestConfig] of utils.ts, as far as the code reads it; [None] is a
    key that is not in the file. *)
Record ForestSection : Type := {
  toml_trees : option (list string);
  toml_assets : option (list string);
  toml_prefixes : option (list string);
  toml_url : option string;
  toml_home : option string
}.

Record ForestConfig : Type := { toml_forest : option ForestSection }.

(** [vscode.FileType]: a number; [FileType.File] is 1. *)
Definition FileType_File : N := 1%N.

Record QuickPickOptions : Type := {
  qp_placeHolder : string;
  qp_title : option string
}.

Record InputBoxOptions : Type := {
  ib_prompt : option string;
  ib_placeHolder : option string;
  ib_title : option string;
  ib_value : option string;
  ib_validateInput : option (string -> option string)
}.

(** What is around the extension during one call: the workspace folders;
    the file system, as [readFile] followed by [load] in a folder (an error
    text when either throws) and as [readDirectory] of a folder of the
    root ([None] when it throws); the user, as the answers to a quick pick
    and to an input box ([None]: dismissed); whether a setting can be
    written ([config.update] of a key and a value: [None], or the text of
    the exception); and what the host makes of the child process that
    [command] starts. *)
Record World : Type := {
  folders : list string;
  readToml : string -> string -> string + option ForestConfig;
  readDirectory : string -> string -> option (list (string * N));
  showQuickPick : QuickPickOptions -> list string -> option string;
  showInputBox : InputBoxOptions -> option string;
  updateSetting : string -> string -> option string;
  child : spawned
}.

(** What a call does: the effects of server.ts, and those of utils.ts and
    of the commands. *)
Inductive interaction : Type :=
| Did (e : effect)
| ConsoleError (text error : string)
| ReadToml (dir file : string)
| ReadDirectory (dir sub : string)
| AskQuickPick (items : list string) (options : QuickPickOptions)
| AskInputBox (options : InputBoxOptions)
| UpdateSetting (key value : string)
| ShowInformationMessage (text : string).

Record session (A : Type) : Type := Session {
  ended : completion A;
  trace : list interaction
}.
Arguments Session {A} ended trace.
Arguments ended {A} s.
Arguments trace {A} s.

Definition ret {A : Type} (a : A) : session A := Session (Returned a) [].

Definition throw {A : Type} (error : string) : session A :=
  Session (Threw error) [].

(** [await]: what follows runs when the call returns; an exception goes
    on to the caller. *)
Definition bind {A B : Type} (x : session A) (f : A -> session B)
  : session B :=
  match ended x with
  | Returned a => Session (ended (f a)) (trace x ++ trace (f a))
  | Threw e => Session (Threw e) (trace x)
  | Pending => Session Pending (trace x)
  end.

(** [try { x } catch (error) { handler }] *)
Definition try_catch {A : Type} (x : session A) (handler : string -> session A)
  : session A :=
  match ended x with
  | Threw e => Session (ended (handler e)) (trace x ++ trace (handler e))
  | _ => x
  end.

Definition emit (i : interaction) : session unit := Session (Returned tt) [i].

(** A call of server.ts or of [getRoot] inside a session. *)
Definition lift {A : Type} (r : run A) : session A :=
  Session (outcome r) (map Did (log r)).

Declare Scope session_scope.
Delimit Scope session_scope with session.
Notation "x <- c1 ;; c2" := (bind c1 (fun x => c2))
  (at level 61, c1 at next level, right associativity) : session_scope.
Notation "c1 ;; c2" := (bind c1 (fun _ => c2))
  (at level 61, right associativity) : session_scope.

(* ================================================================== *)
(** * utils.ts: the configuration file, the templates, the prefix *)
(* ================================================================== *)

(** [x || d] on strings. *)
Definition orDefault (x : option string) (d : string) : string :=
  match x with
  | Some s => if truthy s then s else d
  | None => d
  end.

(** [getForestConfig] *)
Definition getForestConfig (w : World) (s : Settings)
  : session (option ForestConfig) :=
  (root <- lift (getRoot (folders w)) ;;
   let configFile := orDefault (cfg_config (settings s)) "forest.toml" in
   emit (ReadToml root configFile) ;;
   match readToml w root configFile with
   | inl error => throw error
   | inr config => ret config
   end)%session.

(** [config?.forest?.trees] *)
Definition config_trees (config : option ForestConfig) : option (list string) :=
  match config with
  | Some c =>
      match toml_forest c with
      | Some f => toml_trees f
      | None => None
      end
  | None => None
  end.

(** [configToml?.forest?.prefixes] *)
Definition config_prefixes (config : option ForestConfig)
  : option (list string) :=
  match config with
  | Some c =>
      match toml_forest c with
      | Some f => toml_prefixes f
      | None => None
      end
  | None => None
  end.

(** [getTreesDirectories]: an array is truthy, the empty one too. *)
Definition getTreesDirectories (w : World) (s : Settings)
  : session (list string) :=
  try_catch
    (config <- getForestConfig w s ;;
     ret (orElse (config_trees config) ["trees"]))%session
    (fun error =>
       (emit (ConsoleError
                "Failed to read forest.toml, defaulting to 'trees' directory:"
                error) ;;
        ret ["trees"])%session).

(** The arguments of a call of [Uri.joinPath]; [None] is undefined. *)
Record joinPath_call : Type := {
  jp_base : string;
  jp_fragment : option string
}.

(** [getRootTreeDirectory], up to the call of [Uri.joinPath(root, dirs[0])],
    which it returns. *)
Definition getRootTreeDirectory (w : World) (s : Settings)
  : session joinPath_call :=
  (root <- lift (getRoot (folders w)) ;;
   dirs <- getTreesDirectories w s ;;
   ret {| jp_base := root; jp_fragment := nth_error dirs 0 |})%session.

(** [n.endsWith(suffix)] *)
Definition endsWith (suffix n : string) : bool :=
  (String.length suffix <=? String.length n)%nat
  && String.eqb (substring (String.length n - String.length suffix)
                           (String.length suffix) n) suffix.

(** [n.slice(0, -k)] *)
Definition slice_off (k : nat) (n : string) : string :=
  substring 0 (String.length n - k) n.

Definition no_template : string := "(No template)".

(** [getAvailableTemplates] *)
Definition getAvailableTemplates (w : World) : session (list string) :=
  (root <- lift (getRoot (folders w)) ;;
   emit (ReadDirectory root "templates") ;;
   let templates :=
     match readDirectory w root "templates" with
     | Some templateFiles =>
         map (fun nf => slice_off 5 (fst nf))
             (filter (fun nf => N.eqb (snd nf) FileType_File
                                && endsWith ".tree" (fst nf))
                     templateFiles)
     | None => []
     end in
   ret (templates ++ [no_template])%list)%session.

Definition template_pick : QuickPickOptions :=
  {| qp_placeHolder := "Choose a template or Escape to cancel";
     qp_title := Some "Choose template" |}.

(** [getTemplate] *)
Definition getTemplate (w : World) (s : Settings) : session (option string) :=
  let prompt :=
    (templates <- getAvailableTemplates w ;;
     emit (AskQuickPick templates template_pick) ;;
     match showQuickPick w template_pick templates with
     | None => ret None
     | Some template =>
         if String.eqb template no_template then ret None
         else ret (Some template)
     end)%session in
  match defaultTemplate s with
  | Some d =>
      if truthy d
      then ret (if String.eqb d no_template then None else Some d)
      else prompt
  | None => prompt
  end.

Definition same_prefix_hint : string :=
  "(run the " ++ dq ++ "set default prefix" ++ dq
  ++ " command if you always use the same prefix)".

Definition prefix_pick : QuickPickOptions :=
  {| qp_placeHolder := "Choose prefix or Escape to use a new one "
                       ++ same_prefix_hint;
     qp_title := Some "Choose prefix" |}.

Definition prefix_input : InputBoxOptions :=
  {| ib_prompt := None;
     ib_placeHolder := Some ("Enter a prefix or Escape to cancel "
                             ++ same_prefix_hint);
     ib_title := Some "Enter prefix";
     ib_value := None;
     ib_validateInput := None |}.

(** [!prefix]: undefined or the empty string. *)
Definition falsy (x : option string) : bool :=
  match x with
  | Some s => negb (truthy s)
  | None => true
  end.

(** [getPrefix] *)
Definition getPrefix (w : World) (s : Settings) : session (option string) :=
  let lookup :=
    (configToml <- getForestConfig w s ;;
     picked <- match config_prefixes configToml with
               | Some prefixes =>
                   (emit (AskQuickPick prefixes prefix_pick) ;;
                    ret (showQuickPick w prefix_pick prefixes))
               | None => ret None
               end ;;
     if falsy picked
     then (emit (AskInputBox prefix_input) ;;
           ret (showInputBox w prefix_input))
     else ret picked)%session in
  match defaultPrefix s with
  | Some d => if truthy d then ret (Some d) else lookup
  | None => lookup
  end.

(* ================================================================== *)
(** * extension.ts: the three commands *)
(* ================================================================== *)

(** The handler of [forester.new]; [folder] is [None] when the command is
    run without a folder. *)
Definition forester_new_command (w : World) (s : Settings)
  (folder : option string) : session unit :=
  match folder with
  | None => ret tt
  | Some folder =>
      (prefix <- getPrefix w s ;;
       match prefix with
       | None => ret tt
       | Some prefix =>
           template <- getTemplate w s ;;
           lift (forester_new (folders w) (settings s) (child w)
                              folder prefix template)
       end)%session
  end.

(** The characters of the class of [validateInput]: letters, digits and
    the hyphen. *)
Definition is_prefix_char (c : ascii) : bool :=
  let n := nat_of_ascii c in
  ((97 <=? n)%nat && (n <=? 122)%nat)
  || ((65 <=? n)%nat && (n <=? 90)%nat)
  || ((48 <=? n)%nat && (n <=? 57)%nat)
  || (n =? 45)%nat.

Fixpoint all_prefix_chars (s : string) : bool :=
  match s with
  | EmptyString => true
  | String c s' => is_prefix_char c && all_prefix_chars s'
  end.

(** [validateInput] of [forester.setDefaultPrefix]: the test of the
    pattern, one or more characters of the class from the start to the end
    of the value, on a value that is not empty. *)
Definition validatePrefix (value : string) : option string :=
  if negb (truthy value) then Some "Prefix cannot be empty"
  else if negb (all_prefix_chars value)
       then Some "Prefix should only contain letters, numbers, and hyphens"
       else None.

Definition default_prefix_input (currentPrefix : string) : InputBoxOptions :=
  {| ib_prompt := Some "Enter the default prefix for new trees";
     ib_placeHolder := Some "e.g., jms, ssl, djm";
     ib_title := None;
     ib_value := Some currentPrefix;
     ib_validateInput := Some validatePrefix |}.

(** The handler of [forester.setDefaultPrefix]: the settings after it.
    The information message comes after the update, when that succeeds. *)
Definition setDefaultPrefix (w : World) (s : Settings) : session Settings :=
  let options := default_prefix_input (orDefault (defaultPrefix s) "") in
  (emit (AskInputBox options) ;;
   match showInputBox w options with
   | Some newPrefix =>
       if truthy newPrefix
       then (emit (UpdateSetting "defaultPrefix" newPrefix) ;;
             match updateSetting w "defaultPrefix" newPrefix with
             | Some error => throw error
             | None =>
                 emit (ShowInformationMessage
                         ("Default prefix set to: " ++ newPrefix)) ;;
                 ret {| settings := settings s;
                        defaultPrefix := Some newPrefix;
                        defaultTemplate := defaultTemplate s |}
             end)
       else ret s
   | None => ret s
   end)%session.

Definition default_template_pick : QuickPickOptions :=
  {| qp_placeHolder := "Choose default template for new trees";
     qp_title := None |}.

(** The handler of [forester.setDefaultTemplate]. *)
Definition setDefaultTemplate (w : World) (s : Settings) : session Settings :=
  (templates <- getAvailableTemplates w ;;
   emit (AskQuickPick templates default_template_pick) ;;
   match showQuickPick w default_template_pick templates with
   | Some newTemplate =>
       emit (UpdateSetting "defaultTemplate" newTemplate) ;;
       match updateSetting w "defaultTemplate" newTemplate with
       | Some error => throw error
       | None =>
           emit (ShowInformationMessage
                   ("Default template set to: " ++ newTemplate)) ;;
           ret {| settings := settings s;
                  defaultPrefix := defaultPrefix s;
                  defaultTemplate := Some newTemplate |}
       end
   | None => ret s
   end)%session.

(** The interactions that start the forester executable. *)
Definition runs_forester (i : interaction) : bool :=
  match i with
  | Did (ExecFile _ _ _) | Did (Spawn _ _ _) => true
  | _ => false
  end.

(* ================================================================== *)
(** * A sample world *)
(* ================================================================== *)

(** One workspace folder; a forest.toml with two tree directories and two
    prefixes; a folder of templates with one template, one file that is not
    a template and one directory; a user who takes the first item of every
    quick pick and types jms; a child that prints the path of a new
    tree. *)
Definition sample_toml : ForestConfig :=
  {| toml_forest :=
       Some {| toml_trees := Some ["trees"; "notes"];
               toml_assets := None;
               toml_prefixes := Some ["jms"; "ssl"];
               toml_url := None;
               toml_home := None |} |}.

Definition sample_world : World :=
  {| folders := ["/forest"];
     readToml := fun dir file =>
       if String.eqb file "forest.toml" then inr (Some sample_toml)
       else inl "ENOENT: no such file or directory";
     readDirectory := fun dir sub =>
       if String.eqb sub "templates"
       then Some [("basic.tree", 1%N); ("notes.md", 1%N); ("old.tree", 2%N)]
       else None;
     showQuickPick := fun options items => hd_error items;
     showInputBox := fun options => Some "jms";
     updateSetting := fun key value => None;
     child := Child [StdoutData ("/forest/trees/jms-0001.tree" ++ newline);
                     CloseEvent (Some 0%Z) None] |}.

Definition sample_settings : Settings :=
  {| settings := sample_config;
     defaultPrefix := None;
     defaultTemplate := None |}.

(** The settings with both defaults set. *)
Definition settled_settings : Settings :=
  {| settings := sample_config;
     defaultPrefix := Some "jms";
     defaultTemplate := Some "basic" |}.

(* ================================================================== *)
(** * Strings *)
(* ================================================================== *)

Lemma append_length (s t : string) :
  String.length (s ++ t) = String.length s + String.length t.
Proof. induction s as [|c s IH]; simpl; [reflexivity | now rewrite IH]. Qed.

Lemma append_assoc (s t u : string) : (s ++ t) ++ u = s ++ t ++ u.
Proof. induction s as [|c s IH]; simpl; [reflexivity | now rewrite IH]. Qed.

Lemma append_empty_r (s : string) : s ++ "" = s.
Proof. induction s as [|c s IH]; simpl; [reflexivity | now rewrite IH]. Qed.

Lemma paragraph_appended (x : string) : paragraph x = appended x.
Proof. now destruct x. Qed.

(* ================================================================== *)
(** * The completion synthesizer *)
(* ================================================================== *)

Lemma fold_push_map {A B : Type} (f : A -> B) (l : list A) (acc : list B) :
  fold_left (fun results a => (results ++ [f a])%list) l acc
  = (acc ++ map f l)%list.
Proof.
  revert acc; induction l as [|a l IH]; intros acc; simpl.
  - now rewrite app_nil_r.
  - rewrite IH, <- app_assoc. reflexivity.
Qed.

Lemma suggest_map (config : Configuration) (trees : Forest) (range : Range) :
  suggest config trees range
  = map (suggestion (orElse (cfg_completion_showID config) false) range) trees.
Proof. unfold suggest. now rewrite fold_push_map. Qed.

(** C7: [suggest] gives one candidate per entry, in the order of the
    entries; the insertion text of each candidate is the identifier of its
    entry and the range of each is the range that was supplied. *)
Theorem suggest_one_candidate_per_entry :
  forall (config : Configuration) (trees : Forest) (range : Range),
    List.length (suggest config trees range) = List.length trees
    /\ map insertText (suggest config trees range) = map uri trees
    /\ map item_range (suggest config trees range)
       = repeat range (List.length trees)
    /\ forall i : nat,
         nth_error (suggest config trees range) i
         = option_map
             (suggestion (orElse (cfg_completion_showID config) false) range)
             (nth_error trees i).
Proof.
  intros config trees range. rewrite suggest_map.
  repeat split.
  - apply length_map.
  - rewrite map_map. reflexivity.
  - rewrite map_map. simpl. induction trees as [|e l IH]; simpl; congruence.
  - intro i. apply nth_error_map.
Qed.

(** C8, as the code has it: the filter text is the identifier, a space,
    the title or nothing, a space, the taxon or nothing.  Both spaces are
    always there, so its length is that of the three parts plus two. *)
Theorem filterText_keeps_both_separators :
  forall (config : Configuration) (trees : Forest) (range : Range),
    map filterText (suggest config trees range)
    = map (fun entry => uri entry ++ " " ++ orElse (title entry) "" ++ " "
                        ++ orElse (taxon entry) "") trees
    /\ map (fun c => String.length (filterText c)) (suggest config trees range)
       = map (fun entry => String.length (uri entry)
                           + String.length (orElse (title entry) "")
                           + String.length (orElse (taxon entry) "") + 2) trees.
Proof.
  intros config trees range. rewrite suggest_map, !map_map. split.
  - reflexivity.
  - apply map_ext. intro e. simpl.
    rewrite !append_length. simpl. rewrite append_length. simpl. lia.
Qed.

(** C8, as it is stated, fails for an entry without a taxon: the code
    leaves the separator of the absent field in the filter text. *)
Lemma filterText_absent_field_leaves_separator :
  map filterText (suggest sample_config [sample_entry] sample_range)
  = ["abc Hello "]
  /\ spec_filterText sample_entry = "abc Hello"
  /\ map filterText (suggest sample_config [sample_entry] sample_range)
     <> map spec_filterText [sample_entry].
Proof.
  split; [reflexivity|]. split; [reflexivity|].
  vm_compute. discriminate.
Qed.

(* ================================================================== *)
(** * The matcher on the pattern of the provider *)
(* ================================================================== *)

Lemma strip_append (l s : string) : strip l (l ++ s) = Some s.
Proof.
  induction l as [|a l IH]; simpl; [reflexivity|].
  now rewrite Ascii.eqb_refl.
Qed.

Lemma strip_Some (l s s' : string) : strip l s = Some s' -> s = l ++ s'.
Proof.
  revert s; induction l as [|a l IH]; intros s H; simpl in *.
  - congruence.
  - destruct s as [|b s]; [discriminate|].
    destruct (Ascii.eqb_spec a b) as [->|]; [|discriminate].
    now rewrite (IH _ H).
Qed.

(** The star of a negated class, one character at a time: it takes the
    character when it may and comes back to the continuation when what
    follows fails. *)
Lemma star_notchr_cons (c a : ascii) (i : nat) (s : string) (cs : captures)
  (k : mstate -> option mstate) :
  m (Star (NotChr c)) (MState i (String a s) cs) k
  = if Ascii.eqb a c then k (MState i (String a s) cs)
    else match m (Star (NotChr c)) (MState (S i) s cs) k with
         | Some z => Some z
         | None => k (MState i (String a s) cs)
         end.
Proof.
  cbn [m String.length rest endIndex caps].
  destruct (Ascii.eqb a c); [reflexivity|].
  rewrite (proj2 (Nat.eqb_neq (S i) i)) by lia.
  reflexivity.
Qed.

Lemma star_notchr_empty (c : ascii) (i : nat) (cs : captures)
  (k : mstate -> option mstate) :
  m (Star (NotChr c)) (MState i "" cs) k = k (MState i "" cs).
Proof. reflexivity. Qed.

(** A star that has to reach the end of the input does so exactly when
    the excluded character does not occur. *)
Lemma star_to_end (c : ascii) (k : mstate -> option mstate) :
  forall (s : string) (j : nat) (cs : captures),
    m (Star (NotChr c)) (MState j s cs)
      (fun y => match rest y with
                | EmptyString => k y
                | String _ _ => None
                end)
    = if has_char c s then None
      else k (MState (j + String.length s) "" cs).
Proof.
  induction s as [|a s IH]; intros j cs.
  - rewrite star_notchr_empty. simpl. now rewrite Nat.add_0_r.
  - rewrite star_notchr_cons. cbn [rest has_char].
    destruct (Ascii.eqb a c); cbn [orb]; [reflexivity|].
    rewrite IH. destruct (has_char c s); [reflexivity|].
    replace (S j + String.length s) with (j + S (String.length s)) by lia.
    now destruct (k _).
Qed.

(** A group around such a star, up to the end of the input. *)
Lemma group_to_end (n : nat) (c : ascii) (i : nat) (s : string)
  (cs : captures) (k : mstate -> option mstate) :
  m (Cat (Grp n (Star (NotChr c))) Eoi) (MState i s cs) k
  = if has_char c s then None
    else k (MState (i + String.length s) ""
                   (set_cap n (i, i + String.length s) cs)).
Proof.
  change (m (Cat (Grp n (Star (NotChr c))) Eoi) (MState i s cs) k)
    with (m (Star (NotChr c)) (MState i s cs)
            (fun y => match rest y with
                      | EmptyString =>
                          (fun y' => k (MState (endIndex y') (rest y')
                                          (set_cap n (i, endIndex y') (caps y')))) y
                      | String _ _ => None
                      end)).
  now rewrite star_to_end.
Qed.

(** A literal, then a group that runs to the end of the input. *)
Lemma lit_group_to_end (l : string) (n : nat) (c : ascii) (i : nat)
  (s : string) (cs : captures) (k : mstate -> option mstate) :
  m (Cat (Lit l) (Cat (Grp n (Star (NotChr c))) Eoi)) (MState i s cs) k
  = match strip l s with
    | Some p =>
        if has_char c p then None
        else k (MState (i + String.length l + String.length p) ""
                  (set_cap n (i + String.length l,
                              i + String.length l + String.length p) cs))
    | None => None
    end.
Proof.
  change (m (Cat (Lit l) (Cat (Grp n (Star (NotChr c))) Eoi)) (MState i s cs) k)
    with (match strip l s with
          | Some p => m (Cat (Grp n (Star (NotChr c))) Eoi)
                        (MState (i + String.length l) p cs) k
          | None => None
          end).
  destruct (strip l s) as [p|]; [|reflexivity].
  apply group_to_end.
Qed.

(** The first alternative tries the four command names in turn. *)
Lemma command_alternative_unfold (x : mstate) (k : mstate -> option mstate) :
  m command_alternative x k
  = let tail := Cat (Grp 1 (Star (NotChr "}"))) Eoi in
    match m (Cat (Lit "\transclude{") tail) x k with
    | Some z => Some z
    | None =>
        match m (Cat (Lit "\import{") tail) x k with
        | Some z => Some z
        | None =>
            match m (Cat (Lit "\export{") tail) x k with
            | Some z => Some z
            | None => m (Cat (Lit "\ref{") tail) x k
            end
        end
    end.
Proof. reflexivity. Qed.

Lemma command_alternative_sound (i : nat) (s : string) (cs : captures)
  (k : mstate -> option mstate) (z : mstate) :
  m command_alternative (MState i s cs) k = Some z ->
  exists cmd p,
    In cmd command_names /\ s = cmd ++ "{" ++ p /\ has_char "}" p = false
    /\ k (MState (i + String.length s) ""
            (set_cap 1 (i + String.length cmd + 1, i + String.length s) cs))
       = Some z.
Proof.
  rewrite command_alternative_unfold. cbv zeta.
  rewrite !lit_group_to_end.
  assert (step : forall l cmd,
             l = cmd ++ "{" -> In cmd command_names ->
             match strip l s with
             | Some p =>
                 if has_char "}" p then None
                 else k (MState (i + String.length l + String.length p) ""
                           (set_cap 1 (i + String.length l,
                                       i + String.length l + String.length p) cs))
             | None => None
             end = Some z ->
             exists cmd p,
               In cmd command_names /\ s = cmd ++ "{" ++ p
               /\ has_char "}" p = false
               /\ k (MState (i + String.length s) ""
                       (set_cap 1 (i + String.length cmd + 1,
                                   i + String.length s) cs)) = Some z).
  { intros l cmd -> Hin H.
    destruct (strip (cmd ++ "{") s) as [p|] eqn:E; [|discriminate].
    apply strip_Some in E. rewrite append_assoc in E.
    destruct (has_char "}" p) eqn:Hp; [discriminate|].
    exists cmd, p. repeat split; trivial.
    assert (E1 : i + String.length s
                 = i + String.length (cmd ++ "{") + String.length p)
      by (subst s; rewrite !append_length; simpl; lia).
    assert (E2 : i + String.length cmd + 1 = i + String.length (cmd ++ "{"))
      by (rewrite append_length; simpl; lia).
    rewrite E1, E2. exact H. }
  intros H.
  destruct (match strip "\transclude{" s with Some _ => _ | None => _ end) eqn:E1.
  { injection H as <-. apply (step _ "\transclude" eq_refl); simpl; auto. }
  destruct (match strip "\import{" s with Some _ => _ | None => _ end) eqn:E2.
  { injection H as <-. apply (step _ "\import" eq_refl); simpl; auto. }
  destruct (match strip "\export{" s with Some _ => _ | None => _ end) eqn:E3.
  { injection H as <-. apply (step _ "\export" eq_refl); simpl; auto. }
  apply (step _ "\ref" eq_refl); simpl; auto.
Qed.

Lemma command_hit (cmd : string) (n : nat) (c : ascii) (i : nat) (p : string)
  (cs : captures) (k : mstate -> option mstate) :
  has_char c p = false ->
  m (Cat (Lit (cmd ++ "{")) (Cat (Grp n (Star (NotChr c))) Eoi))
    (MState i (cmd ++ "{" ++ p) cs) k
  = k (MState (i + String.length (cmd ++ "{" ++ p)) ""
         (set_cap n (i + String.length cmd + 1,
                     i + String.length (cmd ++ "{" ++ p)) cs)).
Proof.
  intros Hp. rewrite lit_group_to_end, <- append_assoc, strip_append, Hp.
  assert (E1 : i + String.length (cmd ++ "{") + String.length p
               = i + String.length ((cmd ++ "{") ++ p))
    by (rewrite !append_length; lia).
  assert (E2 : i + String.length (cmd ++ "{") = i + String.length cmd + 1)
    by (rewrite append_length; simpl; lia).
  now rewrite E1, E2.
Qed.

Ltac miss l :=
  rewrite (lit_group_to_end l);
  match goal with
  | |- context [strip l ?s] =>
      replace (strip l s) with (@None string) by reflexivity
  end.

(** On a command name, a brace and text without a closing brace, the first
    alternative matches up to the end and captures that text. *)
Lemma command_alternative_complete (i : nat) (cmd p : string)
  (cs : captures) (k : mstate -> option mstate) :
  In cmd command_names -> has_char "}" p = false ->
  m command_alternative (MState i (cmd ++ "{" ++ p) cs) k
  = k (MState (i + String.length (cmd ++ "{" ++ p)) ""
         (set_cap 1 (i + String.length cmd + 1,
                     i + String.length (cmd ++ "{" ++ p)) cs)).
Proof.
  intros Hin Hp.
  rewrite command_alternative_unfold. cbv zeta.
  destruct Hin as [<-|[<-|[<-|[<-|[]]]]].
  - change (Lit "\transclude{") with (Lit ("\transclude" ++ "{")).
    rewrite command_hit by assumption.
    miss "\import{". miss "\export{". miss "\ref{".
    now destruct (k _).
  - miss "\transclude{".
    change (Lit "\import{") with (Lit ("\import" ++ "{")).
    rewrite command_hit by assumption.
    miss "\export{". miss "\ref{".
    now destruct (k _).
  - miss "\transclude{". miss "\import{".
    change (Lit "\export{") with (Lit ("\export" ++ "{")).
    rewrite command_hit by assumption.
    miss "\ref{".
    now destruct (k _).
  - miss "\transclude{". miss "\import{". miss "\export{".
    change (Lit "\ref{") with (Lit ("\ref" ++ "{")).
    now rewrite command_hit by assumption.
Qed.

(** The second alternative, after its opening bracket: the star over the
    link text gives back characters until a closing bracket and an opening
    parenthesis follow and no closing parenthesis comes after them. *)
Lemma link_text_sound (k : mstate -> option mstate) :
  forall (s : string) (j : nat) (cs : captures) (z : mstate),
    m (Star (NotChr "["))  (MState j s cs)
      (fun y => m (Cat (Lit "](") (Cat (Grp 2 (Star (NotChr ")"))) Eoi)) y k)
    = Some z ->
    exists a b,
      s = a ++ "](" ++ b /\ has_char "[" a = false /\ has_char ")" b = false.
Proof.
  induction s as [|x s IH]; intros j cs z H.
  - rewrite star_notchr_empty, lit_group_to_end in H. discriminate.
  - rewrite star_notchr_cons in H.
    destruct (Ascii.eqb x "[") eqn:Ex.
    + rewrite lit_group_to_end in H. simpl in H.
      apply Ascii.eqb_eq in Ex. subst x. discriminate.
    + destruct (m (Star (NotChr "[")) (MState (S j) s cs) _) eqn:E.
      * destruct (IH _ _ _ E) as (a & b & -> & Ha & Hb).
        exists (String x a), b. simpl. rewrite Ex, Ha. auto.
      * rewrite lit_group_to_end in H.
        destruct (strip "](" (String x s)) as [b|] eqn:Es; [|discriminate].
        destruct (has_char ")" b) eqn:Hb; [discriminate|].
        apply strip_Some in Es. exists "", b. auto.
Qed.

Lemma link_text_complete :
  forall (a b : string) (j : nat) (cs : captures),
    has_char "[" a = false -> has_char ")" b = false ->
    m (Star (NotChr "[")) (MState j (a ++ "](" ++ b) cs)
      (fun y => m (Cat (Lit "](") (Cat (Grp 2 (Star (NotChr ")"))) Eoi)) y Some)
    <> None.
Proof.
  induction a as [|x a IH]; intros b j cs Ha Hb.
  - change ("" ++ "](" ++ b) with (String "]" (String "(" b)).
    rewrite star_notchr_cons.
    replace (Ascii.eqb "]" "[") with false by reflexivity.
    destruct (m (Star (NotChr "[")) _ _); [discriminate|].
    rewrite lit_group_to_end.
    change (strip "](" (String "]" (String "(" b))) with (Some b).
    cbv iota. rewrite Hb. discriminate.
  - simpl in Ha. apply orb_false_iff in Ha as [Hx Ha].
    change (String x a ++ "](" ++ b) with (String x (a ++ "](" ++ b)).
    rewrite star_notchr_cons, Hx.
    specialize (IH b (S j) cs Ha Hb).
    destruct (m (Star (NotChr "[")) _ _); [discriminate|contradiction].
Qed.

Lemma markdown_alternative_unfold (i : nat) (s : string) (cs : captures)
  (k : mstate -> option mstate) :
  m markdown_alternative (MState i s cs) k
  = match strip "[" s with
    | Some s1 =>
        m (Star (NotChr "[")) (MState (i + 1) s1 cs)
          (fun y => m (Cat (Lit "](") (Cat (Grp 2 (Star (NotChr ")"))) Eoi)) y k)
    | None => None
    end.
Proof. reflexivity. Qed.

(** Whatever the pattern matches from a position is one of the three
    trigger syntaxes, open from that position to the end of the input. *)
Lemma tagPattern_sound (i : nat) (s : string) (cs : captures) (z : mstate) :
  m tagPattern (MState i s cs) Some = Some z -> trigger_here s.
Proof.
  change (m tagPattern (MState i s cs) Some)
    with (match m command_alternative (MState i s cs) Some with
          | Some z => Some z
          | None =>
              match m markdown_alternative (MState i s cs) Some with
              | Some z => Some z
              | None => m wiki_alternative (MState i s cs) Some
              end
          end).
  destruct (m command_alternative _ _) eqn:E1.
  { intros _. left.
    destruct (command_alternative_sound _ _ _ _ _ E1) as (cmd & p & H1 & H2 & H3 & _).
    now exists cmd, p. }
  destruct (m markdown_alternative _ _) eqn:E2.
  { intros _. right. left.
    rewrite markdown_alternative_unfold in E2.
    destruct (strip "[" s) as [s1|] eqn:Es; [|discriminate].
    apply strip_Some in Es.
    destruct (link_text_sound _ _ _ _ _ E2) as (a & b & -> & Ha & Hb).
    now exists a, b. }
  intros H. right. right.
  unfold wiki_alternative in H. rewrite lit_group_to_end in H.
  destruct (strip "[[" s) as [p|] eqn:Es; [|discriminate].
  destruct (has_char "]" p) eqn:Hp; [discriminate|].
  apply strip_Some in Es. now exists p.
Qed.

(** And the pattern matches from every position where a trigger syntax is
    open. *)
Lemma tagPattern_complete (i : nat) (s : string) (cs : captures) :
  trigger_here s -> m tagPattern (MState i s cs) Some <> None.
Proof.
  change (m tagPattern (MState i s cs) Some)
    with (match m command_alternative (MState i s cs) Some with
          | Some z => Some z
          | None =>
              match m markdown_alternative (MState i s cs) Some with
              | Some z => Some z
              | None => m wiki_alternative (MState i s cs) Some
              end
          end).
  intros [(cmd & p & Hin & -> & Hp) | [(a & b & -> & Ha & Hb) | (p & -> & Hp)]].
  - rewrite command_alternative_complete by assumption. discriminate.
  - destruct (m command_alternative _ _); [discriminate|].
    rewrite markdown_alternative_unfold.
    change (strip "[" ("[" ++ a ++ "](" ++ b)) with (Some (a ++ "](" ++ b)).
    cbv iota.
    pose proof (link_text_complete a b (i + 1) cs Ha Hb) as H.
    destruct (m (Star (NotChr "[")) _ _); [discriminate|contradiction].
  - destruct (m command_alternative _ _); [discriminate|].
    destruct (m markdown_alternative _ _); [discriminate|].
    unfold wiki_alternative. rewrite lit_group_to_end.
    change (strip "[[" ("[[" ++ p)) with (Some p).
    cbv iota. rewrite Hp. discriminate.
Qed.

(** [exec] finds nothing exactly when no trigger syntax is open at the end
    of the text. *)
Lemma exec_from_None_iff (text : string) :
  forall i : nat,
    exec_from tagPattern tagPattern_groups i text = None <-> no_trigger text.
Proof.
  induction text as [|c text IH]; intros i.
  - cbn [exec_from].
    destruct (m tagPattern (MState i _ _) Some) eqn:E; split.
    + discriminate.
    + intros H. exfalso. apply (H "" ""); [reflexivity|].
      eapply tagPattern_sound; eassumption.
    + intros _ before after Hs Ht.
      destruct before; [|discriminate]. simpl in Hs. subst after.
      now apply (tagPattern_complete i "" (repeat None 4)) in Ht.
    + reflexivity.
  - cbn [exec_from].
    destruct (m tagPattern (MState i _ _) Some) eqn:E; split.
    + discriminate.
    + intros H. exfalso. apply (H "" (String c text)); [reflexivity|].
      eapply tagPattern_sound; eassumption.
    + intros H before after Hs Ht.
      destruct before as [|c' before].
      * simpl in Hs. subst after.
        now apply (tagPattern_complete i _ (repeat None 4)) in Ht.
      * injection Hs as -> Hs. apply (proj1 (IH (S i)) H before after); trivial.
    + intros H. apply IH. intros before after Hs.
      apply (H (String c before) after). simpl. now rewrite Hs.
Qed.

Lemma exec_from_eq (r : regex) (n i : nat) (s : string) :
  exec_from r n i s
  = match m r (MState i s (repeat None (S n))) Some with
    | Some y => Some (ExecArray i (set_cap 0 (i, endIndex y) (caps y)))
    | None =>
        match s with
        | String _ s' => exec_from r n (S i) s'
        | EmptyString => None
        end
    end.
Proof. destruct s; reflexivity. Qed.

(** While no trigger syntax opens, [exec] moves on to the next start. *)
Lemma exec_from_skip :
  forall (pre s : string) (i : nat),
    no_trigger_before (String.length pre) (pre ++ s) ->
    exec_from tagPattern tagPattern_groups i (pre ++ s)
    = exec_from tagPattern tagPattern_groups (i + String.length pre) s.
Proof.
  induction pre as [|c pre IH]; intros s i H.
  - simpl. now rewrite Nat.add_0_r.
  - change (String c pre ++ s) with (String c (pre ++ s)).
    cbn [exec_from].
    destruct (m tagPattern (MState i _ _) Some) eqn:E.
    + exfalso. apply (H "" (String c (pre ++ s))); [reflexivity|simpl; lia|].
      eapply tagPattern_sound; eassumption.
    + rewrite IH.
      * simpl. f_equal. lia.
      * intros before after Hs Hl.
        apply (H (String c before) after); simpl; [now rewrite Hs|lia].
Qed.

Lemma substring_all (s : string) : substring 0 (String.length s) s = s.
Proof. induction s as [|c s IH]; simpl; [reflexivity | now rewrite IH]. Qed.

Lemma substring_suffix (a b : string) :
  substring (String.length a) (String.length b) (a ++ b) = b.
Proof. induction a as [|c a IH]; simpl; [apply substring_all | exact IH]. Qed.

Lemma no_match_before_correct :
  forall (n i : nat) (s : string),
    no_match_before n i s = true -> no_trigger_before n s.
Proof.
  induction n as [|n IH]; intros i s H before after Hs Hl; [lia|].
  cbn [no_match_before] in H.
  destruct (m tagPattern (MState i s _) Some) eqn:E; [discriminate|].
  destruct before as [|c before].
  - simpl in Hs. subst after. intros Ht.
    now apply (tagPattern_complete i s (repeat None 4)) in Ht.
  - destruct s as [|c' s]; [discriminate|]. injection Hs as -> Hs.
    apply (IH (S i) s H before after Hs). simpl in Hl. lia.
Qed.

(** Every trigger syntax opens with a backslash or an opening bracket. *)
Lemma trigger_here_first (s : string) :
  trigger_here s ->
  exists (c : ascii) (s' : string),
    s = String c s' /\ (c = "\"%char \/ c = "["%char).
Proof.
  intros [(cmd & p & Hin & -> & _) | [(a & b & -> & _) | (p & -> & _)]].
  - simpl in Hin.
    destruct Hin as [<-|[<-|[<-|[<-|[]]]]]; simpl; eauto.
  - simpl. eauto.
  - simpl. eauto.
Qed.

Lemma split_inside :
  forall pre s before after : string,
    pre ++ s = before ++ after ->
    String.length before < String.length pre ->
    exists (c : ascii) (after' : string),
      after = String c after' /\ has_char c pre = true.
Proof.
  induction pre as [|a pre IH]; intros s before after Hs Hl; simpl in Hl.
  - lia.
  - destruct before as [|b before]; simpl in Hs.
    + exists a, (pre ++ s). split; [now symmetry|].
      simpl. now rewrite Ascii.eqb_refl.
    + injection Hs as <- Hs. simpl in Hl.
      destruct (IH s before after Hs) as (c & after' & -> & Hc); [lia|].
      exists c, after'. split; [reflexivity|].
      simpl. now rewrite Hc, orb_true_r.
Qed.

(** After text without a backslash and without an opening bracket no
    trigger syntax has opened yet. *)
Lemma no_trigger_before_plain (pre s : string) :
  has_char "\" pre = false -> has_char "[" pre = false ->
  no_trigger_before (String.length pre) (pre ++ s).
Proof.
  intros Hb Hk before after Hs Hl Ht.
  destruct (split_inside pre s before after Hs Hl) as (c & after' & -> & Hc).
  destruct (trigger_here_first _ Ht) as (c' & s' & E & [->| ->]);
    injection E as -> _; congruence.
Qed.

(** C4, as the code has it.  On [see \ref{ab] with the cursor at the end
    the match is [ab], from offset 9 to offset 11.  In general, for each of
    the four command names: when a name and a brace are followed by text
    without a closing brace up to the cursor, and no trigger syntax opens
    earlier on the line, the match is that text, from the offset after the
    brace to the cursor. *)
Theorem command_partial_text :
  context_match "see \ref{ab" 11 = Match 9 11 "ab"
  /\ forall pre cmd partial : string,
       In cmd command_names ->
       has_char "}" partial = false ->
       no_trigger_before (String.length pre) (pre ++ cmd ++ "{" ++ partial) ->
       context_match (pre ++ cmd ++ "{" ++ partial)
                     (String.length (pre ++ cmd ++ "{" ++ partial))
       = Match (String.length pre + String.length cmd + 1)
               (String.length (pre ++ cmd ++ "{" ++ partial))
               partial.
Proof.
  split; [reflexivity|].
  intros pre cmd partial Hin Hp Hpre.
  unfold context_match, completion_start, exec.
  rewrite exec_from_skip by assumption.
  rewrite exec_from_eq.
  change (m tagPattern (MState (0 + String.length pre) (cmd ++ "{" ++ partial)
                          (repeat None (S tagPattern_groups))) Some)
    with (match m command_alternative
                  (MState (0 + String.length pre) (cmd ++ "{" ++ partial)
                          (repeat None (S tagPattern_groups))) Some with
          | Some z => Some z
          | None =>
              m (Alt markdown_alternative wiki_alternative)
                (MState (0 + String.length pre) (cmd ++ "{" ++ partial)
                        (repeat None (S tagPattern_groups))) Some
          end).
  rewrite command_alternative_complete by assumption.
  cbn [orElse group_start indices nth set_cap repeat tagPattern_groups caps
       endIndex Nat.add].
  f_equal.
  replace (pre ++ cmd ++ "{" ++ partial) with ((pre ++ cmd ++ "{") ++ partial)
    by now rewrite !append_assoc.
  replace (String.length pre + String.length cmd + 1)
    with (String.length (pre ++ cmd ++ "{"))
    by (rewrite !append_length; simpl; lia).
  rewrite (append_length (pre ++ cmd ++ "{") partial).
  replace (String.length (pre ++ cmd ++ "{") + String.length partial
           - String.length (pre ++ cmd ++ "{"))
    with (String.length partial) by lia.
  apply substring_suffix.
Qed.

Lemma command_partial_text_witness :
  context_match ("see " ++ "\ref" ++ "{" ++ "ab")
                (String.length ("see " ++ "\ref" ++ "{" ++ "ab"))
  = Match (String.length "see " + String.length "\ref" + 1)
          (String.length ("see " ++ "\ref" ++ "{" ++ "ab")) "ab".
Proof.
  apply (proj2 command_partial_text "see " "\ref" "ab").
  - simpl. auto.
  - reflexivity.
  - apply (no_match_before_correct _ 0). vm_compute. reflexivity.
Defined.

(** C4, as it is stated, fails when a trigger syntax is already open
    before the command: after two opening brackets the match is the text
    after the brackets, not the text after the brace. *)
Lemma command_after_open_wiki_link :
  context_match "[[x \ref{ab" 11 = Match 2 11 "x \ref{ab"
  /\ ~ (forall pre cmd partial : string,
          In cmd command_names ->
          has_char "}" partial = false ->
          context_match (pre ++ cmd ++ "{" ++ partial)
                        (String.length (pre ++ cmd ++ "{" ++ partial))
          = Match (String.length pre + String.length cmd + 1)
                  (String.length (pre ++ cmd ++ "{" ++ partial))
                  partial).
Proof.
  split; [reflexivity|].
  intros H. specialize (H "[[x " "\ref" "ab").
  assert (Hin : In "\ref" command_names) by (simpl; auto).
  specialize (H Hin eq_refl). vm_compute in H. discriminate.
Qed.

(** C5: the three sample texts of the specification, the cursor at the
    end of each; on the last one the provider offers nothing. *)
Theorem sample_contexts :
  context_match "[[partial" 9 = Match 2 9 "partial"
  /\ context_match "[text](par" 10 = Match 7 10 "par"
  /\ context_match "no trigger here" 15 = NoMatch
  /\ forall config : Configuration,
       provideCompletionItems config ["no trigger here"]
                              {| line := 0; character := 15 |}
       = Done [].
Proof.
  split; [reflexivity|]. split; [reflexivity|]. split; [reflexivity|].
  intros config. reflexivity.
Qed.

(** C10: when no trigger syntax is open at the cursor, the provider
    returns the empty list at once: it is a finished task and it makes no
    request to the forest cache, whatever the cache would answer. *)
Theorem no_trigger_no_forest_request :
  forall (config : Configuration) (doc : TextDocument) (pos : Position),
    no_trigger (getText_to doc pos) ->
    provideCompletionItems config doc pos = Done []
    /\ forall getForest : bool -> Forest,
         forest_requests getForest (provideCompletionItems config doc pos) = 0
         /\ result_of getForest (provideCompletionItems config doc pos) = [].
Proof.
  intros config doc pos H.
  apply (exec_from_None_iff _ 0) in H.
  unfold provideCompletionItems, completion_start, exec.
  rewrite H. split; [reflexivity|]. intros getForest. split; reflexivity.
Qed.

(** And when a trigger syntax is open, the provider does ask for the
    forest, once, and answers with the suggestions for it. *)
Lemma open_trigger_requests_forest (config : Configuration)
  (doc : TextDocument) (pos : Position) :
  ~ no_trigger (getText_to doc pos) ->
  exists range : Range,
    range_end range = pos
    /\ provideCompletionItems config doc pos
       = AwaitForest true (fun forest => Done (suggest config forest range)).
Proof.
  intros H. unfold provideCompletionItems, completion_start, exec.
  destruct (exec_from tagPattern tagPattern_groups 0 (getText_to doc pos))
    as [mt|] eqn:E.
  - eexists. split; [|reflexivity]. reflexivity.
  - exfalso. apply H. now apply (exec_from_None_iff _ 0).
Qed.

Lemma no_trigger_no_forest_request_witness :
  provideCompletionItems sample_config ["no trigger here"; "\ref{"]
                         {| line := 0; character := 15 |}
  = Done [].
Proof.
  apply (no_trigger_no_forest_request sample_config
           ["no trigger here"; "\ref{"] {| line := 0; character := 15 |}).
  apply (exec_from_None_iff _ 0). vm_compute. reflexivity.
Defined.

(* ================================================================== *)
(** * The query runner *)
(* ================================================================== *)

Section Runner.

Variable JSON_parse : string -> option js_value.

(** Chunks of output only accumulate. *)
Lemma await_settlement_data :
  forall (pre rest : list proc_event) (st : qstate),
    forallb is_data pre = true ->
    await_settlement JSON_parse st (pre ++ rest)%list
    = await_settlement JSON_parse
        (QState (q_stdout st ++ captured_stdout pre)
                (q_stderr st ++ captured_stderr pre) (q_log st)) rest.
Proof.
  induction pre as [|ev pre IH]; intros rest [out err l] H.
  - simpl. now rewrite !append_empty_r.
  - destruct ev; try discriminate; simpl in H |- *; rewrite IH by assumption;
      simpl; now rewrite append_assoc.
Qed.

(** [queryForest] once a workspace folder is open and the path of the
    executable is not empty: the process is spawned, the timer is set, and
    the events of the child decide. *)
Lemma queryForest_spawned (root : string) (others : list string)
  (config : Configuration) (pre post : list proc_event) (ev : proc_event) :
  truthy (forester_path config) = true ->
  forallb is_data pre = true ->
  forall (st : qstate) (s : settlement),
    on_event JSON_parse
      (QState (captured_stdout pre) (captured_stderr pre)
         (several_folders_warning others
          ++ [Spawn (forester_path config)
                (["query"; "all"] ++ configfile_args config) root;
              SetTimeout 30000])%list) ev = (st, Some s) ->
    queryForest JSON_parse (root :: others) config
      (Child (pre ++ ev :: post))%list
    = after_await st s.
Proof.
  intros Hpath Hpre st s Hev. unfold queryForest, spawn.
  cbn [getRoot outcome log]. rewrite Hpath.
  rewrite await_settlement_data by assumption.
  cbn [await_settlement q_stdout q_stderr q_log append].
  now rewrite Hev.
Qed.

(** When [spawn] throws, so does [queryForest]; the timer is not set. *)
Lemma queryForest_refused (root : string) (others : list string)
  (config : Configuration) (e : js_error) :
  queryForest JSON_parse (root :: others) config (Refused e)
  = Run (Threw (Error_toString
                  (if truthy (forester_path config) then e
                   else empty_file_error)))
        (several_folders_warning others
         ++ [Spawn (forester_path config)
               (["query"; "all"] ++ configfile_args config) root])%list.
Proof.
  unfold queryForest, spawn. cbn [getRoot outcome log].
  now destruct (truthy (forester_path config)).
Qed.

Lemma runner_outcome_settled (pre post : list proc_event) (ev : proc_event) :
  forallb is_data pre = true ->
  forall (st : qstate) (s : settlement),
    on_event JSON_parse
      (QState (captured_stdout pre) (captured_stderr pre) []) ev
    = (st, Some s) ->
    runner_outcome JSON_parse (pre ++ ev :: post)%list
    = Some (query_outcome st s).
Proof.
  intros Hpre st s Hev. unfold runner_outcome.
  rewrite await_settlement_data by assumption.
  cbn [await_settlement q_stdout q_stderr q_log append]. now rewrite Hev.
Qed.

Lemma abnormal_exit_true (code : option Z) (signal : option string) :
  signal <> None \/ code <> Some 0%Z -> abnormal_exit code signal = true.
Proof.
  intros [H|H]; unfold abnormal_exit.
  - destruct signal; [reflexivity|contradiction].
  - destruct signal; [reflexivity|].
    destruct code as [[| |]|]; try reflexivity. contradiction.
Qed.

Lemma after_await_failed (root : string) (others : list string)
  (config : Configuration) (handler : list effect) (message : string)
  (pre : list proc_event) :
  after_await
    (QState (captured_stdout pre) (captured_stderr pre)
       ((several_folders_warning others
         ++ [Spawn (forester_path config)
               (["query"; "all"] ++ configfile_args config) root;
             SetTimeout 30000]) ++ handler)%list)
    (Failed message)
  = Run (Returned []) (failure_log root others config handler message pre).
Proof.
  unfold after_await, failure_log. cbn [q_log q_stdout q_stderr].
  f_equal. rewrite <- !app_assoc. reflexivity.
Qed.


(** C2, as the code has it: when the timer fires before the process has
    closed or failed, the process is killed and the query fails with the
    message [Forester timed out after 30s]; the two outputs of the failure
    are what the process has written so far, and they are part of the
    message shown.  The query returns the empty forest. *)
Theorem timeout_outcome :
  forall (root : string) (others : list string) (config : Configuration)
         (pre post : list proc_event),
    truthy (forester_path config) = true ->
    forallb is_data pre = true ->
    runner_outcome JSON_parse (pre ++ TimerFired :: post)%list
    = Some (Failure "Forester timed out after 30s"
                    (captured_stdout pre) (captured_stderr pre))
    /\ occurs_in "timed out after 30s" "Forester timed out after 30s"
    /\ queryForest JSON_parse (root :: others) config
         (Child (pre ++ TimerFired :: post))%list
       = Run (Returned [])
             (failure_log root others config [Kill]
                "Forester timed out after 30s" pre).
Proof.
  intros root others config pre post Hpath Hpre. repeat split.
  - now rewrite (runner_outcome_settled pre post TimerFired Hpre _ _ eq_refl).
  - exists "Forester ", "". reflexivity.
  - erewrite queryForest_spawned; [|assumption|assumption|reflexivity].
    apply after_await_failed.
Qed.


(** Once [spawn] has returned the child process, whichever way the query
    fails (an [error] event when the process cannot be run, the timer, an
    exit code other than 0, a signal, or output that is not JSON),
    [queryForest] returns, and what it returns is the empty forest; the
    failure is reported in a message.  An exception that [spawn] itself
    throws is not caught: [queryForest] ends with it, and with no
    message. *)
Theorem query_failure_gives_empty_forest :
  forall (root : string) (others : list string) (config : Configuration)
         (pre post : list proc_event) (ev : proc_event),
    truthy (forester_path config) = true ->
    forallb is_data pre = true ->
    query_failure JSON_parse (captured_stdout pre) ev ->
    (outcome (queryForest JSON_parse (root :: others) config
                (Child (pre ++ ev :: post))%list)
     = Returned []
     /\ exists (handler : list effect) (message : string),
          log (queryForest JSON_parse (root :: others) config
                 (Child (pre ++ ev :: post))%list)
          = failure_log root others config handler message pre)
    /\ forall e : js_error,
         queryForest JSON_parse (root :: others) config (Refused e)
         = Run (Threw (Error_toString e))
               (several_folders_warning others
                ++ [Spawn (forester_path config)
                      (["query"; "all"] ++ configfile_args config) root])%list.
Proof.
  intros root others config pre post ev Hpath Hpre Hfail. split.
  - assert (H : exists handler message,
               queryForest JSON_parse (root :: others) config
                 (Child (pre ++ ev :: post))%list
               = Run (Returned [])
                     (failure_log root others config handler message pre)).
    { destruct Hfail as [message| |code signal Hcode|code signal|Hparse].
      - exists [ShowWarningMessage ("Forester: Critical error - " ++ message)],
               message.
        erewrite queryForest_spawned; [|assumption|assumption|reflexivity].
        apply after_await_failed.
      - exists [Kill], timeout_message.
        erewrite queryForest_spawned; [|assumption|assumption|reflexivity].
        apply after_await_failed.
      - exists [], (exit_message code signal).
        erewrite queryForest_spawned;
          [|assumption|assumption
           |cbn [on_event];
            rewrite (abnormal_exit_true code signal (or_intror Hcode));
            reflexivity].
        rewrite <- (app_nil_r (_ ++ [Spawn _ _ _; _])%list).
        apply after_await_failed.
      - exists [], (exit_message code (Some signal)).
        erewrite queryForest_spawned; [|assumption|assumption|reflexivity].
        rewrite <- (app_nil_r (_ ++ [Spawn _ _ _; _])%list).
        apply after_await_failed.
      - exists [], (invalid_json_message (captured_stdout pre)).
        erewrite queryForest_spawned;
          [|assumption|assumption
           |cbn [on_event abnormal_exit q_stdout]; rewrite Hparse; reflexivity].
        rewrite <- (app_nil_r (_ ++ [Spawn _ _ _; _])%list).
        apply after_await_failed. }
    destruct H as (handler & message & ->). split; [reflexivity|].
    now exists handler, message.
  - intros e. rewrite queryForest_refused. now rewrite Hpath.
Qed.

End Runner.

(* ================================================================== *)
(** * The response normalizer *)
(* ================================================================== *)

Lemma get_prop_replace_other (k k' : string) (v : js_value)
  (o : list (string * js_value)) :
  k <> k' -> get_prop k (replace_prop k' v o) = get_prop k o.
Proof.
  intros Hk. induction o as [|[k0 v0] o IH]; simpl; [reflexivity|].
  destruct (String.eqb_spec k' k0) as [<-|Hn]; simpl.
  - now rewrite (proj2 (String.eqb_neq k k') Hk).
  - now rewrite IH.
Qed.

Lemma get_prop_insert_other (k k' : string) (v : js_value)
  (o : list (string * js_value)) :
  k <> k' -> get_prop k (insert_prop k' v o) = get_prop k o.
Proof.
  intros Hk. apply String.eqb_neq in Hk.
  induction o as [|[k0 v0] o IH]; simpl; [now rewrite Hk|].
  destruct (array_index k') as [n|]; [destruct (array_index k0) as [n0|]|].
  - destruct (n <? n0)%N; simpl; [now rewrite Hk | now rewrite IH].
  - simpl. now rewrite Hk.
  - simpl. now rewrite IH.
Qed.

Lemma get_prop_define_other (k k' : string) (v : js_value)
  (o : list (string * js_value)) :
  k <> k' -> get_prop k (define_prop k' v o) = get_prop k o.
Proof.
  intros Hk. unfold define_prop. destruct (has_prop k' o).
  - now apply get_prop_replace_other.
  - now apply get_prop_insert_other.
Qed.

(** Properties other than [k] leave [k] as it is. *)
Lemma get_prop_fold_define (k : string) :
  forall (l o : list (string * js_value)),
    get_prop k l = None ->
    get_prop k (fold_left (fun o kv => define_prop (fst kv) (snd kv) o) l o)
    = get_prop k o.
Proof.
  induction l as [|[k0 v0] l IH]; intros o H; simpl in *; [reflexivity|].
  destruct (String.eqb_spec k k0) as [|Hn]; [discriminate|].
  rewrite IH by assumption. now apply get_prop_define_other.
Qed.

Lemma uri_of_with_uri (id : string) (entry : js_value) :
  get_prop "uri" (own_props entry) = None ->
  field "uri" (with_uri id entry) = Some (JStr id).
Proof.
  intros H. unfold with_uri, field. now rewrite get_prop_fold_define.
Qed.

(** C3: a response that parses to an object whose values are entries
    without their [uri], as the type of the code declares them, gives one
    entry per key, in the order of the keys and as many as there are keys;
    the entry of a key is its value with the property [uri] added, and its
    [uri] is the key. *)
Theorem object_response_entries :
  forall (JSON_parse : string -> option js_value)
         (root : string) (others : list string) (config : Configuration)
         (pre post : list proc_event) (props : list (string * js_value)),
    truthy (forester_path config) = true ->
    forallb is_data pre = true ->
    JSON_parse (captured_stdout pre) = Some (JObj props) ->
    valid_keyed_response props ->
    exists forest : list js_value,
      outcome (queryForest JSON_parse (root :: others) config
                 (Child (pre ++ CloseEvent (Some 0%Z) None :: post))%list)
      = Returned forest
      /\ List.length forest = List.length props
      /\ map (field "uri") forest
         = map (fun kv => Some (JStr (fst kv))) props
      /\ forall (i : nat) (key : string) (v : js_value),
           nth_error props i = Some (key, v) ->
           nth_error forest i = Some (with_uri key v)
           /\ field "uri" (with_uri key v) = Some (JStr key).
Proof.
  intros JSON_parse root others config pre post props Hpath Hpre Hparse Hvalid.
  exists (map (fun kv => with_uri (fst kv) (snd kv)) props).
  split; [|split; [|split]].
  - erewrite queryForest_spawned;
      [|assumption|assumption
       |cbn [on_event abnormal_exit q_stdout]; rewrite Hparse; reflexivity].
    reflexivity.
  - apply length_map.
  - rewrite map_map. apply map_ext_in. intros [key v] Hin.
    apply uri_of_with_uri.
    exact (proj1 (Forall_forall _ _) Hvalid (key, v) Hin).
  - intros i key v Hi. split.
    + rewrite nth_error_map, Hi. reflexivity.
    + apply uri_of_with_uri.
      exact (proj1 (Forall_forall _ _) Hvalid (key, v) (nth_error_In _ _ Hi)).
Qed.

Lemma object_response_entries_witness :
  exists forest : list js_value,
    outcome (queryForest ReferenceJSON.parse ["/forest"] sample_config
               (Child ([StdoutData sample_object_response]
                       ++ CloseEvent (Some 0%Z) None :: []))%list)
    = Returned forest
    /\ List.length forest = 2
    /\ map (field "uri") forest = [Some (JStr "a"); Some (JStr "b")]
    /\ forall (i : nat) (key : string) (v : js_value),
         nth_error [("a", JObj [("title", JNull)]); ("b", JObj [])] i
         = Some (key, v) ->
         nth_error forest i = Some (with_uri key v)
         /\ field "uri" (with_uri key v) = Some (JStr key).
Proof.
  apply (object_response_entries ReferenceJSON.parse "/forest" [] sample_config
           [StdoutData sample_object_response] []
           [("a", JObj [("title", JNull)]); ("b", JObj [])]).
  - reflexivity.
  - reflexivity.
  - vm_compute. reflexivity.
  - repeat constructor.
Defined.

(** Outside the declared type, a value that has a property [uri] of its
    own keeps it: the spread comes after the key. *)
Remark uri_of_value_overrides_key :
  ReferenceJSON.parse uri_in_value_response
  = Some (JObj [("a", JObj [("uri", JStr "b")])])
  /\ outcome (queryForest ReferenceJSON.parse ["/forest"] sample_config
                (Child [StdoutData uri_in_value_response;
                        CloseEvent (Some 0%Z) None]))
     = Returned [JObj [("uri", JStr "b")]].
Proof.
  split; vm_compute; reflexivity.
Qed.

(* ================================================================== *)
(** * The query runner on sample runs *)
(* ================================================================== *)

Lemma query_failure_gives_empty_forest_witness :
  (outcome (queryForest ReferenceJSON.parse ["/forest"] sample_config
              (Child ([StdoutData "Usage: "; StdoutData "forester"]
                      ++ CloseEvent (Some 0%Z) None :: []))%list)
   = Returned []
   /\ exists (handler : list effect) (message : string),
        log (queryForest ReferenceJSON.parse ["/forest"] sample_config
               (Child ([StdoutData "Usage: "; StdoutData "forester"]
                       ++ CloseEvent (Some 0%Z) None :: []))%list)
        = failure_log "/forest" [] sample_config handler message
            [StdoutData "Usage: "; StdoutData "forester"])
  /\ forall e : js_error,
       queryForest ReferenceJSON.parse ["/forest"] sample_config (Refused e)
       = Run (Threw (Error_toString e))
             (several_folders_warning []
              ++ [Spawn (forester_path sample_config)
                    (["query"; "all"] ++ configfile_args sample_config)
                    "/forest"])%list.
Proof.
  apply (query_failure_gives_empty_forest ReferenceJSON.parse "/forest" []
           sample_config [StdoutData "Usage: "; StdoutData "forester"] []
           (CloseEvent (Some 0%Z) None)).
  - reflexivity.
  - reflexivity.
  - apply ParseFailure. vm_compute. reflexivity.
Defined.

(** C1 fails on the code when the path of the executable is set to the
    empty string: [spawn] throws, no [try] surrounds the call, and
    [queryForest] ends with the exception instead of the empty forest,
    whatever the system would have done; no message is shown.  [command],
    next to it, has the call of [execFile] inside its [try]: on the same
    setting it catches the same exception, shows it and returns. *)
Lemma empty_path_spawn_is_thrown :
  let config := {| cfg_path := Some ""; cfg_config := None;
                   cfg_completion_showID := None;
                   cfg_create_random := None |} in
  (forall (JSON_parse : string -> option js_value) (host : spawned),
     queryForest JSON_parse ["/forest"] config host
     = Run (Threw ("TypeError [ERR_INVALID_ARG_VALUE]: "
                   ++ "The argument 'file' cannot be empty. Received ''"))
           [Spawn "" ["query"; "all"] "/forest"])
  /\ (forall host : spawned,
        command ["/forest"] config host ["new"]
        = Run (Returned None)
              [ConsoleLogArray ["new"]; ExecFile "" ["new"] "/forest";
               ShowErrorMessage
                 ("TypeError [ERR_INVALID_ARG_VALUE]: "
                  ++ "The argument 'file' cannot be empty. Received ''")])
  /\ ~ (forall (JSON_parse : string -> option js_value)
               (config : Configuration) (host : spawned) (e : string),
          outcome (queryForest JSON_parse ["/forest"] config host) <> Threw e).
Proof.
  split; [intros JSON_parse host; reflexivity|].
  split; [intros host; reflexivity|].
  intros H.
  apply (H ReferenceJSON.parse
           {| cfg_path := Some ""; cfg_config := None;
              cfg_completion_showID := None; cfg_create_random := None |}
           (Child [])
           ("TypeError [ERR_INVALID_ARG_VALUE]: "
            ++ "The argument 'file' cannot be empty. Received ''")).
  reflexivity.
Qed.

Lemma timeout_outcome_witness :
  runner_outcome ReferenceJSON.parse
    ([StdoutData "[{"; StderrData "warning"] ++ TimerFired :: [])%list
  = Some (Failure "Forester timed out after 30s"
                  (captured_stdout [StdoutData "[{"; StderrData "warning"])
                  (captured_stderr [StdoutData "[{"; StderrData "warning"]))
  /\ occurs_in "timed out after 30s" "Forester timed out after 30s"
  /\ queryForest ReferenceJSON.parse ("/forest" :: []) sample_config
       (Child ([StdoutData "[{"; StderrData "warning"] ++ TimerFired :: []))%list
     = Run (Returned [])
           (failure_log "/forest" [] sample_config [Kill]
              "Forester timed out after 30s"
              [StdoutData "[{"; StderrData "warning"]).
Proof.
  apply (timeout_outcome ReferenceJSON.parse "/forest" [] sample_config
           [StdoutData "[{"; StderrData "warning"] []); reflexivity.
Defined.

(** C2, as it is stated, fails when the process has written something
    before the timer fires: the failure keeps that output, and the message
    shown ends with it. *)
Lemma timeout_keeps_captured_output :
  runner_outcome ReferenceJSON.parse [StdoutData "partial"; TimerFired]
  = Some (Failure "Forester timed out after 30s" "partial" "")
  /\ In (ShowErrorMessage
           ("Forester query failed: Forester timed out after 30s"
            ++ newline ++ newline ++ "partial"))
        (log (queryForest ReferenceJSON.parse ["/forest"] sample_config
                (Child [StdoutData "partial"; TimerFired])))
  /\ ~ (forall pre post : list proc_event,
          forallb is_data pre = true ->
          exists message : string,
            runner_outcome ReferenceJSON.parse (pre ++ TimerFired :: post)%list
            = Some (Failure message "" "")
            /\ occurs_in "timed out after 30s" message).
Proof.
  split; [reflexivity|]. split.
  - vm_compute. do 5 right. left. reflexivity.
  - intros H.
    destruct (H [StdoutData "partial"] [] eq_refl) as (message & Hm & _).
    vm_compute in Hm. discriminate.
Qed.



(** A response that is the JSON value null is no failure of the query,
    and [queryForest] throws on it. *)
Remark null_response_throws :
  outcome (queryForest ReferenceJSON.parse ["/forest"] sample_config
             (Child [StdoutData "null"; CloseEvent (Some 0%Z) None]))
  = Threw "TypeError: Cannot convert undefined or null to object".
Proof. vm_compute. reflexivity. Qed.

(** Without a workspace folder no process is spawned: [getRoot] throws. *)
Remark no_workspace_throws (JSON_parse : string -> option js_value)
  (config : Configuration) (host : spawned) :
  queryForest JSON_parse [] config host
  = Run (Threw "vscode-forester doesn't support opening a single file.") [].
Proof. reflexivity. Qed.

(* ================================================================== *)
(** * Trimming *)
(* ================================================================== *)

Lemma is_space_white (c : ascii) :
  is_space c = existsb (Ascii.eqb c) white_space.
Proof. destruct c as [[] [] [] [] [] [] [] []]; reflexivity. Qed.

Lemma is_space_iff (c : ascii) : is_space c = true <-> In c white_space.
Proof.
  rewrite is_space_white, existsb_exists. split.
  - intros (x & Hin & E). apply Ascii.eqb_eq in E. now subst.
  - intros H. exists c. split; [assumption|apply Ascii.eqb_refl].
Qed.

Lemma blank_cons (c : ascii) (s : string) :
  blank (String c s) <-> In c white_space /\ blank s.
Proof.
  unfold blank. cbn [list_ascii_of_string]. split.
  - intros H. inversion H. now split.
  - intros [Hc Hs]. now constructor.
Qed.

Lemma blank_append (l r : string) : blank l -> blank r -> blank (l ++ r).
Proof.
  intros Hl Hr. induction l as [|c l IH]; [exact Hr|].
  apply blank_cons in Hl as [Hc Hl]. cbn [append]. apply blank_cons.
  split; [assumption | now apply IH].
Qed.

Lemma trimStart_spec (s : string) :
  exists l,
    s = l ++ trimStart s /\ blank l
    /\ forall c, first_char (trimStart s) = Some c -> ~ In c white_space.
Proof.
  induction s as [|c s IH].
  - exists "". split; [reflexivity|]. split; [constructor|discriminate].
  - cbn [trimStart]. destruct (is_space c) eqn:E.
    + destruct IH as (l & Hs & Hl & Hf). exists (String c l).
      split; [cbn [append]; now rewrite <- Hs|]. split; [|assumption].
      apply blank_cons. split; [now apply is_space_iff | assumption].
    + exists "". split; [reflexivity|]. split; [constructor|].
      intros c' H Hin. injection H as <-. apply is_space_iff in Hin.
      congruence.
Qed.

Lemma trimEnd_cons (c : ascii) (t : string) :
  trimEnd (String c t)
  = if is_space c && negb (truthy (trimEnd t)) then ""
    else String c (trimEnd t).
Proof. reflexivity. Qed.

Lemma trimEnd_spec (t : string) :
  exists r,
    t = trimEnd t ++ r /\ blank r
    /\ (forall c, last_char (trimEnd t) = Some c -> ~ In c white_space)
    /\ (trimEnd t <> "" -> first_char (trimEnd t) = first_char t).
Proof.
  induction t as [|c t IH].
  - exists "". split; [reflexivity|]. split; [constructor|].
    split; [discriminate | reflexivity].
  - destruct IH as (r & Ht & Hr & Hl & Hf). rewrite trimEnd_cons.
    destruct (is_space c && negb (truthy (trimEnd t))) eqn:E.
    + apply andb_true_iff in E as [Ec Et]. exists (String c t).
      split; [reflexivity|]. split; [|split; [discriminate|congruence]].
      apply blank_cons. split; [now apply is_space_iff|].
      rewrite Ht. destruct (trimEnd t); [exact Hr | discriminate].
    + exists r. split; [cbn [append]; now rewrite <- Ht|].
      split; [assumption|]. split; [|reflexivity].
      intros c'. cbn [last_char]. destruct (trimEnd t) eqn:Eu.
      * intros H Hin. injection H as <-. apply is_space_iff in Hin.
        rewrite Hin in E. discriminate.
      * apply Hl.
Qed.

(** What [trim] returns is the string without the white space at its two
    ends. *)
Lemma trim_trimmed (s : string) : trimmed_of s (trim s).
Proof.
  destruct (trimStart_spec s) as (l & Hs & Hl & Hf).
  destruct (trimEnd_spec (trimStart s)) as (r & Ht & Hr & Hlast & Hfirst).
  exists l, r. unfold trim. split; [now rewrite <- Ht|].
  split; [assumption|]. split; [assumption|]. split; [|assumption].
  intros c Hc. apply Hf. rewrite <- Hfirst; [assumption|].
  intros E. rewrite E in Hc. discriminate.
Qed.

Lemma trimStart_all_blank (s : string) : blank s -> trimStart s = "".
Proof.
  induction s as [|c s IH]; [reflexivity|]. intros H.
  apply blank_cons in H as [Hc Hs]. cbn [trimStart].
  apply is_space_iff in Hc. rewrite Hc. now apply IH.
Qed.

Lemma trimStart_blank (l t : string) :
  blank l -> (forall c, first_char t = Some c -> ~ In c white_space) ->
  trimStart (l ++ t) = t.
Proof.
  intros Hl Hf. induction l as [|a l IH].
  - cbn [append]. destruct t as [|c t]; [reflexivity|]. cbn [trimStart].
    destruct (is_space c) eqn:E; [|reflexivity].
    apply is_space_iff in E. now destruct (Hf c eq_refl).
  - apply blank_cons in Hl as [Ha Hl]. cbn [append trimStart].
    apply is_space_iff in Ha. rewrite Ha. now apply IH.
Qed.

Lemma trimEnd_all_blank (r : string) : blank r -> trimEnd r = "".
Proof.
  induction r as [|c r IH]; [reflexivity|]. intros H.
  apply blank_cons in H as [Hc Hr]. rewrite trimEnd_cons, (IH Hr).
  apply is_space_iff in Hc. now rewrite Hc.
Qed.

Lemma trimEnd_blank (p r : string) :
  blank r -> p <> "" ->
  (forall c, last_char p = Some c -> ~ In c white_space) ->
  trimEnd (p ++ r) = p.
Proof.
  intros Hr. induction p as [|c p IH]; [contradiction|]. intros _ Hl.
  cbn [append]. rewrite trimEnd_cons. destruct p as [|c' p].
  - cbn [append]. rewrite (trimEnd_all_blank r Hr).
    destruct (is_space c) eqn:E; [|reflexivity].
    apply is_space_iff in E. now destruct (Hl c eq_refl).
  - rewrite IH; [|discriminate|exact Hl].
    cbn [truthy negb]. now rewrite andb_false_r.
Qed.

(** And nothing else is. *)
Lemma trimmed_of_trim (s p : string) : trimmed_of s p -> trim s = p.
Proof.
  intros (l & r & -> & Hl & Hr & Hf & Hlast). unfold trim.
  destruct p as [|c p].
  - cbn [append]. now rewrite trimStart_all_blank by now apply blank_append.
  - rewrite trimStart_blank; [|assumption|].
    + now apply trimEnd_blank.
    + cbn [append first_char]. intros c' H. apply Hf. exact H.
Qed.

(* ================================================================== *)
(** * The host's execFile, event by event *)
(* ================================================================== *)

Lemma byteLength_append (s t : string) :
  byteLength (s ++ t) = (byteLength s + byteLength t)%N.
Proof.
  induction s as [|c s IH]; cbn [append byteLength]; [reflexivity|].
  rewrite IH. lia.
Qed.

Lemma byteLength_doubled (n : nat) :
  forall s : string,
    byteLength (doubled n s) = (2 ^ N.of_nat n * byteLength s)%N.
Proof.
  induction n as [|n IH]; intros s; cbn [doubled].
  - change (N.of_nat 0) with 0%N. cbn [N.pow]. lia.
  - replace (N.of_nat (S n)) with (N.succ (N.of_nat n)) by lia.
    rewrite IH, byteLength_append, N.pow_succ_r'. lia.
Qed.

Lemma Error_toString_not_empty (e : js_error) :
  truthy (err_name e) = true -> Error_toString e <> "".
Proof.
  unfold Error_toString. destruct (err_name e) as [|c name]; [discriminate|].
  intros _. destruct (err_key e); [discriminate|].
  cbn [truthy negb]. destruct (truthy (err_message e)); discriminate.
Qed.

Lemma append_not_empty (s t : string) : s <> "" -> s ++ t <> "".
Proof. destruct s; [contradiction|discriminate]. Qed.

Lemma data_is_no_exit (pre : list proc_event) :
  forallb is_data pre = true -> existsb is_exit pre = false.
Proof.
  induction pre as [|ev pre IH]; [reflexivity|]. cbn [forallb existsb].
  intros H. apply andb_true_iff in H as [Hev Hpre].
  rewrite (IH Hpre). now destruct ev.
Qed.

Section Exec.

Variables (file : string) (args : list string).

(** While the child has not ended and neither output is too long, the
    chunks only accumulate. *)
Lemma exec_quiet :
  forall (pre rest : list proc_event) (out err : string),
    existsb is_exit pre = false ->
    (byteLength (out ++ captured_stdout pre) <=? MAX_BUFFER)%N = true ->
    (byteLength (err ++ captured_stderr pre) <=? MAX_BUFFER)%N = true ->
    exec_settlement_of file args
      (XState out err (byteLength out) (byteLength err) None) (pre ++ rest)%list
    = exec_settlement_of file args
        (XState (out ++ captured_stdout pre) (err ++ captured_stderr pre)
                (byteLength (out ++ captured_stdout pre))
                (byteLength (err ++ captured_stderr pre)) None) rest.
Proof.
  induction pre as [|ev pre IH]; intros rest out err Hq Hout Herr.
  - cbn [app captured_stdout captured_stderr]. now rewrite !append_empty_r.
  - cbn [existsb] in Hq. apply orb_false_iff in Hq as [Hev Hq].
    destruct ev as [chunk|chunk| |message|code signal]; try discriminate;
      cbn [app captured_stdout captured_stderr] in *;
      cbn [exec_settlement_of exec_event x_ex x_stdout x_stderr
             x_stdoutLen x_stderrLen].
    + rewrite <- append_assoc in Hout |- *.
      assert (E : (MAX_BUFFER <? byteLength out + byteLength chunk)%N = false).
      { apply N.ltb_ge. apply N.leb_le in Hout.
        rewrite !byteLength_append in Hout. lia. }
      rewrite E, <- byteLength_append. now apply IH.
    + rewrite <- append_assoc in Herr |- *.
      assert (E : (MAX_BUFFER <? byteLength err + byteLength chunk)%N = false).
      { apply N.ltb_ge. apply N.leb_le in Herr.
        rewrite !byteLength_append in Herr. lia. }
      rewrite E, <- byteLength_append. now apply IH.
    + now apply IH.
Qed.

(** Once an output was too long the promise is never fulfilled. *)
Lemma exec_overflown :
  forall (events : list proc_event) (st : xstate) (ex : js_error),
    x_ex st = Some ex -> truthy (err_name ex) = true ->
    forall r : exec_settlement,
      exec_settlement_of file args st events = Some r ->
      exists e, r = Rejected e /\ truthy (err_name e) = true.
Proof.
  induction events as [|ev events IH]; intros st ex Hex Hname r H;
    [discriminate|].
  cbn [exec_settlement_of] in H.
  destruct ev as [chunk|chunk| |message|code signal]; cbn [exec_event] in H;
    rewrite ?Hex in H.
  - now apply (IH st ex).
  - now apply (IH st ex).
  - now apply (IH st ex).
  - injection H as <-. eexists. split; reflexivity.
  - unfold exithandler in H. rewrite Hex in H. injection H as <-.
    eexists. split; [reflexivity | exact Hname].
Qed.

(** How the promise is settled: it is fulfilled only by a [close] event
    with code 0 and no signal, after chunks that add up to the two outputs
    and stay within the limit; the exception it is rejected with has a
    name. *)
Lemma exec_settled :
  forall (events : list proc_event) (out err : string),
    (byteLength out <=? MAX_BUFFER)%N = true ->
    (byteLength err <=? MAX_BUFFER)%N = true ->
    forall r : exec_settlement,
      exec_settlement_of file args
        (XState out err (byteLength out) (byteLength err) None) events
      = Some r ->
      match r with
      | Fulfilled o e =>
          exists pre post,
            events = (pre ++ CloseEvent (Some 0%Z) None :: post)%list
            /\ existsb is_exit pre = false
            /\ o = out ++ captured_stdout pre
            /\ e = err ++ captured_stderr pre
            /\ (byteLength o <=? MAX_BUFFER)%N = true
            /\ (byteLength e <=? MAX_BUFFER)%N = true
      | Rejected e => truthy (err_name e) = true
      end.
Proof.
  induction events as [|ev events IH]; intros out err Hout Herr r H;
    [discriminate|].
  destruct ev as [chunk|chunk| |message|code signal];
    cbn [exec_settlement_of exec_event x_ex x_stdout x_stderr
           x_stdoutLen x_stderrLen] in H.
  - destruct (MAX_BUFFER <? byteLength out + byteLength chunk)%N eqn:E.
    + eapply exec_overflown in H; [|reflexivity|reflexivity].
      now destruct H as (e & -> & He).
    + rewrite <- byteLength_append in H, E. apply IH in H;
        [|now apply N.leb_le, N.ltb_ge|assumption].
      destruct r as [o e|e]; [|assumption].
      destruct H as (pre & post & -> & Hq & -> & -> & Ho & He).
      exists (StdoutData chunk :: pre), post.
      cbn [app existsb is_exit captured_stdout captured_stderr orb].
      rewrite append_assoc in Ho |- *. now repeat split.
  - destruct (MAX_BUFFER <? byteLength err + byteLength chunk)%N eqn:E.
    + eapply exec_overflown in H; [|reflexivity|reflexivity].
      now destruct H as (e & -> & He).
    + rewrite <- byteLength_append in H, E. apply IH in H;
        [|assumption|now apply N.leb_le, N.ltb_ge].
      destruct r as [o e|e]; [|assumption].
      destruct H as (pre & post & -> & Hq & -> & -> & Ho & He).
      exists (StderrData chunk :: pre), post.
      cbn [app existsb is_exit captured_stdout captured_stderr orb].
      rewrite append_assoc in He |- *. now repeat split.
  - apply IH in H; [|assumption|assumption].
    destruct r as [o e|e]; [|assumption].
    destruct H as (pre & post & -> & Hq & -> & -> & Ho & He).
    exists (TimerFired :: pre), post. now repeat split.
  - injection H as <-. reflexivity.
  - unfold exithandler in H. cbn [x_ex x_stdout x_stderr] in H.
    destruct (abnormal_exit code signal) eqn:E; injection H as <-;
      [reflexivity|].
    exists [], events. rewrite !append_empty_r.
    destruct signal; [discriminate|].
    destruct code as [[| |]|]; try discriminate. now repeat split.
Qed.

(** Once an output was too long, the chunks that follow are not heard. *)
Lemma exec_deaf :
  forall (pre rest : list proc_event) (st : xstate) (ex : js_error),
    existsb is_exit pre = false ->
    x_ex st = Some ex ->
    exec_settlement_of file args st (pre ++ rest)%list
    = exec_settlement_of file args st rest.
Proof.
  induction pre as [|ev pre IH]; intros rest st ex Hq Hex; [reflexivity|].
  cbn [existsb] in Hq. apply orb_false_iff in Hq as [Hev Hq].
  destruct ev as [chunk|chunk| |message|code signal]; try discriminate;
    cbn [app exec_settlement_of exec_event]; rewrite ?Hex;
    now apply (IH rest st ex).
Qed.

(** Chunks that add up to more than the limit on one of the outputs leave
    the exception of that output set. *)
Lemma exec_too_long :
  forall (pre rest : list proc_event) (out err : string),
    existsb is_exit pre = false ->
    (byteLength out <=? MAX_BUFFER)%N = true ->
    (byteLength err <=? MAX_BUFFER)%N = true ->
    ((byteLength (out ++ captured_stdout pre) <=? MAX_BUFFER)
     && (byteLength (err ++ captured_stderr pre) <=? MAX_BUFFER))%N = false ->
    exists (st : xstate) (stream : string),
      (stream = "stdout" \/ stream = "stderr")
      /\ x_ex st = Some (maxBuffer_error stream)
      /\ exec_settlement_of file args
           (XState out err (byteLength out) (byteLength err) None)
           (pre ++ rest)%list
         = exec_settlement_of file args st rest.
Proof.
  induction pre as [|ev pre IH]; intros rest out err Hq Hout Herr Hlong.
  - cbn [captured_stdout captured_stderr] in Hlong.
    rewrite !append_empty_r, Hout, Herr in Hlong. discriminate.
  - cbn [existsb] in Hq. apply orb_false_iff in Hq as [Hev Hq].
    destruct ev as [chunk|chunk| |message|code signal]; try discriminate;
      cbn [app captured_stdout captured_stderr] in *;
      cbn [exec_settlement_of exec_event x_ex x_stdout x_stderr
             x_stdoutLen x_stderrLen].
    + destruct (MAX_BUFFER <? byteLength out + byteLength chunk)%N eqn:E.
      * exists (XState (out ++ substring 0
                                   (N.to_nat (MAX_BUFFER - byteLength out))
                                   chunk)
                         err (byteLength out + byteLength chunk)
                         (byteLength err) (Some (maxBuffer_error "stdout"))),
               "stdout".
        split; [now left|]. split; [reflexivity|].
        now apply (exec_deaf pre rest _ (maxBuffer_error "stdout")).
      * rewrite <- byteLength_append in E |- *.
        rewrite <- append_assoc in Hlong.
        apply IH; try assumption. now apply N.leb_le, N.ltb_ge.
    + destruct (MAX_BUFFER <? byteLength err + byteLength chunk)%N eqn:E.
      * exists (XState out
                         (err ++ substring 0
                                   (N.to_nat (MAX_BUFFER - byteLength err))
                                   chunk)
                         (byteLength out) (byteLength err + byteLength chunk)
                         (Some (maxBuffer_error "stderr"))),
               "stderr".
        split; [now right|]. split; [reflexivity|].
        now apply (exec_deaf pre rest _ (maxBuffer_error "stderr")).
      * rewrite <- byteLength_append in E |- *.
        rewrite <- append_assoc in Hlong.
        apply IH; try assumption. now apply N.leb_le, N.ltb_ge.
    + now apply IH.
Qed.

End Exec.

(** When the promise of [execFile] is fulfilled, and with what. *)
Lemma execFile_fulfilled_iff (file : string) (args : list string)
  (host : spawned) (out err : string) :
  execFile file args host = Some (Fulfilled out err)
  <-> truthy file = true
      /\ exists pre post,
           host = Child (pre ++ CloseEvent (Some 0%Z) None :: post)%list
           /\ existsb is_exit pre = false
           /\ within_maxBuffer pre = true
           /\ out = captured_stdout pre /\ err = captured_stderr pre.
Proof.
  unfold execFile, spawn, within_maxBuffer. split.
  - destruct (truthy file); [|discriminate].
    destruct host as [e|events]; [discriminate|]. intros H.
    apply (exec_settled file args events "" "" eq_refl eq_refl) in H.
    destruct H as (pre & post & -> & Hq & -> & -> & Ho & He).
    split; [reflexivity|]. exists pre, post.
    cbn [append] in *. rewrite Ho, He. now repeat split.
  - intros (-> & pre & post & -> & Hq & Hw & -> & ->).
    apply andb_true_iff in Hw as [Ho He].
    change (XState "" "" 0 0 None)
      with (XState "" "" (byteLength "") (byteLength "") None).
    rewrite exec_quiet by assumption. reflexivity.
Qed.

(** The exception that [execFile] hands to its caller has a name, unless
    it is one that the host threw from [spawn]. *)
Lemma execFile_rejected_named (file : string) (args : list string)
  (events : list proc_event) (e : js_error) :
  execFile file args (Child events) = Some (Rejected e) ->
  truthy (err_name e) = true.
Proof.
  unfold execFile, spawn. destruct (truthy file).
  - intros H.
    now apply (exec_settled file args events "" "" eq_refl eq_refl) in H.
  - intros H. injection H as <-. reflexivity.
Qed.

(* ================================================================== *)
(** * The command executor *)
(* ================================================================== *)

Lemma command_fulfilled (root : string) (others : list string)
  (config : Configuration) (host : spawned) (cmd : list string)
  (out err : string) :
  execFile (forester_path config) (command_args config cmd) host
  = Some (Fulfilled out err) ->
  command (root :: others) config host cmd
  = Run (Returned (Some out))
        (exec_log root others config cmd
         ++ (if truthy err then [ShowErrorMessage err] else []))%list.
Proof.
  intros H. unfold command, exec_log. cbn [getRoot outcome log]. now rewrite H.
Qed.

(** Whenever [execFile] throws or rejects, [command] returns undefined and
    shows one message: the text of the exception, then each output that is
    not empty, after a blank line. *)
Lemma command_rejected (root : string) (others : list string)
  (config : Configuration) (host : spawned) (cmd : list string)
  (e : js_error) :
  execFile (forester_path config) (command_args config cmd) host
  = Some (Rejected e) ->
  command (root :: others) config host cmd
  = Run (Returned None)
        (exec_log root others config cmd
         ++ [ShowErrorMessage
               (Error_toString e ++ paragraph_of (err_stdout e)
                ++ paragraph_of (err_stderr e))])%list.
Proof.
  intros H. unfold command, exec_log. cbn [getRoot outcome log]. now rewrite H.
Qed.

Lemma command_pending (root : string) (others : list string)
  (config : Configuration) (host : spawned) (cmd : list string) :
  execFile (forester_path config) (command_args config cmd) host = None ->
  command (root :: others) config host cmd
  = Run Pending (exec_log root others config cmd).
Proof.
  intros H. unfold command, exec_log. cbn [getRoot outcome log]. now rewrite H.
Qed.

(** A child that closes after chunks that stay within the limit. *)
Lemma execFile_closed (file : string) (args : list string)
  (pre post : list proc_event) (code : option Z) (signal : option string) :
  truthy file = true ->
  existsb is_exit pre = false ->
  within_maxBuffer pre = true ->
  execFile file args (Child (pre ++ CloseEvent code signal :: post))%list
  = Some (exithandler file args
            (XState (captured_stdout pre) (captured_stderr pre)
                    (byteLength (captured_stdout pre))
                    (byteLength (captured_stderr pre)) None) code signal).
Proof.
  intros Hfile Hq Hw. unfold execFile, spawn, within_maxBuffer in *.
  rewrite Hfile. apply andb_true_iff in Hw as [Ho He].
  change (XState "" "" 0 0 None)
    with (XState "" "" (byteLength "") (byteLength "") None).
  rewrite exec_quiet by assumption. reflexivity.
Qed.

(** A first chunk of standard output that is longer than the limit: the
    child is killed, and however it closes the caller gets the exception,
    with the chunk cut at the limit. *)
Lemma command_output_too_long (root : string) (others : list string)
  (config : Configuration) (cmd : list string) (chunk : string)
  (code : option Z) (signal : option string) (post : list proc_event) :
  truthy (forester_path config) = true ->
  (MAX_BUFFER <? byteLength chunk)%N = true ->
  command (root :: others) config
    (Child (StdoutData chunk :: CloseEvent code signal :: post)) cmd
  = Run (Returned None)
        (exec_log root others config cmd
         ++ [ShowErrorMessage
               (("RangeError [ERR_CHILD_PROCESS_STDIO_MAXBUFFER]: "
                 ++ "stdout maxBuffer length exceeded")
                ++ paragraph (substring 0 (N.to_nat MAX_BUFFER) chunk))])%list.
Proof.
  intros Hpath Hlong.
  rewrite (command_rejected root others config _ cmd
             (with_outputs (maxBuffer_error "stdout")
                (substring 0 (N.to_nat MAX_BUFFER) chunk) "")).
  - set (shown := paragraph (substring 0 (N.to_nat MAX_BUFFER) chunk)).
    cbn [with_outputs err_stdout err_stderr paragraph_of].
    fold shown. cbn [paragraph truthy]. rewrite append_empty_r. reflexivity.
  - unfold execFile, spawn. rewrite Hpath.
    cbn [exec_settlement_of exec_event x_ex x_stdout x_stderr
           x_stdoutLen x_stderrLen].
    change (0 + byteLength chunk)%N with (byteLength chunk).
    rewrite Hlong. unfold exithandler. cbn [x_ex x_stdout x_stderr append].
    reflexivity.
Qed.

(** Chunks that add up to more than the limit on one of the outputs: the
    child is killed, and however it closes [command] returns undefined and
    shows the exception that names the output. *)
Lemma command_too_long (root : string) (others : list string)
  (config : Configuration) (cmd : list string) (pre post : list proc_event)
  (code : option Z) (signal : option string) :
  truthy (forester_path config) = true ->
  existsb is_exit pre = false ->
  within_maxBuffer pre = false ->
  exists stream shown : string,
    (stream = "stdout" \/ stream = "stderr")
    /\ command (root :: others) config
         (Child (pre ++ CloseEvent code signal :: post))%list cmd
       = Run (Returned None)
             (exec_log root others config cmd
              ++ [ShowErrorMessage
                    (("RangeError [ERR_CHILD_PROCESS_STDIO_MAXBUFFER]: "
                      ++ stream ++ " maxBuffer length exceeded")
                     ++ shown)])%list.
Proof.
  intros Hpath Hq Hlong.
  destruct (exec_too_long (forester_path config) (command_args config cmd)
              pre (CloseEvent code signal :: post) "" "" Hq eq_refl eq_refl
              Hlong)
    as (st & stream & Hstream & Hex & Hrun).
  exists stream,
    (paragraph (x_stdout st) ++ paragraph (x_stderr st)).
  split; [assumption|].
  rewrite (command_rejected root others config _ cmd
             (with_outputs (maxBuffer_error stream)
                           (x_stdout st) (x_stderr st))).
  - destruct Hstream as [-> | ->]; reflexivity.
  - unfold execFile, spawn. rewrite Hpath.
    change (XState "" "" 0 0 None)
      with (XState "" "" (byteLength "") (byteLength "") None).
    rewrite Hrun. cbn [exec_settlement_of exec_event].
    unfold exithandler. now rewrite Hex.
Qed.

Lemma new_tree_output_too_long (root : string) (others : list string)
  (config : Configuration) (folder prefix : string) (template : option string)
  (chunk : string) (code : option Z) (signal : option string)
  (post : list proc_event) :
  truthy (forester_path config) = true ->
  (MAX_BUFFER <? byteLength chunk)%N = true ->
  outcome (new_tree_result (root :: others) config
             (Child (StdoutData chunk :: CloseEvent code signal :: post))
             folder prefix template)
  = Returned None.
Proof.
  intros Hpath Hlong. unfold new_tree_result.
  now rewrite command_output_too_long by assumption.
Qed.

(** C9, as the code has it.  On a child that writes no more than the
    limit of [execFile] allows on each output: if it writes nothing on the
    standard error and exits with code 0, [command] returns the standard
    output as it is and shows no message, and the handler of forester.new
    has that output without the white space at its two ends; if it exits
    with code 1, [command] returns undefined, the handler has no result, and
    one message is shown: it is not empty, and it is the text of the
    exception followed by the outputs that are not empty.  On a child that
    writes more than the limit on one of the outputs, however it closes,
    [command] returns undefined, the handler has no result, and the message
    shown starts with the exception that names that output. *)
Theorem command_executor_outcomes :
  forall (root : string) (others : list string) (config : Configuration)
         (cmd : list string) (folder prefix : string)
         (template : option string) (pre post : list proc_event),
    truthy (forester_path config) = true ->
    forallb is_data pre = true ->
    (within_maxBuffer pre = true ->
     (captured_stderr pre = "" ->
      command (root :: others) config
        (Child (pre ++ CloseEvent (Some 0%Z) None :: post))%list cmd
      = Run (Returned (Some (captured_stdout pre)))
            (several_folders_warning others
             ++ [ConsoleLogArray cmd;
                 ExecFile (forester_path config) (command_args config cmd)
                          root])%list
      /\ exists path : string,
           outcome (new_tree_result (root :: others) config
                      (Child (pre ++ CloseEvent (Some 0%Z) None :: post))%list
                      folder prefix template)
           = Returned (Some path)
           /\ trimmed_of (captured_stdout pre) path)
     /\ exists diagnostic : string,
          command (root :: others) config
            (Child (pre ++ CloseEvent (Some 1%Z) None :: post))%list cmd
          = Run (Returned None)
                (several_folders_warning others
                 ++ [ConsoleLogArray cmd;
                     ExecFile (forester_path config) (command_args config cmd)
                              root]
                 ++ [ShowErrorMessage diagnostic])%list
          /\ diagnostic <> ""
          /\ diagnostic
             = ("Error: Command failed: "
                ++ command_line (forester_path config)
                     (command_args config cmd)
                ++ newline ++ captured_stderr pre)
               ++ appended (captured_stdout pre)
               ++ appended (captured_stderr pre)
          /\ outcome (new_tree_result (root :: others) config
                        (Child (pre ++ CloseEvent (Some 1%Z) None :: post))%list
                        folder prefix template)
             = Returned None)
    /\ (within_maxBuffer pre = false ->
        forall (code : option Z) (signal : option string),
          (exists stream shown : string,
             (stream = "stdout" \/ stream = "stderr")
             /\ command (root :: others) config
                  (Child (pre ++ CloseEvent code signal :: post))%list cmd
                = Run (Returned None)
                      (several_folders_warning others
                       ++ [ConsoleLogArray cmd;
                           ExecFile (forester_path config)
                                    (command_args config cmd) root]
                       ++ [ShowErrorMessage
                             (("RangeError [ERR_CHILD_PROCESS_STDIO_MAXBUFFER]: "
                               ++ stream ++ " maxBuffer length exceeded")
                              ++ shown)])%list)
          /\ outcome (new_tree_result (root :: others) config
                        (Child (pre ++ CloseEvent code signal :: post))%list
                        folder prefix template)
             = Returned None).
Proof.
  intros root others config cmd folder prefix template pre post Hpath Hpre.
  pose proof (data_is_no_exit pre Hpre) as Hq.
  split; [intros Hw; split|].
  - intros Herr.
    assert (H : forall c,
               execFile (forester_path config) (command_args config c)
                 (Child (pre ++ CloseEvent (Some 0%Z) None :: post))%list
               = Some (Fulfilled (captured_stdout pre) "")).
    { intros c. rewrite execFile_closed by assumption.
      unfold exithandler. cbn [x_ex abnormal_exit x_stdout x_stderr].
      now rewrite Herr. }
    split.
    + rewrite (command_fulfilled _ _ _ _ _ _ _ (H cmd)).
      unfold exec_log. cbn [truthy]. now rewrite app_nil_r.
    + exists (trim (captured_stdout pre)). split; [|apply trim_trimmed].
      unfold new_tree_result.
      now rewrite (command_fulfilled _ _ _ _ _ _ _ (H _)).
  - assert (H : forall c,
               execFile (forester_path config) (command_args config c)
                 (Child (pre ++ CloseEvent (Some 1%Z) None :: post))%list
               = Some (Rejected
                         (JsError "Error" None
                            ("Command failed: "
                             ++ command_line (forester_path config)
                                  (command_args config c)
                             ++ newline ++ captured_stderr pre)
                            (Some (captured_stdout pre))
                            (Some (captured_stderr pre))))).
    { intros c. now rewrite execFile_closed by assumption. }
    eexists. split; [|split; [|split]].
    + rewrite (command_rejected _ _ _ _ _ _ (H cmd)).
      unfold exec_log. rewrite <- app_assoc. reflexivity.
    + apply append_not_empty, Error_toString_not_empty. reflexivity.
    + cbn [err_stdout err_stderr paragraph_of].
      now rewrite !paragraph_appended.
    + unfold new_tree_result.
      now rewrite (command_rejected _ _ _ _ _ _ (H _)).
  - intros Hw code signal. split.
    + destruct (command_too_long root others config cmd pre post code signal
                  Hpath Hq Hw) as (stream & shown & Hs & Hc).
      exists stream, shown. split; [assumption|]. rewrite Hc.
      unfold exec_log. now rewrite <- app_assoc.
    + destruct (command_too_long root others config
                  (new_tree_args config folder prefix template) pre post
                  code signal Hpath Hq Hw) as (stream & shown & Hs & Hc).
      unfold new_tree_result. now rewrite Hc.
Qed.

Lemma command_executor_outcomes_witness :
  let pre := [StdoutData (" /forest/trees/jms-0001.tree" ++ newline)] in
  (command ("/forest" :: []) sample_config
     (Child (pre ++ CloseEvent (Some 0%Z) None :: []))%list ["new"]
   = Run (Returned (Some (captured_stdout pre)))
         (several_folders_warning []
          ++ [ConsoleLogArray ["new"];
              ExecFile (forester_path sample_config)
                       (command_args sample_config ["new"]) "/forest"])%list
   /\ exists path : string,
        outcome (new_tree_result ("/forest" :: []) sample_config
                   (Child (pre ++ CloseEvent (Some 0%Z) None :: []))%list
                   "/forest/trees" "jms" None)
        = Returned (Some path)
        /\ trimmed_of (captured_stdout pre) path)
  /\ exists diagnostic : string,
       command ("/forest" :: []) sample_config
         (Child (pre ++ CloseEvent (Some 1%Z) None :: []))%list ["new"]
       = Run (Returned None)
             (several_folders_warning []
              ++ [ConsoleLogArray ["new"];
                  ExecFile (forester_path sample_config)
                           (command_args sample_config ["new"]) "/forest"]
              ++ [ShowErrorMessage diagnostic])%list
       /\ diagnostic <> ""
       /\ diagnostic
          = ("Error: Command failed: "
             ++ command_line (forester_path sample_config)
                  (command_args sample_config ["new"])
             ++ newline ++ captured_stderr pre)
            ++ appended (captured_stdout pre)
            ++ appended (captured_stderr pre)
       /\ outcome (new_tree_result ("/forest" :: []) sample_config
                     (Child (pre ++ CloseEvent (Some 1%Z) None :: []))%list
                     "/forest/trees" "jms" None)
          = Returned None.
Proof.
  intros pre.
  destruct (command_executor_outcomes "/forest" [] sample_config ["new"]
              "/forest/trees" "jms" None pre [] eq_refl eq_refl) as [H _].
  destruct (H eq_refl) as [Hzero Hone].
  split; [exact (Hzero eq_refl) | exact Hone].
Defined.

(** C9, as it is stated, fails for a child that writes more than the
    limit of [execFile] allows: the child is killed, and although it closes
    with code 0 and has written nothing on the standard error, [command]
    returns undefined and the handler of forester.new has no result.  Where
    [command] does return the output, it returns it untrimmed. *)
Lemma long_output_is_not_returned :
  (exists stdout : string,
     command ["/forest"] sample_config
       (Child [StdoutData stdout; CloseEvent (Some 0%Z) None]) ["new"]
     = Run (Returned None)
           [ConsoleLogArray ["new"]; ExecFile "forester" ["new"] "/forest";
            ShowErrorMessage
              (("RangeError [ERR_CHILD_PROCESS_STDIO_MAXBUFFER]: "
                ++ "stdout maxBuffer length exceeded")
               ++ paragraph (substring 0 (N.to_nat MAX_BUFFER) stdout))])
  /\ command ["/forest"] sample_config
       (Child [StdoutData " a.tree "; CloseEvent (Some 0%Z) None]) ["new"]
     = Run (Returned (Some " a.tree "))
           [ConsoleLogArray ["new"]; ExecFile "forester" ["new"] "/forest"]
  /\ ~ (forall stdout : string,
          exists result : string,
            outcome (command ["/forest"] sample_config
                       (Child [StdoutData stdout; CloseEvent (Some 0%Z) None])
                       ["new"])
            = Returned (Some result))
  /\ ~ (forall stdout : string,
          exists result : string,
            outcome (new_tree_result ["/forest"] sample_config
                       (Child [StdoutData stdout; CloseEvent (Some 0%Z) None])
                       "/forest/trees" "jms" None)
            = Returned (Some result)).
Proof.
  assert (Hlong : (MAX_BUFFER <? byteLength (doubled 21 "a"))%N = true).
  { rewrite byteLength_doubled. reflexivity. }
  split; [|split; [|split]].
  - exists (doubled 21 "a").
    now rewrite (command_output_too_long "/forest" [] sample_config ["new"]
                   (doubled 21 "a") (Some 0%Z) None [] eq_refl Hlong).
  - reflexivity.
  - intros H. destruct (H (doubled 21 "a")) as (result & Hr).
    rewrite (command_output_too_long "/forest" [] sample_config ["new"]
               (doubled 21 "a") (Some 0%Z) None [] eq_refl Hlong) in Hr.
    discriminate.
  - intros H. destruct (H (doubled 21 "a")) as (result & Hr).
    rewrite (new_tree_output_too_long "/forest" [] sample_config
               "/forest/trees" "jms" None (doubled 21 "a") (Some 0%Z) None []
               eq_refl Hlong) in Hr.
    discriminate.
Qed.

(* ================================================================== *)
(** * The anatomy of a match *)
(* ================================================================== *)

(** The second alternative after its opening bracket, with what it hands
    to its continuation: the group starts after the parenthesis. *)
Lemma link_text_captures (k : mstate -> option mstate) :
  forall (s : string) (j : nat) (cs : captures) (z : mstate),
    m (Star (NotChr "["))  (MState j s cs)
      (fun y => m (Cat (Lit "](") (Cat (Grp 2 (Star (NotChr ")"))) Eoi)) y k)
    = Some z ->
    exists a b,
      s = a ++ "](" ++ b /\ has_char "[" a = false /\ has_char ")" b = false
      /\ k (MState (j + String.length s) ""
              (set_cap 2 (j + String.length (a ++ "]("),
                          j + String.length s) cs)) = Some z.
Proof.
  induction s as [|x s IH]; intros j cs z H.
  - rewrite star_notchr_empty, lit_group_to_end in H. discriminate.
  - rewrite star_notchr_cons in H.
    destruct (Ascii.eqb x "[") eqn:Ex.
    + rewrite lit_group_to_end in H. simpl in H.
      apply Ascii.eqb_eq in Ex. subst x. discriminate.
    + destruct (m (Star (NotChr "[")) (MState (S j) s cs) _) eqn:E.
      * injection H as <-.
        destruct (IH _ _ _ E) as (a & b & -> & Ha & Hb & Hk).
        exists (String x a), b. repeat split.
        -- simpl. now rewrite Ex, Ha.
        -- exact Hb.
        -- rewrite <- Hk. simpl String.length.
           now rewrite <- !plus_n_Sm.
      * rewrite lit_group_to_end in H.
        destruct (strip "](" (String x s)) as [b|] eqn:Es; [|discriminate].
        destruct (has_char ")" b) eqn:Hb; [discriminate|].
        apply strip_Some in Es. exists "", b. repeat split; trivial.
        rewrite <- H, Es. simpl String.length.
        now replace (j + S (S (String.length b)))
          with (j + 2 + String.length b) by lia.
Qed.

(** What a match of the pattern from the index [i] is made of: an opening
    of one of the three syntaxes, then the text of the group of that
    syntax, which runs to the end and is free of the closing character. *)
Lemma tagPattern_anatomy (i : nat) (s : string) (cs : captures) (y : mstate) :
  m tagPattern (MState i s cs) Some = Some y ->
  exists (n : nat) (opening p : string),
    s = opening ++ p
    /\ y = MState (i + String.length s) ""
             (set_cap n (i + String.length opening, i + String.length s) cs)
    /\ ((n = 1 /\ has_char "}" p = false
         /\ exists cmd, In cmd command_names /\ opening = cmd ++ "{")
        \/ (n = 2 /\ has_char ")" p = false
            /\ exists linktext,
                 has_char "[" linktext = false
                 /\ opening = "[" ++ linktext ++ "](")
        \/ (n = 3 /\ has_char "]" p = false /\ opening = "[[")).
Proof.
  change (m tagPattern (MState i s cs) Some)
    with (match m command_alternative (MState i s cs) Some with
          | Some z => Some z
          | None =>
              match m markdown_alternative (MState i s cs) Some with
              | Some z => Some z
              | None => m wiki_alternative (MState i s cs) Some
              end
          end).
  destruct (m command_alternative _ _) as [z|] eqn:E1.
  { intros H. injection H as <-.
    destruct (command_alternative_sound _ _ _ _ _ E1)
      as (cmd & p & Hin & -> & Hp & Hz).
    injection Hz as <-.
    exists 1, (cmd ++ "{"), p. split; [now rewrite append_assoc|]. split.
    - rewrite (append_length cmd "{"). simpl String.length.
      now rewrite Nat.add_assoc.
    - left. repeat split; trivial. now exists cmd. }
  destruct (m markdown_alternative _ _) as [z|] eqn:E2.
  { intros H. injection H as <-.
    rewrite markdown_alternative_unfold in E2.
    destruct (strip "[" s) as [s1|] eqn:Es; [|discriminate].
    apply strip_Some in Es.
    destruct (link_text_captures _ _ _ _ _ E2) as (a & b & -> & Ha & Hb & Hz).
    injection Hz as <-. subst s.
    exists 2, ("[" ++ a ++ "]("), b. split; [|split].
    - simpl. now rewrite append_assoc.
    - simpl String.length. rewrite <- !plus_n_Sm, !Nat.add_0_r.
      reflexivity.
    - right. left. repeat split; trivial. now exists a. }
  intros H. unfold wiki_alternative in H. rewrite lit_group_to_end in H.
  destruct (strip "[[" s) as [p|] eqn:Es; [|discriminate].
  destruct (has_char "]" p) eqn:Hp; [discriminate|].
  apply strip_Some in Es. injection H as <-. subst s.
  exists 3, "[[", p. split; [reflexivity|]. split.
  - simpl String.length. rewrite <- !plus_n_Sm, !Nat.add_0_r. reflexivity.
  - right. right. auto.
Qed.

(** A result of [exec] is a match of the pattern from the first index
    where a trigger syntax opens. *)
Lemma exec_from_Some :
  forall (text : string) (i : nat) (mt : exec_array),
    exec_from tagPattern tagPattern_groups i text = Some mt ->
    exists (pre s : string) (y : mstate),
      text = pre ++ s
      /\ no_trigger_before (String.length pre) text
      /\ m tagPattern (MState (i + String.length pre) s
                         (repeat None (S tagPattern_groups))) Some = Some y
      /\ mt = ExecArray (i + String.length pre)
                (set_cap 0 (i + String.length pre, endIndex y) (caps y)).
Proof.
  induction text as [|c text IH]; intros i mt H; rewrite exec_from_eq in H.
  - destruct (m tagPattern (MState i "" _) Some) as [y|] eqn:E; [|discriminate].
    injection H as <-. exists "", "", y. rewrite Nat.add_0_r.
    repeat split; trivial. intros before after _ Hl. simpl in Hl. lia.
  - destruct (m tagPattern (MState i (String c text) _) Some) as [y|] eqn:E.
    + injection H as <-. exists "", (String c text), y. rewrite Nat.add_0_r.
      repeat split; trivial. intros before after _ Hl. simpl in Hl. lia.
    + destruct (IH _ _ H) as (pre & s & y & -> & Hno & Hm & ->).
      exists (String c pre), s, y. simpl String.length.
      rewrite <- plus_n_Sm. repeat split; trivial.
      intros before after Hs Hl Ht.
      destruct before as [|c' before].
      * simpl in Hs. subst after.
        now apply (tagPattern_complete i _ (repeat None 4)) in Ht.
      * simpl in Hs. injection Hs as <- Hs.
        apply (Hno before after Hs); [simpl in Hl; lia | exact Ht].
Qed.

(** From the result of [exec] to the match: the replacement starts where
    the group of the syntax that matched starts, and the partial text is
    the rest of the prefix text. *)
Lemma context_match_of_exec (pre opening p : string) (n idx g : nat)
  (whole : span) (e1 : nat) :
  n = 1 \/ n = 2 \/ n = 3 ->
  g = String.length pre + String.length opening ->
  exec tagPattern tagPattern_groups (pre ++ opening ++ p)
  = Some (ExecArray idx
            (set_cap 0 whole (set_cap n (g, e1) (repeat None 4)))) ->
  context_match (pre ++ opening ++ p) (String.length (pre ++ opening ++ p))
  = Match g (String.length (pre ++ opening ++ p)) p.
Proof.
  intros Hn Hg H. unfold context_match, completion_start. rewrite H.
  assert (Hs : orElse (group_start
                         (ExecArray idx
                            (set_cap 0 whole
                               (set_cap n (g, e1) (repeat None 4)))) 1)
                 (orElse (group_start
                            (ExecArray idx
                               (set_cap 0 whole
                                  (set_cap n (g, e1) (repeat None 4)))) 2)
                    (orElse (group_start
                               (ExecArray idx
                                  (set_cap 0 whole
                                     (set_cap n (g, e1) (repeat None 4)))) 3)
                       (String.length (pre ++ opening ++ p)))) = g).
  { destruct Hn as [->|[->| ->]]; reflexivity. }
  rewrite Hs. f_equal. subst g.
  rewrite <- (append_length pre opening), <- append_assoc.
  rewrite (append_length (pre ++ opening) p).
  replace (String.length (pre ++ opening) + String.length p
           - String.length (pre ++ opening))
    with (String.length p) by lia.
  apply substring_suffix.
Qed.

(** X1: whenever the matcher, with the cursor at the end of the prefix
    text, returns a match, the text is some text in which no trigger syntax
    opens, then the opening of a trigger syntax, then the partial text; the
    replacement runs from the end of the opening to the cursor, and the
    partial text has no closing character of that syntax. *)
Theorem match_is_leftmost_open_trigger :
  forall (text : string) (s e : nat) (p : string),
    context_match text (String.length text) = Match s e p ->
    e = String.length text
    /\ exists pre opening : string,
         text = pre ++ opening ++ p
         /\ s = String.length pre + String.length opening
         /\ no_trigger_before (String.length pre) text
         /\ ((has_char "}" p = false
              /\ exists cmd, In cmd command_names /\ opening = cmd ++ "{")
             \/ (has_char ")" p = false
                 /\ exists linktext,
                      has_char "[" linktext = false
                      /\ opening = "[" ++ linktext ++ "](")
             \/ (has_char "]" p = false /\ opening = "[[")).
Proof.
  intros text s e p H.
  assert (He : exists mt, exec tagPattern tagPattern_groups text = Some mt).
  { unfold context_match, completion_start in H.
    destruct (exec tagPattern tagPattern_groups text) as [mt|];
      [now exists mt | discriminate]. }
  destruct He as (mt & He). pose proof He as He'. unfold exec in He'.
  destruct (exec_from_Some _ _ _ He') as (pre & rest0 & y & -> & Hno & Hm & ->).
  destruct (tagPattern_anatomy _ _ _ _ Hm)
    as (n & opening & q & -> & -> & Hcase).
  cbn [Nat.add endIndex caps] in He.
  assert (Hn : n = 1 \/ n = 2 \/ n = 3)
    by (destruct Hcase as [(-> & _)|[(-> & _)|(-> & _)]]; auto).
  rewrite (context_match_of_exec pre opening q n _ _ _ _ Hn eq_refl He) in H.
  injection H as <- <- <-.
  split; [reflexivity|]. exists pre, opening. repeat split; trivial.
  destruct Hcase as [(_ & Hp & Hc)|[(_ & Hp & Hc)|(_ & Hp & Hc)]]; auto.
Qed.

Lemma match_is_leftmost_open_trigger_witness :
  8 = String.length "[a](b](c"
  /\ exists pre opening : string,
       "[a](b](c" = pre ++ opening ++ "c"
       /\ 7 = String.length pre + String.length opening
       /\ no_trigger_before (String.length pre) "[a](b](c"
       /\ ((has_char "}" "c" = false
            /\ exists cmd, In cmd command_names /\ opening = cmd ++ "{")
           \/ (has_char ")" "c" = false
               /\ exists linktext,
                    has_char "[" linktext = false
                    /\ opening = "[" ++ linktext ++ "](")
           \/ (has_char "]" "c" = false /\ opening = "[[")).
Proof.
  apply (match_is_leftmost_open_trigger "[a](b](c" 7 8 "c").
  vm_compute. reflexivity.
Defined.

(* ================================================================== *)
(** * The two link syntaxes *)
(* ================================================================== *)

Lemma command_alternative_needs_backslash (i : nat) (s : string)
  (cs : captures) (k : mstate -> option mstate) :
  m command_alternative (MState i (String "[" s) cs) k = None.
Proof.
  rewrite command_alternative_unfold. cbv zeta.
  miss "\transclude{". miss "\import{". miss "\export{". now miss "\ref{".
Qed.

(** Without a closing bracket ahead the link text cannot end. *)
Lemma link_text_needs_bracket (k : mstate -> option mstate) :
  forall (s : string) (j : nat) (cs : captures),
    has_char "]" s = false ->
    m (Star (NotChr "[")) (MState j s cs)
      (fun y => m (Cat (Lit "](") (Cat (Grp 2 (Star (NotChr ")"))) Eoi)) y k)
    = None.
Proof.
  induction s as [|x s IH]; intros j cs H.
  - now rewrite star_notchr_empty, lit_group_to_end.
  - simpl in H. apply orb_false_iff in H as [Hx Hs].
    assert (Hk : m (Cat (Lit "](") (Cat (Grp 2 (Star (NotChr ")"))) Eoi))
                   (MState j (String x s) cs) k = None).
    { rewrite lit_group_to_end. cbn [strip].
      now rewrite Ascii.eqb_sym, Hx. }
    rewrite star_notchr_cons.
    destruct (Ascii.eqb x "["); [exact Hk|].
    now rewrite IH.
Qed.

(** With no closing bracket in the target text, the link text ends at the
    bracket before the parenthesis. *)
Lemma link_text_exact :
  forall (a b : string) (j : nat) (cs : captures),
    has_char "[" a = false -> has_char ")" b = false ->
    has_char "]" b = false ->
    m (Star (NotChr "[")) (MState j (a ++ "](" ++ b) cs)
      (fun y => m (Cat (Lit "](") (Cat (Grp 2 (Star (NotChr ")"))) Eoi)) y Some)
    = Some (MState (j + String.length (a ++ "](" ++ b)) ""
              (set_cap 2 (j + String.length (a ++ "]("),
                          j + String.length (a ++ "](" ++ b)) cs)).
Proof.
  induction a as [|x a IH]; intros b j cs Ha Hb Hc.
  - change ("" ++ "](" ++ b) with (String "]" (String "(" b)).
    rewrite star_notchr_cons.
    replace (Ascii.eqb "]" "[") with false by reflexivity.
    rewrite link_text_needs_bracket by exact Hc.
    rewrite lit_group_to_end.
    change (strip "](" (String "]" (String "(" b))) with (Some b).
    cbv iota. rewrite Hb. simpl String.length.
    now replace (j + S (S (String.length b)))
      with (j + 2 + String.length b) by lia.
  - simpl in Ha. apply orb_false_iff in Ha as [Hx Ha].
    change (String x a ++ "](" ++ b) with (String x (a ++ "](" ++ b)).
    rewrite star_notchr_cons, Hx, IH by assumption.
    change (String x a ++ "](") with (String x (a ++ "](")).
    simpl String.length. now rewrite <- !plus_n_Sm.
Qed.

(** X2: for the wiki syntax, when two opening brackets are followed by
    text without a closing bracket up to the cursor, and no trigger syntax
    opens earlier on the line, the match is that text, from the offset
    after the brackets to the cursor. *)
Theorem wiki_partial_text :
  forall pre partial : string,
    has_char "]" partial = false ->
    no_trigger_before (String.length pre) (pre ++ "[[" ++ partial) ->
    context_match (pre ++ "[[" ++ partial)
                  (String.length (pre ++ "[[" ++ partial))
    = Match (String.length pre + 2)
            (String.length (pre ++ "[[" ++ partial)) partial.
Proof.
  intros pre partial Hp Hpre.
  eapply (context_match_of_exec pre "[[" partial 3); [auto|reflexivity|].
  unfold exec. rewrite exec_from_skip by assumption. rewrite exec_from_eq.
  change (m tagPattern (MState (0 + String.length pre) ("[[" ++ partial)
                          (repeat None (S tagPattern_groups))) Some)
    with (match m command_alternative
                  (MState (0 + String.length pre) (String "[" ("[" ++ partial))
                          (repeat None 4)) Some with
          | Some z => Some z
          | None =>
              match m markdown_alternative
                      (MState (0 + String.length pre)
                              (String "[" (String "[" partial))
                              (repeat None 4)) Some with
              | Some z => Some z
              | None =>
                  m (Cat (Lit "[[") (Cat (Grp 3 (Star (NotChr "]"))) Eoi))
                    (MState (0 + String.length pre) ("[[" ++ partial)
                            (repeat None 4)) Some
              end
          end).
  rewrite command_alternative_needs_backslash.
  rewrite markdown_alternative_unfold.
  change (strip "[" (String "[" (String "[" partial)))
    with (Some (String "[" partial)).
  cbv iota. rewrite star_notchr_cons.
  replace (Ascii.eqb "[" "[") with true by reflexivity.
  rewrite !lit_group_to_end.
  change (strip "](" (String "[" partial)) with (@None string).
  change (strip "[[" ("[[" ++ partial)) with (Some partial).
  cbv iota. rewrite Hp. reflexivity.
Qed.

Lemma wiki_partial_text_witness :
  context_match ("see " ++ "[[" ++ "jms-00")
                (String.length ("see " ++ "[[" ++ "jms-00"))
  = Match (String.length "see " + 2)
          (String.length ("see " ++ "[[" ++ "jms-00")) "jms-00".
Proof.
  apply (wiki_partial_text "see " "jms-00").
  - reflexivity.
  - apply no_trigger_before_plain; reflexivity.
Defined.

(** X3: for the link syntax, when a bracketed link text without an inner
    opening bracket and an opening parenthesis are followed by text
    without a closing parenthesis and without a closing bracket up to the
    cursor, and no trigger syntax opens earlier on the line, the match is
    that text, from the offset after the parenthesis to the cursor. *)
Theorem markdown_partial_text :
  forall pre linktext partial : string,
    has_char "[" linktext = false ->
    has_char ")" partial = false ->
    has_char "]" partial = false ->
    no_trigger_before (String.length pre)
                      (pre ++ "[" ++ linktext ++ "](" ++ partial) ->
    context_match (pre ++ "[" ++ linktext ++ "](" ++ partial)
                  (String.length (pre ++ "[" ++ linktext ++ "](" ++ partial))
    = Match (String.length pre + String.length linktext + 3)
            (String.length (pre ++ "[" ++ linktext ++ "](" ++ partial))
            partial.
Proof.
  intros pre linktext partial Hl Hp Hb Hpre.
  assert (Et : pre ++ "[" ++ linktext ++ "](" ++ partial
               = pre ++ ("[" ++ linktext ++ "](") ++ partial)
    by (simpl; now rewrite append_assoc).
  assert (Hg : String.length pre + String.length linktext + 3
               = String.length pre + String.length ("[" ++ linktext ++ "]("))
    by (simpl; rewrite append_length; simpl; lia).
  rewrite Et in *.
  eapply (context_match_of_exec pre ("[" ++ linktext ++ "](") partial 2);
    [auto|exact Hg|].
  unfold exec. rewrite exec_from_skip by assumption. rewrite exec_from_eq.
  change (m tagPattern
            (MState (0 + String.length pre)
                    (("[" ++ linktext ++ "](") ++ partial)
                    (repeat None (S tagPattern_groups))) Some)
    with (match m command_alternative
                  (MState (0 + String.length pre)
                          (String "[" ((linktext ++ "](") ++ partial))
                          (repeat None 4)) Some with
          | Some z => Some z
          | None =>
              match m markdown_alternative
                      (MState (0 + String.length pre)
                              (String "[" ((linktext ++ "](") ++ partial))
                              (repeat None 4)) Some with
              | Some z => Some z
              | None =>
                  m wiki_alternative
                    (MState (0 + String.length pre)
                            (String "[" ((linktext ++ "](") ++ partial))
                            (repeat None 4)) Some
              end
          end).
  rewrite command_alternative_needs_backslash.
  rewrite markdown_alternative_unfold.
  change (strip "[" (String "[" ((linktext ++ "](") ++ partial)))
    with (Some ((linktext ++ "](") ++ partial)).
  cbv iota. rewrite append_assoc, link_text_exact by assumption.
  cbn [endIndex caps].
  replace (0 + String.length pre + 1 + String.length (linktext ++ "]("))
    with (String.length pre + String.length linktext + 3)
    by (rewrite append_length; simpl; lia).
  reflexivity.
Qed.

Lemma markdown_partial_text_witness :
  context_match ("[" ++ "text" ++ "](" ++ "par")
                (String.length ("[" ++ "text" ++ "](" ++ "par"))
  = Match (String.length "" + String.length "text" + 3)
          (String.length ("[" ++ "text" ++ "](" ++ "par")) "par".
Proof.
  apply (markdown_partial_text "" "text" "par"); try reflexivity.
  apply (no_match_before_correct _ 0). reflexivity.
Defined.

(* ================================================================== *)
(** * The provider, from the match to the candidates *)
(* ================================================================== *)

(** X4: whenever the matcher finds a match on the text before the cursor,
    the provider asks the forest cache once, accepting a stale forest, and
    offers one candidate per entry of the answer, in its order; every
    candidate inserts the identifier of its entry and replaces the range
    from the start of the match to the cursor, on the line of the
    cursor. *)
Theorem provider_offers_forest_on_match :
  forall (config : Configuration) (doc : TextDocument) (pos : Position)
         (s e : nat) (p : string) (getForest : bool -> Forest),
    context_match (getText_to doc pos) (character pos) = Match s e p ->
    let range := {| range_start := {| line := line pos; character := s |};
                    range_end := pos |} in
    provideCompletionItems config doc pos
    = AwaitForest true (fun forest => Done (suggest config forest range))
    /\ forest_requests getForest (provideCompletionItems config doc pos) = 1
    /\ map insertText (result_of getForest (provideCompletionItems config doc pos))
       = map uri (getForest true)
    /\ map item_range (result_of getForest (provideCompletionItems config doc pos))
       = repeat range (List.length (getForest true)).
Proof.
  intros config doc pos s e p getForest H range.
  unfold context_match in H. unfold provideCompletionItems.
  destruct (completion_start (getText_to doc pos) (character pos)) as [ix|];
    [|discriminate].
  injection H as <- _ _. fold range. cbn [forest_requests result_of].
  rewrite suggest_map, !map_map. repeat split.
  cbn [item_range suggestion].
  induction (getForest true) as [|t l IH]; simpl; congruence.
Qed.

Lemma provider_offers_forest_on_match_witness :
  let range := {| range_start := {| line := 1; character := 5 |};
                  range_end := {| line := 1; character := 7 |} |} in
  provideCompletionItems sample_config ["\title{x}"; "\ref{ab}"]
                         {| line := 1; character := 7 |}
  = AwaitForest true (fun forest => Done (suggest sample_config forest range))
  /\ forest_requests (fun _ => [sample_entry])
       (provideCompletionItems sample_config ["\title{x}"; "\ref{ab}"]
                               {| line := 1; character := 7 |}) = 1
  /\ map insertText
       (result_of (fun _ => [sample_entry])
          (provideCompletionItems sample_config ["\title{x}"; "\ref{ab}"]
                                  {| line := 1; character := 7 |}))
     = map uri ((fun _ : bool => [sample_entry]) true)
  /\ map item_range
       (result_of (fun _ => [sample_entry])
          (provideCompletionItems sample_config ["\title{x}"; "\ref{ab}"]
                                  {| line := 1; character := 7 |}))
     = repeat range (List.length ((fun _ : bool => [sample_entry]) true)).
Proof.
  apply (provider_offers_forest_on_match sample_config
           ["\title{x}"; "\ref{ab}"] {| line := 1; character := 7 |}
           5 7 "ab" (fun _ => [sample_entry])).
  reflexivity.
Defined.

(* ================================================================== *)
(** * What the candidates show *)
(* ================================================================== *)

Ltac found_between a b :=
  exists a, b; cbn [orElse];
  repeat rewrite append_assoc; repeat rewrite append_empty_r;
  cbn [append]; reflexivity.

(** X5: every candidate comes from an entry of the forest and can be found
    by what the entry has: the identifier, the title and the taxon each
    occur in the filter text; the detail names the identifier, and the
    taxon when there is one; the label shows the title when there is one
    and the bracketed identifier otherwise; the documentation is the
    title. *)
Theorem candidate_shows_its_entry :
  forall (config : Configuration) (trees : Forest) (range : Range)
         (c : CompletionItem),
    In c (suggest config trees range) ->
    exists entry : ForesterTree,
      In entry trees
      /\ occurs_in (uri entry) (filterText c)
      /\ occurs_in (uri entry) (detail c)
      /\ documentation c = title entry
      /\ description (item_label c) = orElse (taxon entry) ""
      /\ match title entry with
         | Some t => occurs_in t (filterText c)
                     /\ occurs_in t (label (item_label c))
         | None => label (item_label c) = "[" ++ uri entry ++ "]"
         end
      /\ match taxon entry with
         | Some x => occurs_in x (filterText c) /\ occurs_in x (detail c)
         | None => detail c = "Tree [" ++ uri entry ++ "]"
         end.
Proof.
  intros config trees range c H. rewrite suggest_map in H.
  apply in_map_iff in H as (entry & <- & Hin).
  exists entry. split; [exact Hin|].
  cbn [suggestion filterText detail documentation item_label label
       description].
  split; [found_between "" (" " ++ orElse (title entry) "" ++ " "
                            ++ orElse (taxon entry) "")|].
  split; [found_between (orElse (taxon entry) "Tree" ++ " [") "]"|].
  split; [reflexivity|]. split; [reflexivity|]. split.
  - destruct (title entry) as [t|]; [|reflexivity]. split.
    + found_between (uri entry ++ " ") (" " ++ orElse (taxon entry) "").
    + destruct (orElse (cfg_completion_showID config) false).
      * found_between ("[" ++ uri entry ++ "] ") "".
      * found_between "" "".
  - destruct (taxon entry) as [x|]; [|reflexivity]. split.
    + found_between (uri entry ++ " " ++ orElse (title entry) "" ++ " ") "".
    + found_between "" (" [" ++ uri entry ++ "]").
Qed.

Lemma candidate_shows_its_entry_witness :
  exists entry : ForesterTree,
    In entry [sample_entry]
    /\ occurs_in (uri entry)
         (filterText (suggestion false sample_range sample_entry))
    /\ occurs_in (uri entry)
         (detail (suggestion false sample_range sample_entry))
    /\ documentation (suggestion false sample_range sample_entry)
       = title entry
    /\ description (item_label (suggestion false sample_range sample_entry))
       = orElse (taxon entry) ""
    /\ match title entry with
       | Some t =>
           occurs_in t (filterText (suggestion false sample_range sample_entry))
           /\ occurs_in t
                (label (item_label (suggestion false sample_range sample_entry)))
       | None =>
           label (item_label (suggestion false sample_range sample_entry))
           = "[" ++ uri entry ++ "]"
       end
    /\ match taxon entry with
       | Some x =>
           occurs_in x (filterText (suggestion false sample_range sample_entry))
           /\ occurs_in x (detail (suggestion false sample_range sample_entry))
       | None =>
           detail (suggestion false sample_range sample_entry)
           = "Tree [" ++ uri entry ++ "]"
       end.
Proof.
  apply (candidate_shows_its_entry sample_config [sample_entry] sample_range
           (suggestion false sample_range sample_entry)).
  simpl. left. reflexivity.
Defined.

(* ================================================================== *)
(** * More on the query runner *)
(* ================================================================== *)

Section Settling.

Variable JSON_parse : string -> option js_value.

(** Every event that is not a chunk of output settles the promise. *)
Lemma on_event_settles (st : qstate) (ev : proc_event) :
  is_data ev = false ->
  exists (handler : list effect) (s : settlement),
    on_event JSON_parse st ev
    = (QState (q_stdout st) (q_stderr st) (q_log st ++ handler)%list, Some s)
    /\ (In Kill handler <-> ev = TimerFired)
    /\ ~ In ClearTimeout handler.
Proof.
  destruct st as [out err l].
  destruct ev as [chunk|chunk| |message|code signal]; intros H;
    try discriminate; cbn [on_event q_stdout q_stderr q_log].
  - exists [Kill]. eexists. split; [reflexivity|]. split.
    + split; [reflexivity | intros _; now left].
    + intros [E|[]]. discriminate.
  - exists [ShowWarningMessage ("Forester: Critical error - " ++ message)].
    eexists. split; [reflexivity|]. split.
    + split; [intros [E|[]]; discriminate | discriminate].
    + intros [E|[]]. discriminate.
  - exists []. eexists. rewrite app_nil_r. split; [reflexivity|]. split.
    + split; [intros [] | discriminate].
    + intros [].
Qed.

Lemma queryForest_settled (root : string) (others : list string)
  (config : Configuration) (pre post : list proc_event) (ev : proc_event)
  (handler : list effect) (s : settlement) :
  truthy (forester_path config) = true ->
  forallb is_data pre = true ->
  on_event JSON_parse
    (QState (captured_stdout pre) (captured_stderr pre)
            (spawn_log root others config)) ev
  = (QState (captured_stdout pre) (captured_stderr pre)
            (spawn_log root others config ++ handler)%list, Some s) ->
  queryForest JSON_parse (root :: others) config
    (Child (pre ++ ev :: post))%list
  = after_await
      (QState (captured_stdout pre) (captured_stderr pre)
              (spawn_log root others config ++ handler)%list) s.
Proof.
  intros Hpath Hpre Hev. now apply queryForest_spawned.
Qed.

(** The events after the one that settles the promise, once the [error]
    handler has run: each [error] among them is thrown by the emitter. *)
Lemma late_effects_no_listener (events : list proc_event) :
  late_effects false events = map Uncaught (error_messages events).
Proof.
  induction events as [|ev events IH]; [reflexivity|].
  destruct ev; cbn [late_effects error_messages map]; now rewrite ?IH.
Qed.

Lemma late_effects_listener (events : list proc_event) :
  late_effects true events
  = match error_messages events with
    | [] => []
    | message :: messages =>
        ShowWarningMessage ("Forester: Critical error - " ++ message)
        :: map Uncaught messages
    end.
Proof.
  induction events as [|ev events IH]; [reflexivity|].
  destruct ev; cbn [late_effects error_messages]; try exact IH.
  now rewrite late_effects_no_listener.
Qed.

(** X6: the handlers stay installed when the promise is settled.  Of the
    events that follow, only the [error] events still do something that can
    be seen: when the promise was settled by the timer or by the [close]
    handler, the first of them (the one that a failing [kill] emits, for
    instance) shows the warning of the [error] handler, on top of the
    message of the failed query; that handler is installed once, so that
    every other [error] event is thrown and caught by nothing.  No late
    event kills the process or shows an error message. *)
Theorem late_events_show_one_warning :
  forall (pre post : list proc_event) (ev : proc_event),
    forallb is_data pre = true ->
    is_data ev = false ->
    afterwards JSON_parse (pre ++ ev :: post)%list
    = match ev, error_messages post with
      | ErrorEvent _, messages => map Uncaught messages
      | _, [] => []
      | _, message :: messages =>
          ShowWarningMessage ("Forester: Critical error - " ++ message)
          :: map Uncaught messages
      end.
Proof.
  intros pre post ev Hpre Hev. unfold afterwards.
  rewrite await_settlement_data by assumption.
  destruct ev as [chunk|chunk| |message|code signal]; try discriminate;
    cbn [await_settlement on_event s_event s_rest is_error negb].
  - rewrite late_effects_listener. now destruct (error_messages post).
  - apply late_effects_no_listener.
  - rewrite late_effects_listener. now destruct (error_messages post).
Qed.

End Settling.

Lemma late_events_show_one_warning_witness :
  afterwards ReferenceJSON.parse
    ([StdoutData "["] ++ TimerFired
     :: [ErrorEvent "kill EPERM"; CloseEvent None (Some "SIGKILL")])%list
  = match TimerFired,
          error_messages
            [ErrorEvent "kill EPERM"; CloseEvent None (Some "SIGKILL")] with
    | ErrorEvent _, messages => map Uncaught messages
    | _, [] => []
    | _, message :: messages =>
        ShowWarningMessage ("Forester: Critical error - " ++ message)
        :: map Uncaught messages
    end.
Proof.
  apply (late_events_show_one_warning ReferenceJSON.parse); reflexivity.
Defined.

Section Responses.

Variable JSON_parse : string -> option js_value.

Lemma queryForest_closed_cleanly (root : string) (others : list string)
  (config : Configuration) (pre post : list proc_event) (data : js_value) :
  truthy (forester_path config) = true ->
  forallb is_data pre = true ->
  JSON_parse (captured_stdout pre) = Some data ->
  queryForest JSON_parse (root :: others) config
    (Child (pre ++ CloseEvent (Some 0%Z) None :: post))%list
  = after_await
      (QState (captured_stdout pre) (captured_stderr pre)
              (spawn_log root others config)) (Succeeded data).
Proof.
  intros Hpath Hpre Hparse.
  apply queryForest_spawned; [assumption|assumption|].
  cbn [on_event abnormal_exit q_stdout]. now rewrite Hparse.
Qed.

(** X7: when the process closes with code 0 and no signal and its output
    parses to an array, [queryForest] returns the elements of the array,
    unchanged and in their order; it clears the timer, shows no message
    and does not kill the process. *)
Theorem array_response_returned_unchanged :
  forall (root : string) (others : list string) (config : Configuration)
         (pre post : list proc_event) (items : list js_value),
    truthy (forester_path config) = true ->
    forallb is_data pre = true ->
    JSON_parse (captured_stdout pre) = Some (JArr items) ->
    queryForest JSON_parse (root :: others) config
      (Child (pre ++ CloseEvent (Some 0%Z) None :: post))%list
    = Run (Returned items) (spawn_log root others config ++ [ClearTimeout])%list.
Proof.
  intros root others config pre post items Hpath Hpre Hparse.
  now rewrite (queryForest_closed_cleanly _ _ _ _ _ _ Hpath Hpre Hparse).
Qed.

(** X8: when the output parses to the value null, [queryForest] does not
    return: after clearing the timer it throws the TypeError of
    [Object.entries], and no message is shown. *)
Theorem null_response_is_thrown :
  forall (root : string) (others : list string) (config : Configuration)
         (pre post : list proc_event),
    truthy (forester_path config) = true ->
    forallb is_data pre = true ->
    JSON_parse (captured_stdout pre) = Some JNull ->
    queryForest JSON_parse (root :: others) config
      (Child (pre ++ CloseEvent (Some 0%Z) None :: post))%list
    = Run (Threw "TypeError: Cannot convert undefined or null to object")
          (spawn_log root others config ++ [ClearTimeout])%list.
Proof.
  intros root others config pre post Hpath Hpre Hparse.
  now rewrite (queryForest_closed_cleanly _ _ _ _ _ _ Hpath Hpre Hparse).
Qed.

(** X9: when the output parses to a number or to a boolean, which has no
    property of its own, [queryForest] returns the empty forest as for a
    failure, but shows no message. *)
Theorem scalar_response_is_empty_forest :
  forall (root : string) (others : list string) (config : Configuration)
         (pre post : list proc_event) (data : js_value),
    truthy (forester_path config) = true ->
    forallb is_data pre = true ->
    JSON_parse (captured_stdout pre) = Some data ->
    (exists lexeme, data = JNum lexeme) \/ (exists b, data = JBool b) ->
    queryForest JSON_parse (root :: others) config
      (Child (pre ++ CloseEvent (Some 0%Z) None :: post))%list
    = Run (Returned []) (spawn_log root others config ++ [ClearTimeout])%list.
Proof.
  intros root others config pre post data Hpath Hpre Hparse Hdata.
  rewrite (queryForest_closed_cleanly _ _ _ _ _ _ Hpath Hpre Hparse).
  now destruct Hdata as [(l & ->)|(b & ->)].
Qed.

(** X11: whenever an event settles the promise, [queryForest] ends, and
    it has cleared the timer by then; it kills the process only when it is
    the timer that fired. *)
Theorem timer_cleared_and_kill_only_on_timeout :
  forall (root : string) (others : list string) (config : Configuration)
         (pre post : list proc_event) (ev : proc_event),
    truthy (forester_path config) = true ->
    forallb is_data pre = true ->
    is_data ev = false ->
    let r := queryForest JSON_parse (root :: others) config
               (Child (pre ++ ev :: post))%list in
    outcome r <> Pending
    /\ In ClearTimeout (log r)
    /\ (In Kill (log r) <-> ev = TimerFired).
Proof.
  intros root others config pre post ev Hpath Hpre Hev r.
  destruct (on_event_settles JSON_parse
              (QState (captured_stdout pre) (captured_stderr pre)
                      (spawn_log root others config)) ev Hev)
    as (handler & s & Hs & Hkill & Hclear).
  cbn [q_stdout q_stderr q_log] in Hs.
  unfold r.
  rewrite (queryForest_settled JSON_parse root others config pre post ev
             handler s Hpath Hpre Hs).
  assert (Hspawn : ~ In Kill (spawn_log root others config)).
  { unfold spawn_log, several_folders_warning.
    destruct others; simpl; intuition discriminate. }
  unfold after_await. cbn [q_log q_stdout q_stderr].
  destruct s as [data|message]; [destruct (normalize data)|];
    cbn [outcome log]; (split; [discriminate|]); split;
    rewrite ?in_app_iff; simpl; intuition discriminate.
Qed.

End Responses.

Lemma array_response_returned_unchanged_witness :
  queryForest ReferenceJSON.parse ("/forest" :: []) sample_config
    (Child ([StdoutData "[1,"; StdoutData " true]"]
            ++ CloseEvent (Some 0%Z) None :: []))%list
  = Run (Returned [JNum "1"; JBool true])
        (spawn_log "/forest" [] sample_config ++ [ClearTimeout])%list.
Proof.
  apply (array_response_returned_unchanged ReferenceJSON.parse "/forest" []
           sample_config [StdoutData "[1,"; StdoutData " true]"] []
           [JNum "1"; JBool true]).
  - reflexivity.
  - reflexivity.
  - vm_compute. reflexivity.
Defined.

Lemma null_response_is_thrown_witness :
  queryForest ReferenceJSON.parse ("/forest" :: []) sample_config
    (Child ([StdoutData "null"] ++ CloseEvent (Some 0%Z) None :: []))%list
  = Run (Threw "TypeError: Cannot convert undefined or null to object")
        (spawn_log "/forest" [] sample_config ++ [ClearTimeout])%list.
Proof.
  apply (null_response_is_thrown ReferenceJSON.parse "/forest" []
           sample_config [StdoutData "null"] []).
  - reflexivity.
  - reflexivity.
  - vm_compute. reflexivity.
Defined.

Lemma scalar_response_is_empty_forest_witness :
  queryForest ReferenceJSON.parse ("/forest" :: []) sample_config
    (Child ([StdoutData "42"] ++ CloseEvent (Some 0%Z) None :: []))%list
  = Run (Returned []) (spawn_log "/forest" [] sample_config ++ [ClearTimeout])%list.
Proof.
  apply (scalar_response_is_empty_forest ReferenceJSON.parse "/forest" []
           sample_config [StdoutData "42"] [] (JNum "42")).
  - reflexivity.
  - reflexivity.
  - vm_compute. reflexivity.
  - left. exists "42". reflexivity.
Defined.

Lemma timer_cleared_and_kill_only_on_timeout_witness :
  let r := queryForest ReferenceJSON.parse ("/forest" :: []) sample_config
             (Child ([StdoutData "["] ++ TimerFired :: []))%list in
  outcome r <> Pending
  /\ In ClearTimeout (log r)
  /\ (In Kill (log r) <-> TimerFired = TimerFired).
Proof.
  apply (timer_cleared_and_kill_only_on_timeout ReferenceJSON.parse "/forest"
           [] sample_config [StdoutData "["] [] TimerFired); reflexivity.
Defined.

(* ================================================================== *)
(** * The messages of a failed query *)
(* ================================================================== *)

(** X12: when the process closes cleanly and its output is not JSON, the
    message shown holds the output twice if it is not empty: once after
    the sentence that says so, and once more, after a blank line, where
    the output of every failed query is appended. *)
Theorem invalid_json_message_repeats_output :
  forall (JSON_parse : string -> option js_value)
         (root : string) (others : list string) (config : Configuration)
         (pre post : list proc_event),
    truthy (forester_path config) = true ->
    forallb is_data pre = true ->
    JSON_parse (captured_stdout pre) = None ->
    truthy (captured_stdout pre) = true ->
    let text :=
      "Forester didn't return a valid JSON response:" ++ newline
      ++ captured_stdout pre ++ newline ++ newline ++ captured_stdout pre
      ++ paragraph (captured_stderr pre) in
    queryForest JSON_parse (root :: others) config
      (Child (pre ++ CloseEvent (Some 0%Z) None :: post))%list
    = Run (Returned [])
          (spawn_log root others config
           ++ [ClearTimeout; ConsoleLog text;
               ShowErrorMessage ("Forester query failed: " ++ text)])%list.
Proof.
  intros JSON_parse root others config pre post Hpath Hpre Hparse Hout text.
  erewrite queryForest_spawned;
    [|assumption|assumption
     |cbn [on_event abnormal_exit q_stdout]; rewrite Hparse; reflexivity].
  unfold after_await, spawn_log, text, paragraph, invalid_json_message.
  cbn [q_log q_stdout q_stderr]. rewrite Hout.
  rewrite <- !app_assoc. cbn [app]. rewrite !append_assoc. reflexivity.
Qed.

Lemma invalid_json_message_repeats_output_witness :
  let text :=
    "Forester didn't return a valid JSON response:" ++ newline
    ++ captured_stdout [StdoutData "Usage"] ++ newline ++ newline
    ++ captured_stdout [StdoutData "Usage"]
    ++ paragraph (captured_stderr [StdoutData "Usage"]) in
  queryForest ReferenceJSON.parse ("/forest" :: []) sample_config
    (Child ([StdoutData "Usage"] ++ CloseEvent (Some 0%Z) None :: []))%list
  = Run (Returned [])
        (spawn_log "/forest" [] sample_config
         ++ [ClearTimeout; ConsoleLog text;
             ShowErrorMessage ("Forester query failed: " ++ text)])%list.
Proof.
  apply (invalid_json_message_repeats_output ReferenceJSON.parse "/forest" []
           sample_config [StdoutData "Usage"] []); reflexivity.
Defined.

(** X13: when the process cannot be run, two messages are shown: first
    the warning of the [error] handler, with the message of the error, then
    the error message of the failed query, with the same message and the
    output captured so far; the query returns the empty forest and the
    process is not killed. *)
Theorem spawn_error_is_reported_twice :
  forall (JSON_parse : string -> option js_value)
         (root : string) (others : list string) (config : Configuration)
         (pre post : list proc_event) (message : string),
    truthy (forester_path config) = true ->
    forallb is_data pre = true ->
    let text :=
      message ++ paragraph (captured_stdout pre)
      ++ paragraph (captured_stderr pre) in
    queryForest JSON_parse (root :: others) config
      (Child (pre ++ ErrorEvent message :: post))%list
    = Run (Returned [])
          (spawn_log root others config
           ++ [ShowWarningMessage ("Forester: Critical error - " ++ message);
               ClearTimeout; ConsoleLog text;
               ShowErrorMessage ("Forester query failed: " ++ text)])%list.
Proof.
  intros JSON_parse root others config pre post message Hpath Hpre text.
  erewrite queryForest_spawned; [|assumption|assumption|reflexivity].
  unfold after_await, spawn_log, text. cbn [q_log q_stdout q_stderr].
  now rewrite <- !app_assoc.
Qed.

Lemma spawn_error_is_reported_twice_witness :
  let text :=
    "spawn forester ENOENT" ++ paragraph (captured_stdout [])
    ++ paragraph (captured_stderr []) in
  queryForest ReferenceJSON.parse ("/forest" :: []) sample_config
    (Child ([] ++ ErrorEvent "spawn forester ENOENT" :: []))%list
  = Run (Returned [])
        (spawn_log "/forest" [] sample_config
         ++ [ShowWarningMessage
               ("Forester: Critical error - " ++ "spawn forester ENOENT");
             ClearTimeout; ConsoleLog text;
             ShowErrorMessage ("Forester query failed: " ++ text)])%list.
Proof.
  apply (spawn_error_is_reported_twice ReferenceJSON.parse "/forest" []
           sample_config [] [] "spawn forester ENOENT"); reflexivity.
Defined.

(* ================================================================== *)
(** * The fields of an entry of the keyed format *)
(* ================================================================== *)

Lemma get_prop_replace_same (k : string) (v : js_value)
  (o : list (string * js_value)) :
  has_prop k o = true -> get_prop k (replace_prop k v o) = Some v.
Proof.
  induction o as [|[k0 v0] o IH]; simpl; [discriminate|].
  destruct (String.eqb k k0) eqn:E; simpl.
  - now rewrite String.eqb_refl.
  - now rewrite E.
Qed.

Lemma get_prop_insert_same (k : string) (v : js_value)
  (o : list (string * js_value)) :
  has_prop k o = false -> get_prop k (insert_prop k v o) = Some v.
Proof.
  induction o as [|[k0 v0] o IH]; simpl; [now rewrite String.eqb_refl|].
  intros H. apply orb_false_iff in H as [E H].
  destruct (array_index k) as [n|]; [destruct (array_index k0) as [n0|]|].
  - destruct (n <? n0)%N; simpl;
      [now rewrite String.eqb_refl | rewrite E; now apply IH].
  - simpl. now rewrite String.eqb_refl.
  - simpl. rewrite E. now apply IH.
Qed.

Lemma get_prop_define_same (k : string) (v : js_value)
  (o : list (string * js_value)) :
  get_prop k (define_prop k v o) = Some v.
Proof.
  unfold define_prop. destruct (has_prop k o) eqn:E.
  - now apply get_prop_replace_same.
  - now apply get_prop_insert_same.
Qed.

Lemma get_prop_absent (k : string) (l : list (string * js_value)) :
  ~ In k (map fst l) -> get_prop k l = None.
Proof.
  induction l as [|[k0 v0] l IH]; simpl; [reflexivity|]. intros H.
  destruct (String.eqb_spec k k0) as [->|]; [exfalso; auto|].
  apply IH. auto.
Qed.

(** Defining the properties of an object with distinct keys, one after
    the other. *)
Lemma get_prop_fold_define_distinct (k : string) :
  forall (l o : list (string * js_value)),
    NoDup (map fst l) ->
    get_prop k (fold_left (fun o kv => define_prop (fst kv) (snd kv) o) l o)
    = match get_prop k l with
      | Some v => Some v
      | None => get_prop k o
      end.
Proof.
  induction l as [|[k0 v0] l IH]; intros o H; simpl; [reflexivity|].
  inversion H as [|? ? Hnot Hrest]; subst.
  rewrite IH by assumption. simpl.
  destruct (String.eqb_spec k k0) as [->|Hn].
  - now rewrite (get_prop_absent k0 l Hnot), get_prop_define_same.
  - rewrite get_prop_define_other by assumption. reflexivity.
Qed.

(** X14: an entry of the keyed format keeps every property of its value
    (the keys of an object are distinct); the key of the mapping becomes
    its [uri] only when the value has none, otherwise the [uri] of the
    value stays. *)
Theorem keyed_entry_keeps_the_value :
  forall (id k : string) (props : list (string * js_value)),
    NoDup (map fst props) ->
    field k (with_uri id (JObj props))
    = match get_prop k props with
      | Some v => Some v
      | None => if String.eqb k "uri" then Some (JStr id) else None
      end.
Proof.
  intros id k props H. unfold with_uri, field. cbn [own_props].
  now rewrite get_prop_fold_define_distinct.
Qed.

Lemma keyed_entry_keeps_the_value_witness :
  field "uri" (with_uri "a" (JObj [("title", JStr "T"); ("uri", JStr "b")]))
  = match get_prop "uri" [("title", JStr "T"); ("uri", JStr "b")] with
    | Some v => Some v
    | None => if String.eqb "uri" "uri" then Some (JStr "a") else None
    end.
Proof.
  apply (keyed_entry_keeps_the_value "a" "uri"
           [("title", JStr "T"); ("uri", JStr "b")]).
  repeat constructor; simpl; intuition discriminate.
Defined.

(* ================================================================== *)
(** * More on the command executor *)
(* ================================================================== *)

Lemma exec_log_opens_nothing (root : string) (others : list string)
  (config : Configuration) (cmd : list string) (path : string) :
  ~ In (ShowTextDocument path) (exec_log root others config cmd).
Proof.
  unfold exec_log, several_folders_warning.
  destruct others; simpl; intuition discriminate.
Qed.

(** X15: with a workspace folder open, [command] never throws.  It
    returns the standard output exactly when the path of the executable is
    not empty, [spawn] returns the child, and the child closes with code 0
    and no signal after chunks that stay within the limit of [execFile] on
    each output; the only message it may then show is the standard error,
    when that is not empty.  Whenever it returns undefined it has shown
    exactly one message, which is not empty when [spawn] returned the
    child. *)
Theorem command_returns_output_iff_clean_exit :
  forall (root : string) (others : list string) (config : Configuration)
         (host : spawned) (cmd : list string),
    let r := command (root :: others) config host cmd in
    (forall e : string, outcome r <> Threw e)
    /\ (forall out : string,
          outcome r = Returned (Some out)
          <-> truthy (forester_path config) = true
              /\ exists pre post,
                   host = Child (pre ++ CloseEvent (Some 0%Z) None :: post)%list
                   /\ existsb is_exit pre = false
                   /\ within_maxBuffer pre = true
                   /\ out = captured_stdout pre)
    /\ (forall pre post,
          truthy (forester_path config) = true ->
          host = Child (pre ++ CloseEvent (Some 0%Z) None :: post)%list ->
          existsb is_exit pre = false ->
          within_maxBuffer pre = true ->
          log r
          = (exec_log root others config cmd
             ++ (if truthy (captured_stderr pre)
                 then [ShowErrorMessage (captured_stderr pre)] else []))%list)
    /\ (outcome r = Returned None ->
        exists diagnostic : string,
          log r = (exec_log root others config cmd
                   ++ [ShowErrorMessage diagnostic])%list
          /\ forall events, host = Child events -> diagnostic <> "").
Proof.
  intros root others config host cmd r. unfold r.
  destruct (execFile (forester_path config) (command_args config cmd) host)
    as [[out err|e]|] eqn:E.
  - rewrite (command_fulfilled _ _ _ _ _ _ _ E). cbn [outcome log].
    split; [discriminate|]. split; [|split; [|discriminate]].
    + intros out'. split.
      * intros H. injection H as <-.
        apply execFile_fulfilled_iff in E
          as (Hpath & pre & post & Hh & Hq & Hw & Ho & _).
        split; [assumption|]. now exists pre, post.
      * intros (Hpath & pre & post & Hh & Hq & Hw & ->).
        assert (E' : execFile (forester_path config) (command_args config cmd)
                       host
                     = Some (Fulfilled (captured_stdout pre)
                                       (captured_stderr pre))).
        { apply execFile_fulfilled_iff. split; [assumption|].
          now exists pre, post. }
        congruence.
    + intros pre post Hpath Hh Hq Hw.
      assert (E' : execFile (forester_path config) (command_args config cmd)
                     host
                   = Some (Fulfilled (captured_stdout pre)
                                     (captured_stderr pre))).
      { apply execFile_fulfilled_iff. split; [assumption|].
        now exists pre, post. }
      rewrite E in E'. now injection E' as _ ->.
  - rewrite (command_rejected _ _ _ _ _ _ E). cbn [outcome log].
    split; [discriminate|]. split; [|split].
    + intros out'. split; [discriminate|].
      intros (Hpath & pre & post & Hh & Hq & Hw & ->).
      assert (E' : execFile (forester_path config) (command_args config cmd)
                     host
                   = Some (Fulfilled (captured_stdout pre)
                                     (captured_stderr pre))).
      { apply execFile_fulfilled_iff. split; [assumption|].
        now exists pre, post. }
      congruence.
    + intros pre post Hpath Hh Hq Hw.
      assert (E' : execFile (forester_path config) (command_args config cmd)
                     host
                   = Some (Fulfilled (captured_stdout pre)
                                     (captured_stderr pre))).
      { apply execFile_fulfilled_iff. split; [assumption|].
        now exists pre, post. }
      congruence.
    + intros _. eexists. split; [reflexivity|]. intros events ->.
      apply append_not_empty, Error_toString_not_empty.
      exact (execFile_rejected_named _ _ _ _ E).
  - rewrite (command_pending _ _ _ _ _ E). cbn [outcome log].
    split; [discriminate|]. split; [|split; [|discriminate]].
    + intros out'. split; [discriminate|].
      intros (Hpath & pre & post & Hh & Hq & Hw & ->).
      assert (E' : execFile (forester_path config) (command_args config cmd)
                     host
                   = Some (Fulfilled (captured_stdout pre)
                                     (captured_stderr pre))).
      { apply execFile_fulfilled_iff. split; [assumption|].
        now exists pre, post. }
      congruence.
    + intros pre post Hpath Hh Hq Hw.
      assert (E' : execFile (forester_path config) (command_args config cmd)
                     host
                   = Some (Fulfilled (captured_stdout pre)
                                     (captured_stderr pre))).
      { apply execFile_fulfilled_iff. split; [assumption|].
        now exists pre, post. }
      congruence.
Qed.

(** X16: the handler of forester.new opens a document exactly when a
    workspace folder is open, the path of the executable is not empty,
    [spawn] returns the child, the child closes with code 0 and no signal
    after chunks that stay within the limit of [execFile] on each output,
    and its standard output is more than white space; the document it
    opens is at the path that the output holds between the white space at
    its two ends. *)
Theorem new_tree_opened_iff :
  forall (workspaceFolders : list string) (config : Configuration)
         (host : spawned) (folder prefix : string)
         (template : option string) (path : string),
    In (ShowTextDocument path)
       (log (forester_new workspaceFolders config host folder prefix template))
    <-> workspaceFolders <> []
        /\ path <> ""
        /\ truthy (forester_path config) = true
        /\ exists pre post,
             host = Child (pre ++ CloseEvent (Some 0%Z) None :: post)%list
             /\ existsb is_exit pre = false
             /\ within_maxBuffer pre = true
             /\ trimmed_of (captured_stdout pre) path.
Proof.
  intros ws config host folder prefix template path.
  destruct ws as [|root others].
  { split; [intros [] | intros ([] & _); reflexivity]. }
  unfold forester_new, new_tree_result.
  set (cmd := new_tree_args config folder prefix template).
  destruct (execFile (forester_path config) (command_args config cmd) host)
    as [[out err|e]|] eqn:E.
  - rewrite (command_fulfilled _ _ _ _ _ _ _ E).
    cbn [outcome log option_map].
    pose proof (proj1 (execFile_fulfilled_iff _ _ _ _ _) E)
      as (Hpath & pre & post & Hh & Hq & Hw & Ho & He).
    split.
    + intros H. apply in_app_iff in H as [H|H].
      * exfalso. apply in_app_iff in H as [H|H].
        -- now apply exec_log_opens_nothing in H.
        -- destruct (truthy err); [destruct H as [H|[]]; discriminate|].
           destruct H.
      * destruct (truthy (trim out)) eqn:Et; [|destruct H].
        destruct H as [H|[]]. injection H as <-.
        split; [discriminate|]. split.
        { intros Ep. rewrite Ep in Et. discriminate. }
        split; [assumption|]. exists pre, post.
        repeat split; try assumption. rewrite <- Ho. apply trim_trimmed.
    + intros (_ & Hp & _ & pre' & post' & Hh' & Hq' & Hw' & Ht).
      assert (E' : execFile (forester_path config) (command_args config cmd)
                     host
                   = Some (Fulfilled (captured_stdout pre')
                                     (captured_stderr pre'))).
      { apply execFile_fulfilled_iff. split; [assumption|].
        now exists pre', post'. }
      rewrite E in E'. injection E' as -> _.
      apply trimmed_of_trim in Ht. rewrite Ht.
      apply in_app_iff. right.
      destruct path; [contradiction|]. now left.
  - rewrite (command_rejected _ _ _ _ _ _ E). cbn [outcome log option_map].
    split.
    + intros H. exfalso. apply in_app_iff in H as [H|[H|[]]].
      * now apply exec_log_opens_nothing in H.
      * discriminate.
    + intros (_ & _ & Hpath & pre' & post' & Hh' & Hq' & Hw' & _).
      assert (E' : execFile (forester_path config) (command_args config cmd)
                     host
                   = Some (Fulfilled (captured_stdout pre')
                                     (captured_stderr pre'))).
      { apply execFile_fulfilled_iff. split; [assumption|].
        now exists pre', post'. }
      congruence.
  - rewrite (command_pending _ _ _ _ _ E). cbn [outcome log option_map].
    split.
    + intros H. exfalso. now apply exec_log_opens_nothing in H.
    + intros (_ & _ & Hpath & pre' & post' & Hh' & Hq' & Hw' & _).
      assert (E' : execFile (forester_path config) (command_args config cmd)
                     host
                   = Some (Fulfilled (captured_stdout pre')
                                     (captured_stderr pre'))).
      { apply execFile_fulfilled_iff. split; [assumption|].
        now exists pre', post'. }
      congruence.
Qed.

(* ================================================================== *)
(** * Sessions *)
(* ================================================================== *)

Lemma bind_ret_l {A B : Type} (a : A) (f : A -> session B) :
  bind (ret a) f = f a.
Proof. unfold bind, ret. simpl. now destruct (f a). Qed.

Lemma bind_returned {A B : Type} (x : session A) (f : A -> session B) (a : A) :
  ended x = Returned a ->
  bind x f = Session (ended (f a)) (trace x ++ trace (f a)).
Proof. intros H. unfold bind. now rewrite H. Qed.

Lemma bind_threw {A B : Type} (x : session A) (f : A -> session B)
  (e : string) :
  ended x = Threw e -> bind x f = Session (Threw e) (trace x).
Proof. intros H. unfold bind. now rewrite H. Qed.

(* ================================================================== *)
(** * Templates *)
(* ================================================================== *)

Lemma substring_prefix (a b : string) :
  substring 0 (String.length a) (a ++ b) = a.
Proof.
  induction a as [|c a IH]; simpl; [now destruct b | now rewrite IH].
Qed.

Lemma substring_split :
  forall (n : string) (k : nat),
    k <= String.length n ->
    n = substring 0 k n ++ substring k (String.length n - k) n.
Proof.
  induction n as [|c n IH]; intros k Hk.
  - simpl in Hk. assert (k = 0) by lia. subst. reflexivity.
  - destruct k as [|k].
    + simpl. now rewrite substring_all.
    + simpl in Hk |- *. f_equal. apply IH. lia.
Qed.

Lemma endsWith_append (t suffix : string) : endsWith suffix (t ++ suffix) = true.
Proof.
  unfold endsWith. rewrite append_length.
  replace (String.length t + String.length suffix - String.length suffix)
    with (String.length t) by lia.
  rewrite substring_suffix, String.eqb_refl.
  apply andb_true_iff. split; [apply Nat.leb_le; lia | reflexivity].
Qed.

Lemma slice_off_append (t suffix : string) :
  slice_off (String.length suffix) (t ++ suffix) = t.
Proof.
  unfold slice_off. rewrite append_length.
  replace (String.length t + String.length suffix - String.length suffix)
    with (String.length t) by lia.
  apply substring_prefix.
Qed.

Lemma endsWith_inv (suffix n : string) :
  endsWith suffix n = true ->
  n = slice_off (String.length suffix) n ++ suffix.
Proof.
  unfold endsWith, slice_off. intros H.
  apply andb_true_iff in H as [Hl He].
  apply Nat.leb_le in Hl. apply String.eqb_eq in He.
  pose proof (substring_split n (String.length n - String.length suffix))
    as Hs.
  replace (String.length n - (String.length n - String.length suffix))
    with (String.length suffix) in Hs by lia.
  rewrite He in Hs. apply Hs. lia.
Qed.

(** X17: with a workspace folder open, [getAvailableTemplates] returns
    the names of the templates followed by the entry for no template.  A
    name is in the list exactly when the folder templates of the root has
    a plain file of that name followed by the extension .tree; when the
    folder cannot be read, the list is the entry for no template alone. *)
Theorem available_templates_are_the_tree_files :
  forall (w : World) (root : string) (others : list string),
    folders w = root :: others ->
    exists names : list string,
      ended (getAvailableTemplates w)
      = Returned (names ++ ["(No template)"])%list
      /\ match readDirectory w root "templates" with
         | Some files =>
             forall t : string,
               In t names <-> In (t ++ ".tree", FileType_File) files
         | None => names = []
         end.
Proof.
  intros w root others Hw.
  unfold getAvailableTemplates. rewrite Hw.
  cbn [getRoot lift bind emit ret ended trace outcome].
  destruct (readDirectory w root "templates") as [files|] eqn:Ed.
  - eexists. split; [reflexivity|]. intros t.
    rewrite in_map_iff. split.
    + intros ([n ft] & <- & Hin). apply filter_In in Hin as [Hin Hf].
      cbn [fst snd] in *. apply andb_true_iff in Hf as [Hft He].
      apply N.eqb_eq in Hft. subst ft.
      pose proof (endsWith_inv ".tree" n He) as E.
      cbn [String.length] in E. now rewrite <- E.
    + intros Hin. exists (t ++ ".tree", FileType_File). split.
      * apply (slice_off_append t ".tree").
      * apply filter_In. split; [exact Hin|]. cbn [fst snd].
        now rewrite (endsWith_append t ".tree").
  - exists []. split; reflexivity.
Qed.

Lemma available_templates_are_the_tree_files_witness :
  exists names : list string,
    ended (getAvailableTemplates sample_world)
    = Returned (names ++ ["(No template)"])%list
    /\ match readDirectory sample_world "/forest" "templates" with
       | Some files =>
           forall t : string,
             In t names <-> In (t ++ ".tree", FileType_File) files
       | None => names = []
       end.
Proof.
  apply (available_templates_are_the_tree_files sample_world "/forest" []).
  reflexivity.
Defined.

(** X18: [getTemplate] never returns the entry for no template: where a
    template is returned it is another string.  When the default template
    is set and not empty, the template returned is that default, and
    nothing is read and nobody is asked. *)
Theorem template_is_never_the_no_template_entry :
  forall (w : World) (s : Settings) (t : string),
    ended (getTemplate w s) = Returned (Some t) ->
    t <> "(No template)"
    /\ (falsy (defaultTemplate s) = false ->
        defaultTemplate s = Some t /\ trace (getTemplate w s) = []).
Proof.
  intros w s t. unfold getTemplate.
  destruct (defaultTemplate s) as [d|] eqn:Ed; [destruct (truthy d) eqn:Et|].
  - cbn [ret ended trace].
    destruct (String.eqb_spec d no_template) as [|Hn]; [discriminate|].
    intros H. injection H as <-. split; [exact Hn|]. intros _. now split.
  - unfold getAvailableTemplates. destruct (folders w) as [|root others].
    + discriminate.
    + cbn [getRoot lift bind emit ret ended trace outcome falsy].
      rewrite Et. cbn [negb].
      destruct (showQuickPick w template_pick _) as [p|]; [|discriminate].
      destruct (String.eqb_spec p no_template) as [|Hn]; [discriminate|].
      cbn [ret ended]. intros H. injection H as <-.
      split; [exact Hn | discriminate].
  - unfold getAvailableTemplates. destruct (folders w) as [|root others].
    + discriminate.
    + cbn [getRoot lift bind emit ret ended trace outcome falsy].
      destruct (showQuickPick w template_pick _) as [p|]; [|discriminate].
      destruct (String.eqb_spec p no_template) as [|Hn]; [discriminate|].
      cbn [ret ended]. intros H. injection H as <-.
      split; [exact Hn | discriminate].
Qed.

Lemma template_is_never_the_no_template_entry_witness :
  "basic" <> "(No template)"
  /\ (falsy (defaultTemplate sample_settings) = false ->
      defaultTemplate sample_settings = Some "basic"
      /\ trace (getTemplate sample_world sample_settings) = []).
Proof.
  apply (template_is_never_the_no_template_entry sample_world sample_settings
           "basic").
  vm_compute. reflexivity.
Defined.

(* ================================================================== *)
(** * Setting a default and using it *)
(* ================================================================== *)

(** X19: when the input box of [forester.setDefaultPrefix] gives a prefix
    that is not empty and the setting can be written, the prefix is stored,
    the user is told, the other settings stay, and from then on [getPrefix]
    returns that prefix in every world without reading a file or asking.
    When the box is dismissed or left empty, the settings stay as they
    were and nothing is written. *)
Theorem default_prefix_is_used_once_set :
  forall (w : World) (s : Settings),
    let options := default_prefix_input (orDefault (defaultPrefix s) "") in
    (forall p : string,
       showInputBox w options = Some p -> truthy p = true ->
       updateSetting w "defaultPrefix" p = None ->
       exists s' : Settings,
         setDefaultPrefix w s
         = Session (Returned s')
             [AskInputBox options; UpdateSetting "defaultPrefix" p;
              ShowInformationMessage ("Default prefix set to: " ++ p)]
         /\ defaultPrefix s' = Some p
         /\ settings s' = settings s
         /\ defaultTemplate s' = defaultTemplate s
         /\ forall w' : World,
              getPrefix w' s' = Session (Returned (Some p)) [])
    /\ (falsy (showInputBox w options) = true ->
        setDefaultPrefix w s = Session (Returned s) [AskInputBox options]).
Proof.
  intros w s options. unfold setDefaultPrefix. fold options. split.
  - intros p Hp Ht Hu. rewrite Hp, Ht.
    cbn [bind emit ret ended trace]. rewrite Hu.
    eexists. split; [reflexivity|]. repeat split.
    intros w'. unfold getPrefix. cbn [defaultPrefix]. now rewrite Ht.
  - intros H. destruct (showInputBox w options) as [p|]; [|reflexivity].
    simpl in H. now destruct (truthy p).
Qed.

Lemma default_prefix_is_used_once_set_witness :
  let options :=
    default_prefix_input (orDefault (defaultPrefix sample_settings) "") in
  exists s' : Settings,
    setDefaultPrefix sample_world sample_settings
    = Session (Returned s')
        [AskInputBox options; UpdateSetting "defaultPrefix" "jms";
         ShowInformationMessage ("Default prefix set to: " ++ "jms")]
    /\ defaultPrefix s' = Some "jms"
    /\ settings s' = settings sample_settings
    /\ defaultTemplate s' = defaultTemplate sample_settings
    /\ forall w' : World,
         getPrefix w' s' = Session (Returned (Some "jms")) [].
Proof.
  apply (proj1 (default_prefix_is_used_once_set sample_world sample_settings)
           "jms"); reflexivity.
Defined.

(** X20: with a workspace folder open, [forester.setDefaultTemplate]
    offers the list of [getAvailableTemplates].  When an item is picked
    and the setting can be written, the item is stored as it is and the
    other settings stay; from then on, if it is not the empty string,
    [getTemplate] returns it in every world without reading a folder or
    asking, and returns no template when the item is the entry for no
    template.  When the pick is dismissed the settings stay. *)
Theorem default_template_is_used_once_set :
  forall (w : World) (s : Settings) (root : string) (others : list string),
    folders w = root :: others ->
    exists templates : list string,
      ended (getAvailableTemplates w) = Returned templates
      /\ match showQuickPick w default_template_pick templates with
         | Some t =>
             updateSetting w "defaultTemplate" t = None ->
             exists s' : Settings,
               ended (setDefaultTemplate w s) = Returned s'
               /\ defaultTemplate s' = Some t
               /\ defaultPrefix s' = defaultPrefix s
               /\ settings s' = settings s
               /\ (truthy t = true ->
                   forall w' : World,
                     getTemplate w' s'
                     = Session (Returned (if String.eqb t "(No template)"
                                          then None else Some t)) [])
         | None => ended (setDefaultTemplate w s) = Returned s
         end.
Proof.
  intros w s root others Hw.
  unfold setDefaultTemplate, getAvailableTemplates. rewrite Hw.
  cbn [getRoot lift bind emit ret ended trace outcome].
  eexists. split; [reflexivity|].
  destruct (showQuickPick w default_template_pick _) as [t|] eqn:Ep.
  - intros Hu. rewrite Hu. eexists. split; [reflexivity|]. repeat split.
    intros Ht w'. unfold getTemplate. cbn [defaultTemplate]. now rewrite Ht.
  - reflexivity.
Qed.

Lemma default_template_is_used_once_set_witness :
  exists templates : list string,
    ended (getAvailableTemplates sample_world) = Returned templates
    /\ match showQuickPick sample_world default_template_pick templates with
       | Some t =>
           updateSetting sample_world "defaultTemplate" t = None ->
           exists s' : Settings,
             ended (setDefaultTemplate sample_world sample_settings)
             = Returned s'
             /\ defaultTemplate s' = Some t
             /\ defaultPrefix s' = defaultPrefix sample_settings
             /\ settings s' = settings sample_settings
             /\ (truthy t = true ->
                 forall w' : World,
                   getTemplate w' s'
                   = Session (Returned (if String.eqb t "(No template)"
                                        then None else Some t)) [])
       | None =>
           ended (setDefaultTemplate sample_world sample_settings)
           = Returned sample_settings
       end.
Proof.
  apply (default_template_is_used_once_set sample_world sample_settings
           "/forest" []).
  reflexivity.
Defined.

(* ================================================================== *)
(** * The tree directories *)
(* ================================================================== *)

(** X21: [getTreesDirectories] never throws, whatever the workspace and
    the file system are.  It returns the list of the key [trees] of the
    configuration file when the file is read and has one, the empty list
    included, and the single directory [trees] in every other case: no
    workspace folder, a file that cannot be read or parsed, or no such
    key. *)
Theorem trees_directories_never_throw :
  forall (w : World) (s : Settings),
    exists dirs : list string,
      ended (getTreesDirectories w s) = Returned dirs
      /\ ((exists (root : string) (others : list string)
                  (c : option ForestConfig),
             folders w = root :: others
             /\ readToml w root (orDefault (cfg_config (settings s))
                                           "forest.toml") = inr c
             /\ config_trees c = Some dirs)
          \/ (dirs = ["trees"]
              /\ forall (root : string) (others : list string)
                        (c : option ForestConfig),
                   folders w = root :: others ->
                   readToml w root (orDefault (cfg_config (settings s))
                                              "forest.toml") = inr c ->
                   config_trees c = None)).
Proof.
  intros w s. unfold getTreesDirectories, getForestConfig.
  destruct (folders w) as [|root others] eqn:Ew.
  - exists ["trees"]. split; [reflexivity|]. right. split; [reflexivity|].
    discriminate.
  - cbn [getRoot lift bind emit ret throw try_catch ended trace outcome].
    destruct (readToml w root _) as [error|c] eqn:Er.
    + exists ["trees"]. split; [reflexivity|]. right. split; [reflexivity|].
      intros root' others' c' H. injection H as <- <-. congruence.
    + cbn [ret bind ended trace try_catch].
      destruct (config_trees c) as [dirs|] eqn:Ec.
      * exists dirs. split; [reflexivity|]. left.
        now exists root, others, c.
      * exists ["trees"]. split; [reflexivity|]. right.
        split; [reflexivity|].
        intros root' others' c' H Hr. injection H as <- <-. congruence.
Qed.

Lemma trees_directories_returned (w : World) (s : Settings) :
  exists dirs : list string, ended (getTreesDirectories w s) = Returned dirs.
Proof.
  unfold getTreesDirectories, getForestConfig.
  destruct (folders w) as [|root others]; [now exists ["trees"]|].
  cbn [getRoot lift bind emit ret throw try_catch ended trace outcome].
  destruct (readToml w root _) as [error|c]; [now exists ["trees"]|].
  cbn [ret bind ended trace try_catch]. now eexists.
Qed.

(** X22: with a workspace folder open, [getRootTreeDirectory] joins the
    root with the first of the directories of [getTreesDirectories]; when
    the configuration file lists no directory at all, the fragment it
    passes to [Uri.joinPath] is undefined. *)
Theorem root_tree_directory_is_the_first :
  forall (w : World) (s : Settings) (root : string) (others : list string),
    folders w = root :: others ->
    exists dirs : list string,
      ended (getTreesDirectories w s) = Returned dirs
      /\ ended (getRootTreeDirectory w s)
         = Returned {| jp_base := root; jp_fragment := hd_error dirs |}
      /\ forall c : option ForestConfig,
           readToml w root (orDefault (cfg_config (settings s)) "forest.toml")
           = inr c ->
           config_trees c = Some [] ->
           hd_error dirs = None.
Proof.
  intros w s root others Hw.
  destruct (trees_directories_returned w s) as (dirs & Hd).
  exists dirs. split; [exact Hd|]. split.
  - unfold getRootTreeDirectory, bind. rewrite Hw.
    cbn [getRoot lift outcome ended]. rewrite Hd. cbn [ret ended].
    now destruct dirs.
  - intros c Hr Hc. revert Hd. unfold getTreesDirectories, getForestConfig.
    rewrite Hw.
    cbn [getRoot lift bind emit ret throw try_catch ended trace outcome].
    rewrite Hr. cbn [ret bind ended trace try_catch]. rewrite Hc.
    cbn [orElse]. intros H. now injection H as <-.
Qed.

Lemma root_tree_directory_is_the_first_witness :
  exists dirs : list string,
    ended (getTreesDirectories sample_world sample_settings) = Returned dirs
    /\ ended (getRootTreeDirectory sample_world sample_settings)
       = Returned {| jp_base := "/forest"; jp_fragment := hd_error dirs |}
    /\ forall c : option ForestConfig,
         readToml sample_world "/forest"
           (orDefault (cfg_config (settings sample_settings)) "forest.toml")
         = inr c ->
         config_trees c = Some [] ->
         hd_error dirs = None.
Proof.
  apply (root_tree_directory_is_the_first sample_world sample_settings
           "/forest" []).
  reflexivity.
Defined.

(* ================================================================== *)
(** * The command forester.new, from the folder to the new tree *)
(* ================================================================== *)

Lemma warning_runs_nothing (others : list string) :
  existsb runs_forester (map Did (several_folders_warning others)) = false.
Proof. now destruct others. Qed.

Lemma getAvailableTemplates_runs_nothing (w : World) :
  existsb runs_forester (trace (getAvailableTemplates w)) = false.
Proof.
  unfold getAvailableTemplates. destruct (folders w) as [|root others].
  - reflexivity.
  - cbn [getRoot lift bind emit ret ended trace outcome log].
    rewrite !existsb_app, warning_runs_nothing. reflexivity.
Qed.

Lemma getTemplate_runs_nothing (w : World) (s : Settings) :
  existsb runs_forester (trace (getTemplate w s)) = false.
Proof.
  assert (H : existsb runs_forester
                (trace (bind (getAvailableTemplates w)
                          (fun templates =>
                             bind (emit (AskQuickPick templates template_pick))
                               (fun _ =>
                                  match showQuickPick w template_pick templates
                                  with
                                  | None => ret None
                                  | Some template =>
                                      if String.eqb template no_template
                                      then ret None
                                      else ret (Some template)
                                  end)))) = false).
  { pose proof (getAvailableTemplates_runs_nothing w) as Ha.
    unfold bind at 1.
    destruct (ended (getAvailableTemplates w)) as [templates| |];
      cbn [trace]; try exact Ha.
    rewrite existsb_app, Ha.
    destruct (showQuickPick w template_pick templates) as [t|];
      [destruct (String.eqb t no_template)|]; reflexivity. }
  unfold getTemplate.
  destruct (defaultTemplate s) as [d|]; [destruct (truthy d)|];
    [reflexivity | exact H | exact H].
Qed.

Lemma getForestConfig_runs_nothing (w : World) (s : Settings) :
  existsb runs_forester (trace (getForestConfig w s)) = false.
Proof.
  unfold getForestConfig. destruct (folders w) as [|root others].
  - reflexivity.
  - cbn [getRoot lift bind emit ret throw ended trace outcome log].
    destruct (readToml w root _);
      cbn [ended trace throw ret];
      rewrite !existsb_app, warning_runs_nothing; reflexivity.
Qed.

Lemma getPrefix_runs_nothing (w : World) (s : Settings) :
  existsb runs_forester (trace (getPrefix w s)) = false.
Proof.
  pose proof (getForestConfig_runs_nothing w s) as Hc.
  unfold getPrefix.
  destruct (defaultPrefix s) as [d|]; [destruct (truthy d)|];
    try reflexivity;
    (unfold bind at 1;
     destruct (ended (getForestConfig w s)) as [c| |];
     cbn [trace]; try exact Hc;
     rewrite existsb_app, Hc;
     destruct (config_prefixes c) as [prefixes|];
     [destruct (showQuickPick w prefix_pick prefixes) as [[|a p]|]|];
     reflexivity).
Qed.

(** X23: the handler of forester.new starts the forester executable only
    when it was given a folder and [getPrefix] returned a prefix; the
    arguments then are new, the folder, the prefix, the template that
    [getTemplate] returned and the other options, and the executable is the
    one of the settings. *)
Theorem new_tree_needs_folder_and_prefix :
  forall (w : World) (s : Settings) (folder : option string)
         (path : string) (args : list string) (cwd : string),
    In (Did (ExecFile path args cwd)) (trace (forester_new_command w s folder)) ->
    exists (f p : string) (template : option string),
      folder = Some f
      /\ ended (getPrefix w s) = Returned (Some p)
      /\ ended (getTemplate w s) = Returned template
      /\ path = forester_path (settings s)
      /\ args = command_args (settings s)
                  (new_tree_args (settings s) f p template).
Proof.
  intros w s folder path args cwd H.
  assert (Hrun : forall l, In (Did (ExecFile path args cwd)) l ->
                           existsb runs_forester l = true).
  { intros l Hl. apply existsb_exists. now exists (Did (ExecFile path args cwd)). }
  destruct folder as [f|]; [|destruct H].
  unfold forester_new_command in H. unfold bind at 1 in H.
  pose proof (getPrefix_runs_nothing w s) as Hp.
  destruct (ended (getPrefix w s)) as [[p|]| |] eqn:Ep; cbn [trace ended] in H;
    try (apply Hrun in H; rewrite ?existsb_app, Hp in H; discriminate).
  apply in_app_iff in H as [H|H];
    [apply Hrun in H; congruence|].
  unfold bind in H.
  pose proof (getTemplate_runs_nothing w s) as Ht.
  destruct (ended (getTemplate w s)) as [template| |] eqn:Et;
    cbn [trace ended] in H;
    try (apply Hrun in H; rewrite ?existsb_app, Ht in H; discriminate).
  apply in_app_iff in H as [H|H];
    [apply Hrun in H; congruence|].
  exists f, p, template. repeat split.
  - cbn [lift trace] in H. apply in_map_iff in H as (e & He & Hin).
    injection He as ->. revert Hin.
    unfold forester_new, new_tree_result, command.
    destruct (folders w) as [|root others]; [intros []|].
    cbn [getRoot outcome log].
    destruct (execFile _ _ (child w)) as [[out err|e]|];
      cbn [outcome log option_map];
      try destruct (truthy (trim out)); try destruct (truthy err);
      unfold several_folders_warning; destruct others; simpl;
      intuition congruence.
  - cbn [lift trace] in H. apply in_map_iff in H as (e & He & Hin).
    injection He as ->. revert Hin.
    unfold forester_new, new_tree_result, command.
    destruct (folders w) as [|root others]; [intros []|].
    cbn [getRoot outcome log].
    destruct (execFile _ _ (child w)) as [[out err|e]|];
      cbn [outcome log option_map];
      try destruct (truthy (trim out)); try destruct (truthy err);
      unfold several_folders_warning; destruct others; simpl;
      intuition congruence.
Qed.

Lemma new_tree_needs_folder_and_prefix_witness :
  exists (f p : string) (template : option string),
    Some "/forest/trees" = Some f
    /\ ended (getPrefix sample_world sample_settings) = Returned (Some p)
    /\ ended (getTemplate sample_world sample_settings) = Returned template
    /\ "forester" = forester_path (settings sample_settings)
    /\ ["new"; "--dest"; "/forest/trees"; "--prefix"; "jms"; "--template=basic"]
       = command_args (settings sample_settings)
           (new_tree_args (settings sample_settings) f p template).
Proof.
  apply (new_tree_needs_folder_and_prefix sample_world sample_settings
           (Some "/forest/trees") "forester"
           ["new"; "--dest"; "/forest/trees"; "--prefix"; "jms";
            "--template=basic"] "/forest").
  vm_compute. do 5 right. left. reflexivity.
Defined.

(** X24: when no default prefix is set and the configuration file cannot
    be read or parsed, the handler of forester.new ends with the exception
    of the read: nobody is asked and forester is not started.  (The tree
    directories, by contrast, fall back to a default.) *)
Theorem unreadable_configuration_stops_new_tree :
  forall (w : World) (s : Settings) (root : string) (others : list string)
         (folder error : string),
    folders w = root :: others ->
    falsy (defaultPrefix s) = true ->
    readToml w root (orDefault (cfg_config (settings s)) "forest.toml")
    = inl error ->
    forester_new_command w s (Some folder)
    = Session (Threw error)
        (map Did (several_folders_warning others)
         ++ [ReadToml root (orDefault (cfg_config (settings s)) "forest.toml")])
    /\ ended (getTreesDirectories w s) = Returned ["trees"].
Proof.
  intros w s root others folder error Hw Hd Hr. split.
  - unfold forester_new_command, getPrefix, getForestConfig.
    destruct (defaultPrefix s) as [d|];
      [simpl in Hd; destruct (truthy d); [discriminate|]|];
      rewrite Hw;
      cbn [getRoot lift bind emit ret throw ended trace outcome log];
      rewrite Hr; cbn [throw ended trace]; now rewrite app_nil_r.
  - unfold getTreesDirectories, getForestConfig. rewrite Hw.
    cbn [getRoot lift bind emit ret throw try_catch ended trace outcome].
    now rewrite Hr.
Qed.

Lemma unreadable_configuration_stops_new_tree_witness :
  forester_new_command sample_world
    {| settings := {| cfg_path := None; cfg_config := Some "other.toml";
                      cfg_completion_showID := None;
                      cfg_create_random := None |};
       defaultPrefix := None; defaultTemplate := None |}
    (Some "/forest/trees")
  = Session (Threw "ENOENT: no such file or directory")
      (map Did (several_folders_warning [])
       ++ [ReadToml "/forest" (orDefault (Some "other.toml") "forest.toml")])
  /\ ended (getTreesDirectories sample_world
              {| settings := {| cfg_path := None;
                                cfg_config := Some "other.toml";
                                cfg_completion_showID := None;
                                cfg_create_random := None |};
                 defaultPrefix := None; defaultTemplate := None |})
     = Returned ["trees"].
Proof.
  apply (unreadable_configuration_stops_new_tree sample_world
           {| settings := {| cfg_path := None; cfg_config := Some "other.toml";
                             cfg_completion_showID := None;
                             cfg_create_random := None |};
              defaultPrefix := None; defaultTemplate := None |}
           "/forest" [] "/forest/trees" "ENOENT: no such file or directory");
    reflexivity.
Defined.

(** X25: when the default prefix and the default template are both set
    and not empty, the handler of forester.new reads no file and asks
    nobody: all it does is what [command] does for the new tree, with that
    prefix and that template (none when the default is the entry for no
    template), and then opening the tree. *)
Theorem defaults_make_new_tree_silent :
  forall (w : World) (s : Settings) (folder p d : string),
    defaultPrefix s = Some p -> truthy p = true ->
    defaultTemplate s = Some d -> truthy d = true ->
    forester_new_command w s (Some folder)
    = lift (forester_new (folders w) (settings s) (child w) folder p
              (if String.eqb d "(No template)" then None else Some d)).
Proof.
  intros w s folder p d Hp Htp Hd Htd.
  unfold forester_new_command, getPrefix, getTemplate.
  rewrite Hp, Htp, Hd, Htd, !bind_ret_l. reflexivity.
Qed.

Lemma defaults_make_new_tree_silent_witness :
  forester_new_command sample_world settled_settings (Some "/forest/trees")
  = lift (forester_new (folders sample_world) (settings settled_settings)
            (child sample_world) "/forest/trees" "jms"
            (if String.eqb "basic" "(No template)" then None else Some "basic")).
Proof.
  apply (defaults_make_new_tree_silent sample_world settled_settings
           "/forest/trees" "jms" "basic"); reflexivity.
Defined.

(* ================================================================== *)
(** * The prefix, when no default is set *)
(* ================================================================== *)

(** X26: when no default prefix is set and the configuration file is
    read, [getPrefix] shows the quick pick exactly when the file has the
    key [prefixes], and the input box exactly when the quick pick gave
    nothing: it was not shown, it was dismissed, or the item picked is the
    empty string.  The prefix returned is then the answer of the input box
    as it is, and otherwise the item picked. *)
Theorem prefix_is_picked_or_typed :
  forall (w : World) (s : Settings) (root : string) (others : list string)
         (c : option ForestConfig),
    folders w = root :: others ->
    falsy (defaultPrefix s) = true ->
    readToml w root (orDefault (cfg_config (settings s)) "forest.toml")
    = inr c ->
    let picked := match config_prefixes c with
                  | Some prefixes => showQuickPick w prefix_pick prefixes
                  | None => None
                  end in
    ended (getPrefix w s)
    = Returned (if falsy picked then showInputBox w prefix_input else picked)
    /\ (In (AskInputBox prefix_input) (trace (getPrefix w s))
        <-> falsy picked = true)
    /\ ((exists prefixes, In (AskQuickPick prefixes prefix_pick)
                             (trace (getPrefix w s)))
        <-> config_prefixes c <> None).
Proof.
  intros w s root others c Hw Hd Hr picked. unfold picked.
  unfold getPrefix, getForestConfig.
  destruct (defaultPrefix s) as [d|];
    [simpl in Hd; destruct (truthy d); [discriminate|]|];
    rewrite Hw;
    cbn [getRoot lift bind emit ret throw ended trace outcome log];
    rewrite Hr; cbn [ret bind ended trace];
    (destruct (config_prefixes c) as [prefixes|];
     [destruct (showQuickPick w prefix_pick prefixes) as [[|a p]|]|];
     cbn [falsy truthy negb bind emit ret ended trace];
     (split; [reflexivity|]); split;
     (split;
      [ intros H; try reflexivity; try congruence;
        try (destruct H as (x & H));
        rewrite ?in_app_iff in H;
        unfold several_folders_warning in H; destruct others; simpl in H;
        intuition discriminate
      | intros H; try discriminate; try (exfalso; now apply H);
        try (exists prefixes);
        rewrite ?in_app_iff; simpl; tauto ])).
Qed.

Lemma prefix_is_picked_or_typed_witness :
  let picked := match config_prefixes (Some sample_toml) with
                | Some prefixes => showQuickPick sample_world prefix_pick prefixes
                | None => None
                end in
  ended (getPrefix sample_world sample_settings)
  = Returned (if falsy picked then showInputBox sample_world prefix_input
              else picked)
  /\ (In (AskInputBox prefix_input)
         (trace (getPrefix sample_world sample_settings))
      <-> falsy picked = true)
  /\ ((exists prefixes, In (AskQuickPick prefixes prefix_pick)
                           (trace (getPrefix sample_world sample_settings)))
      <-> config_prefixes (Some sample_toml) <> None).
Proof.
  apply (prefix_is_picked_or_typed sample_world sample_settings "/forest" []
           (Some sample_toml)); reflexivity.
Defined.

(* ================================================================== *)
(** * The start of the replacement *)
(* ================================================================== *)

(** X27: the last alternative of the chain that computes the start of the
    replacement, the column of the cursor, is never taken: whenever the
    pattern matches, one of its three groups has matched, so the start does
    not depend on the column and lies within the text. *)
Theorem replacement_start_is_a_group_start :
  forall (text : string) (column column' : nat),
    completion_start text column = completion_start text column'
    /\ forall ix : nat,
         completion_start text column = Some ix -> ix <= String.length text.
Proof.
  intros text column column'. unfold completion_start, exec.
  destruct (exec_from tagPattern tagPattern_groups 0 text) as [mt|] eqn:E;
    [|split; [reflexivity | discriminate]].
  destruct (exec_from_Some _ _ _ E) as (pre & rest0 & y & -> & _ & Hm & ->).
  destruct (tagPattern_anatomy _ _ _ _ Hm)
    as (n & opening & q & -> & -> & Hcase).
  assert (Hn : n = 1 \/ n = 2 \/ n = 3)
    by (destruct Hcase as [(-> & _)|[(-> & _)|(-> & _)]]; auto).
  cbn [endIndex caps].
  assert (Hs : forall fallback,
             orElse (group_start
                       (ExecArray (0 + String.length pre)
                          (set_cap 0
                             (0 + String.length pre,
                              0 + String.length pre
                              + String.length (opening ++ q))
                             (set_cap n
                                (0 + String.length pre + String.length opening,
                                 0 + String.length pre
                                 + String.length (opening ++ q))
                                (repeat None (S tagPattern_groups))))) 1)
               (orElse (group_start
                          (ExecArray (0 + String.length pre)
                             (set_cap 0
                                (0 + String.length pre,
                                 0 + String.length pre
                                 + String.length (opening ++ q))
                                (set_cap n
                                   (0 + String.length pre
                                    + String.length opening,
                                    0 + String.length pre
                                    + String.length (opening ++ q))
                                   (repeat None (S tagPattern_groups))))) 2)
                  (orElse (group_start
                             (ExecArray (0 + String.length pre)
                                (set_cap 0
                                   (0 + String.length pre,
                                    0 + String.length pre
                                    + String.length (opening ++ q))
                                   (set_cap n
                                      (0 + String.length pre
                                       + String.length opening,
                                       0 + String.length pre
                                       + String.length (opening ++ q))
                                      (repeat None (S tagPattern_groups))))) 3)
                     fallback))
             = 0 + String.length pre + String.length opening).
  { intros fallback. destruct Hn as [->|[->| ->]]; reflexivity. }
  rewrite !Hs. split; [reflexivity|].
  intros ix H. injection H as <-. rewrite !append_length. simpl. lia.
Qed.
